(** * torrent2http: a shallow embedding of [torrent2http.go]

    The program is a small HTTP front end over the libtorrent engine.  The
    engine, the operating system and the HTTP framework are external; their
    calls appear here as effects in a trace, and what they answer is an
    input of the model.  Go's [int] is the 64-bit integer of the usual
    platforms, a [Z] with its wrap-around written out; [float32] and
    [float64] are IEEE 754 binary32 and binary64, the [spec_float] of the
    Standard Library with the matching precision and exponent range. *)

From Stdlib Require Import ZArith List String Bool Lia.
From Stdlib Require Import Floats.SpecFloat.
Import ListNotations.

Local Open Scope string_scope.
Local Open Scope list_scope.
Local Open Scope Z_scope.

(** ** Configuration ([type Config struct]) *)

Record Config : Type := {
  uri : string;
  bindAddress : string;
  maxUploadRate : Z;
  maxDownloadRate : Z;
  downloadPath : string;
  keepFiles : bool;
  encryption : Z;
  noSparseFile : bool;
  idleTimeout : Z;
  portLower : Z;
  portUpper : Z;
  buffer : spec_float
}.

(** ** Integers and durations *)

(** Go's [int] and [int64]: two's complement on 64 bits. *)
Definition wrap64 (z : Z) : Z := (z + 2 ^ 63) mod 2 ^ 64 - 2 ^ 63.

(** [time.Second], in nanoseconds, the unit of [time.Duration]. *)
Definition time_Second : Z := 1000000000.

(** ** What the engine reports *)

(** [torrent_status], by the getters the program reads. *)
Record torrent_status : Type := {
  GetState : Z;
  GetProgress : spec_float;
  GetDownload_rate : Z;
  GetUpload_rate : Z;
  GetNum_peers : Z;
  GetNum_incomplete : Z;
  GetNum_seeds : Z;
  GetNum_complete : Z;
  GetHas_metadata : bool;
  GetIs_seeding : bool;
  GetIs_finished : bool
}.

(** [torrent_info], by the two calls [removeFiles] makes on it;
    [File_at_GetPath i] is [File_at(i).GetPath()]. *)
Record torrent_info : Type := {
  Num_files : Z;
  File_at_GetPath : Z -> string
}.

(** The only alert category the program names. *)
Inductive alert_category : Type :=
| AlertStorage_notification.

(** ** Effects

    One constructor per call that leaves the program: the logger, the
    session, the torrent handle, the file system, the clock and the process
    exit. *)

Inductive effect : Type :=
| Println (msg : string)
| Stop_dht
| Stop_lsd
| Stop_upnp
| Stop_natpmp
| Set_alert_mask (mask : alert_category)
| Remove_torrent (options : Z)
| Wait_for_alert (seconds : Z)
| Pop_alert2
| Torrent_Status
| Torrent_Get_torrent_info
| Piece_priority (index priority : Z)
| RemoveAll (path : string)
| Sleep (nanoseconds : Z)
| Exit (code : Z).

(** A loop that waits on the engine either completes or is still waiting
    when the fuel is spent; both carry the effects issued so far. *)

Inductive run : Type :=
| Done (tr : list effect)
| Pending (tr : list effect).

Definition trace_of (r : run) : list effect :=
  match r with
  | Done tr => tr
  | Pending tr => tr
  end.

Definition and_then (pre : list effect) (r : run) : run :=
  match r with
  | Done tr => Done (pre ++ tr)
  | Pending tr => Pending (pre ++ tr)
  end.

(** ** Teardown: [stopServices], [removeFiles], [shutdown] *)

(** A torrent handle, by what it answers while one handler or one teardown
    step runs. *)
Module Torrent_handle.

Record t : Type := {
  Name : string;
  Status : torrent_status;
  Save_path : string;
  Get_torrent_info : torrent_info
}.

End Torrent_handle.

(** What the engine answers during a teardown.  [alerts k] is the answer to
    the [k]-th [Wait_for_alert(30s)]: [None] when the poll comes back with a
    null pointer, [Some what] when an alert is pending, [what] being the
    name [Pop_alert2().What()] then reports.  [torrentHandle] is what the
    handle answers when [removeFiles] runs. *)

Record Engine : Type := {
  alerts : nat -> option string;
  torrentHandle : Torrent_handle.t
}.

Section Teardown.

(** [path.Join] is the Go library's; the teardown only hands its result
    to [os.RemoveAll]. *)
Variable path_Join : string -> string -> string.

(** [func stopServices()] *)
Definition stopServices : list effect :=
  [ Println "Stopping DHT..."; Stop_dht;
    Println "Stopping LSD..."; Stop_lsd;
    Println "Stopping UPNP..."; Stop_upnp;
    Println "Stopping NATPMP..."; Stop_natpmp ].

(** The body of [for i := 0; i < torrentInfo.Num_files(); i++]: [todo]
    iterations are left, the next one at index [i]. *)
Fixpoint removeFiles_loop (eng : Engine) (todo : nat) (i : Z) : list effect :=
  match todo with
  | O => []
  | S todo' =>
      RemoveAll
        (path_Join (Torrent_handle.Save_path (torrentHandle eng))
           (File_at_GetPath
              (Torrent_handle.Get_torrent_info (torrentHandle eng)) i))
      :: removeFiles_loop eng todo' (i + 1)
  end.

(** [func removeFiles()] *)
Definition removeFiles (eng : Engine) : list effect :=
  if Bool.eqb (GetHas_metadata (Torrent_handle.Status (torrentHandle eng)))
       false
  then [ Torrent_Status ]
  else
    Torrent_Status :: Torrent_Get_torrent_info
    :: removeFiles_loop eng
         (Z.to_nat
            (Num_files (Torrent_handle.Get_torrent_info (torrentHandle eng))))
         0.

(** The [for { ... }] of [shutdown]; poll number [k] is next. *)
Fixpoint wait_loop (fuel : nat) (eng : Engine) (k : nat) : run :=
  match fuel with
  | O => Pending []
  | S fuel' =>
      match alerts eng k with
      | None => Done [ Wait_for_alert 30 ]
      | Some what =>
          if String.eqb what "cache_flushed_alert"
          then Done [ Wait_for_alert 30; Pop_alert2 ]
          else and_then [ Wait_for_alert 30; Pop_alert2 ]
                        (wait_loop fuel' eng (S k))
      end
  end.

(** [func shutdown()]; [Done] is a run that reached [os.Exit(0)]. *)
Definition shutdown (fuel : nat) (cfg : Config) (eng : Engine) : run :=
  and_then (Println "Stopping torrent2http..." :: stopServices
            ++ [ Println "Removing torrent..." ])
    (if Bool.eqb (keepFiles cfg) false then
       and_then [ Set_alert_mask AlertStorage_notification;
                  Remove_torrent 1;
                  Println "Waiting for files to be removed..." ]
         (match wait_loop fuel eng 0 with
          | Done tr =>
              Done (tr ++ removeFiles eng ++ [ Println "Bye bye"; Exit 0 ])
          | Pending tr => Pending tr
          end)
     else Done [ Println "Bye bye"; Exit 0 ]).

End Teardown.

(** ** Floating point: Go's [float64] and [float32]

    Values are [spec_float]s; the operations are the IEEE 754 ones of the
    Standard Library at the format's precision and exponent range.  The
    [math] functions follow their documentation in Go's library. *)

Definition is_finite (x : spec_float) : bool :=
  match x with
  | S754_zero _ | S754_finite _ _ _ => true
  | _ => false
  end.

Definition is_nan (x : spec_float) : bool :=
  match x with
  | S754_nan => true
  | _ => false
  end.

Definition is_zero (x : spec_float) : bool :=
  match x with
  | S754_zero _ => true
  | _ => false
  end.

Definition is_pinf (x : spec_float) : bool :=
  match x with
  | S754_infinity false => true
  | _ => false
  end.

Definition signbit (x : spec_float) : bool :=
  match x with
  | S754_zero s | S754_infinity s | S754_finite s _ _ => s
  | S754_nan => false
  end.

(** The integer part of a float, towards zero; none for NaN and the
    infinities. *)
Definition trunc (x : spec_float) : option Z :=
  match x with
  | S754_zero _ => Some 0
  | S754_finite s m e =>
      Some (cond_Zopp s (if 0 <=? e then Z.pos m * 2 ^ e
                         else Z.pos m / 2 ^ (- e)))
  | _ => None
  end.

Module Float32.

Definition prec : Z := 24.
Definition emax : Z := 128.

(** [float32(n)] for an integer [n]. *)
Definition of_int (n : Z) : spec_float := binary_normalize prec emax n 0 false.

Definition div : spec_float -> spec_float -> spec_float := SFdiv prec emax.

End Float32.

Module Float64.

Definition prec : Z := 53.
Definition emax : Z := 1024.

Definition zero : spec_float := S754_zero false.

(** [float64(n)] for an integer [n]. *)
Definition of_int (n : Z) : spec_float := binary_normalize prec emax n 0 false.

Definition one : spec_float := of_int 1.

(** [float64(x)] for a [float32] [x]: the same value, in binary64. *)
Definition of_float32 (x : spec_float) : spec_float :=
  match x with
  | S754_finite s m e => binary_round prec emax s m e
  | _ => x
  end.

Definition add : spec_float -> spec_float -> spec_float := SFadd prec emax.
Definition mul : spec_float -> spec_float -> spec_float := SFmul prec emax.
Definition div : spec_float -> spec_float -> spec_float := SFdiv prec emax.

(** [math.Ceil]: the least integer value not below [x]; zeros, infinities
    and NaN are returned as they are, and a negative [x] above [-1] gives
    the negative zero. *)
Definition Ceil (x : spec_float) : spec_float :=
  match x with
  | S754_finite s m e =>
      if 0 <=? e then x
      else
        let q := Z.pos m / 2 ^ (- e) in
        let r := Z.pos m mod 2 ^ (- e) in
        if s then (if q =? 0 then S754_zero true else of_int (- q))
        else of_int (if r =? 0 then q else q + 1)
  | _ => x
  end.

(** [math.Max]: [+Inf] if either is, else NaN if either is, the positive
    zero of two zeros unless both are negative, else the larger. *)
Definition Max (x y : spec_float) : spec_float :=
  if is_pinf x || is_pinf y then S754_infinity false
  else if is_nan x || is_nan y then S754_nan
  else if is_zero x && is_zero y then (if signbit x then y else x)
  else if SFltb y x then x else y.

End Float64.


(** ** JSON and HTTP responses

    [json.Marshal] writes a struct as an object, one member per field, under
    the field's tag and in declaration order; it fails on a float that is
    NaN or infinite.  The handlers drop the error and write whatever bytes
    came back, so a failed encoding is an empty body. *)

#[warnings="-register-all"]
Inductive json : Type :=
| JNull
| JInt (n : Z)
| JFloat (x : spec_float)
| JString (s : string)
| JArray (items : list json)
| JObject (members : list (string * json)).

Definition json_float (x : spec_float) : option json :=
  if is_finite x then Some (JFloat x) else None.

(** All the encodings, or none if one failed. *)
Fixpoint json_all (l : list (option json)) : option (list json) :=
  match l with
  | [] => Some []
  | None :: _ => None
  | Some j :: l' =>
      match json_all l' with
      | Some js => Some (j :: js)
      | None => None
      end
  end.

Definition json_object (members : list (string * option json)) : option json :=
  match json_all (map snd members) with
  | Some js => Some (JObject (combine (map fst members) js))
  | None => None
  end.

(** A response: the headers set, the status line [net/http] sends on the
    first [Write] when none was set, and the body. *)
Record response : Type := {
  Header : list (string * string);
  StatusCode : Z;
  Body : option json
}.

(** ** [statusHandler] *)

Module SessionStatus.

Record t : Type := {
  Name : string;
  State : Z;
  Progress : spec_float;
  DownloadRate : spec_float;
  UploadRate : spec_float;
  NumPeers : Z;
  NumSeeds : Z;
  TotalSeeds : Z;
  TotalPeers : Z
}.

Definition Marshal (status : t) : option json :=
  json_object
    [ ("name", Some (JString (Name status)));
      ("state", Some (JInt (State status)));
      ("progress", json_float (Progress status));
      ("download_rate", json_float (DownloadRate status));
      ("upload_rate", json_float (UploadRate status));
      ("num_peers", Some (JInt (NumPeers status)));
      ("num_seeds", Some (JInt (NumSeeds status)));
      ("total_seeds", Some (JInt (TotalSeeds status)));
      ("total_peers", Some (JInt (TotalPeers status))) ].

End SessionStatus.

(** The [status] value [statusHandler] builds; [None] is a nil
    [instance.torrentHandle]. *)
Definition statusHandler_status (torrentHandle : option Torrent_handle.t)
  : SessionStatus.t :=
  match torrentHandle with
  | None =>
      {| SessionStatus.Name := "";
         SessionStatus.State := -1;
         SessionStatus.Progress := S754_zero false;
         SessionStatus.DownloadRate := S754_zero false;
         SessionStatus.UploadRate := S754_zero false;
         SessionStatus.NumPeers := 0;
         SessionStatus.NumSeeds := 0;
         SessionStatus.TotalSeeds := 0;
         SessionStatus.TotalPeers := 0 |}
  | Some h =>
      let tstatus := Torrent_handle.Status h in
      {| SessionStatus.Name := Torrent_handle.Name h;
         SessionStatus.State := GetState tstatus;
         SessionStatus.Progress := GetProgress tstatus;
         SessionStatus.DownloadRate :=
           Float32.div (Float32.of_int (GetDownload_rate tstatus))
                       (Float32.of_int 1000);
         SessionStatus.UploadRate :=
           Float32.div (Float32.of_int (GetUpload_rate tstatus))
                       (Float32.of_int 1000);
         SessionStatus.NumPeers := GetNum_peers tstatus;
         SessionStatus.NumSeeds := GetNum_seeds tstatus;
         SessionStatus.TotalSeeds := GetNum_complete tstatus;
         SessionStatus.TotalPeers := GetNum_incomplete tstatus |}
  end.

(** [func statusHandler(w, r)] *)
Definition statusHandler (torrentHandle : option Torrent_handle.t) : response :=
  {| Header := [ ("Content-Type", "application/json") ];
     StatusCode := 200;
     Body := SessionStatus.Marshal (statusHandler_status torrentHandle) |}.

(** ** [lsHandler] *)

(** A file of the torrent file system, by the four methods [lsHandler]
    calls on it; [Pieces] is the pair [startPiece, endPiece]. *)
Module TorrentFile.

Record t : Type := {
  Name : string;
  Size : Z;
  Offset : Z;
  Pieces : Z * Z
}.

End TorrentFile.

Module FileStatusInfo.

Record t : Type := {
  Name : string;
  Size : Z;
  Offset : Z;
  TotalPieces : Z;
  Buffer : spec_float
}.

Definition Marshal (fi : t) : option json :=
  json_object
    [ ("name", Some (JString (Name fi)));
      ("size", Some (JInt (Size fi)));
      ("offset", Some (JInt (Offset fi)));
      ("total_pieces", Some (JInt (TotalPieces fi)));
      ("buffer", json_float (Buffer fi)) ].

End FileStatusInfo.

Module LsInfo.

Record t : Type := {
  Files : list FileStatusInfo.t
}.

(** A nil slice is written as [null]. *)
Definition Marshal (ls : t) : option json :=
  json_object
    [ ("files",
       match Files ls with
       | [] => Some JNull
       | fs =>
           match json_all (map FileStatusInfo.Marshal fs) with
           | Some js => Some (JArray js)
           | None => None
           end
       end) ].

End LsInfo.

Section Listing.

(** Go leaves the result of [int(x)] to the implementation when [x] has no
    [int] value (NaN, an infinity, or out of range); [unrepresentable x] is
    what the platform gives then, an [int] all the same. *)
Variable unrepresentable : spec_float -> Z.

(** [int(x)] for a [float64] [x]. *)
Definition int_of_float64 (x : spec_float) : Z :=
  match trunc x with
  | Some z =>
      if (- 2 ^ 63 <=? z) && (z <? 2 ^ 63) then z
      else wrap64 (unrepresentable x)
  | None => wrap64 (unrepresentable x)
  end.

(** [libtorrent.Get_piece_progress(instance.torrentHandle, piece)], a
    [float32]. *)
Variable Get_piece_progress : Z -> spec_float.

(** The number of pieces the buffer is measured on: the [pieces] variable
    after the [if pieces < 1]. *)
Definition buffer_pieces (cfg : Config) (startPiece endPiece : Z) : Z :=
  let pieces :=
    int_of_float64
      (Float64.Ceil
         (Float64.mul (buffer cfg)
                      (Float64.of_int (wrap64 (endPiece - startPiece))))) in
  if pieces <? 1 then 1 else pieces.

(** [for piece := ...; piece < pieces; piece++ { buffer += ... }] with
    [todo] iterations left, the next one at index [piece]. *)
Fixpoint buffer_loop (todo : nat) (piece : Z) (buffer : spec_float)
  : spec_float :=
  match todo with
  | O => buffer
  | S todo' =>
      buffer_loop todo' (piece + 1)
        (Float64.add buffer (Float64.of_float32 (Get_piece_progress piece)))
  end.

(** The body of [for _, file := range files]: the entry [fi] of one file. *)
Definition fileStatusInfo (cfg : Config) (file : TorrentFile.t)
  : FileStatusInfo.t :=
  let '(startPiece, endPiece) := TorrentFile.Pieces file in
  let pieces := buffer_pieces cfg startPiece endPiece in
  let buffer := buffer_loop (Z.to_nat pieces) 0 Float64.zero in
  let buffer := Float64.div buffer (Float64.of_int pieces) in
  {| FileStatusInfo.Name := TorrentFile.Name file;
     FileStatusInfo.Size := TorrentFile.Size file;
     FileStatusInfo.Offset := TorrentFile.Offset file;
     FileStatusInfo.TotalPieces :=
       int_of_float64
         (Float64.Max (Float64.of_int (wrap64 (endPiece - startPiece)))
                      Float64.one);
     FileStatusInfo.Buffer := buffer |}.

(** [retFiles] after the loop over [files]. *)
Definition lsHandler_retFiles (cfg : Config) (files : list TorrentFile.t)
  : LsInfo.t :=
  fold_left
    (fun retFiles file =>
       {| LsInfo.Files := LsInfo.Files retFiles ++ [ fileStatusInfo cfg file ] |})
    files {| LsInfo.Files := [] |}.

(** [func lsHandler(w, r)] *)
Definition lsHandler (cfg : Config) (files : list TorrentFile.t) : response :=
  {| Header := [ ("Content-Type", "application/json") ];
     StatusCode := 200;
     Body := LsInfo.Marshal (lsHandler_retFiles cfg files) |}.

(** The buffer readiness as the specification words it: the mean of the
    completion of the [pieceCount] leading pieces of the file's own range,
    counted from [startPiece]. *)
Definition spec_buffer_readiness (cfg : Config) (file : TorrentFile.t)
  : spec_float :=
  let '(startPiece, endPiece) := TorrentFile.Pieces file in
  let pieceCount := buffer_pieces cfg startPiece endPiece in
  Float64.div (buffer_loop (Z.to_nat pieceCount) startPiece Float64.zero)
              (Float64.of_int pieceCount).

End Listing.

(** ** The seeding watcher: [ensureSeeding] *)

(** The first [for { ... }]: [statuses k] is what the [k]-th call of
    [instance.torrentHandle.Status()] answers. *)
Fixpoint ensureSeeding_poll (fuel : nat) (statuses : nat -> torrent_status)
  (k : nat) : run :=
  match fuel with
  | O => Pending []
  | S fuel' =>
      let tstatus := statuses k in
      if GetIs_seeding tstatus || GetIs_finished tstatus
      then Done [ Torrent_Status ]
      else and_then [ Torrent_Status; Sleep (1 * time_Second) ]
                    (ensureSeeding_poll fuel' statuses (S k))
  end.

(** [for i := 0; i < numPieces; i++], with [todo] iterations left. *)
Fixpoint ensureSeeding_priorities (todo : nat) (i : Z) : list effect :=
  match todo with
  | O => []
  | S todo' => Piece_priority i 1 :: ensureSeeding_priorities todo' (i + 1)
  end.

(** [func ensureSeeding()]; [numPieces] is
    [instance.torrentFS.ti.Num_pieces()]. *)
Definition ensureSeeding (fuel : nat) (statuses : nat -> torrent_status)
  (numPieces : Z) : run :=
  and_then [ Println "Starting seeding watcher" ]
    (match ensureSeeding_poll fuel statuses 0 with
     | Done tr =>
         Done (tr ++ Println "Now seeding, setting priorities"
               :: ensureSeeding_priorities (Z.to_nat numPieces) 0)
     | Pending tr => Pending tr
     end).

(** ** Channels *)

(** A channel made by [make(chan A, cap)]: values sent and not yet
    received, oldest first. *)
Record chan (A : Type) : Type := {
  cap : nat;
  queue : list A
}.

Arguments cap {A} _.
Arguments queue {A} _.

Definition make_chan {A : Type} (capacity : nat) : chan A :=
  {| cap := capacity; queue := [] |}.

(** A send that completes on its own: there is room in the buffer.  On a
    channel of capacity 0 there never is, and a send completes only by
    handing the value to a task that is receiving. *)
Definition buffered_send {A : Type} (c : chan A) (v : A) : option (chan A) :=
  if (List.length (queue c) <? cap c)%nat
  then Some {| cap := cap c; queue := queue c ++ [ v ] |}
  else None.

Definition buffered_recv {A : Type} (c : chan A) : option (A * chan A) :=
  match queue c with
  | [] => None
  | v :: q => Some (v, {| cap := cap c; queue := q |})
  end.

(** [var mainFuncChan = make(chan func())] *)
Definition mainFuncChan_cap : nat := 0.

(** ** The call gateway: [runInMainThread] *)

Section Gateway.

(** The state the submitted actions act on, and the values of
    [interface{}], among them [true]. *)
Variable World : Type.
Variable any : Type.
Variable any_true : any.

(** The argument [f interface{}], by its dynamic type. *)
Inductive action : Type :=
| func_unit (f : World -> World)
| func_any (f : World -> World * any)
| not_a_func.

(** The [func() { switch f := f.(type) ... }] sent on [mainFuncChan], as
    run by the task that received it; [None] if it blocks on [done]. *)
Definition runInMainThread_func1 (f : action) (w : World) (done : chan any)
  : option (World * chan any) :=
  match f with
  | func_unit g =>
      match buffered_send done any_true with
      | Some done' => Some (g w, done')
      | None => None
      end
  | func_any g =>
      let '(w', v) := g w in
      match buffered_send done v with
      | Some done' => Some (w', done')
      | None => None
      end
  | not_a_func => Some (w, done)
  end.

(** Where a call of [runInMainThread] stands: at [mainFuncChan <- ...], at
    [<-done], or returned. *)
Inductive call_point : Type :=
| at_send
| at_receive
| returned (v : any).

Record gateway : Type := {
  world : World;
  caller : call_point;
  mainFuncChan : chan unit;
  done : chan any;
  handed_over : bool
}.

(** The package-level [mainFuncChan = make(chan func())] and
    [done := make(chan interface{}, 1)], before the send. *)
Definition runInMainThread_start (w : World) : gateway :=
  {| world := w; caller := at_send; mainFuncChan := make_chan mainFuncChan_cap;
     done := make_chan 1; handed_over := false |}.

(** The steps of one call.  [receivers] is the number of tasks of the
    process that receive from [mainFuncChan].  The send completes into the
    buffer when there is room, or as a hand-over to a receiving task; the
    closure then runs in the task that took it. *)
Inductive gateway_step (receivers : nat) (f : action)
  : gateway -> gateway -> Prop :=
| step_send g c :
    caller g = at_send ->
    buffered_send (mainFuncChan g) tt = Some c ->
    gateway_step receivers f g
      {| world := world g; caller := at_receive; mainFuncChan := c;
         done := done g; handed_over := handed_over g |}
| step_hand_over g :
    caller g = at_send ->
    (0 < receivers)%nat ->
    gateway_step receivers f g
      {| world := world g; caller := at_receive;
         mainFuncChan := mainFuncChan g; done := done g;
         handed_over := true |}
| step_take g c :
    (0 < receivers)%nat ->
    buffered_recv (mainFuncChan g) = Some (tt, c) ->
    gateway_step receivers f g
      {| world := world g; caller := caller g; mainFuncChan := c;
         done := done g; handed_over := true |}
| step_run g w' done' :
    handed_over g = true ->
    runInMainThread_func1 f (world g) (done g) = Some (w', done') ->
    gateway_step receivers f g
      {| world := w'; caller := caller g; mainFuncChan := mainFuncChan g;
         done := done'; handed_over := false |}
| step_return g v done' :
    caller g = at_receive ->
    buffered_recv (done g) = Some (v, done') ->
    gateway_step receivers f g
      {| world := world g; caller := returned v;
         mainFuncChan := mainFuncChan g; done := done';
         handed_over := handed_over g |}.

Inductive gateway_steps (receivers : nat) (f : action)
  : gateway -> gateway -> Prop :=
| gateway_steps_refl g : gateway_steps receivers f g g
| gateway_steps_step g1 g2 g3 :
    gateway_steps receivers f g1 g2 ->
    gateway_step receivers f g2 g3 ->
    gateway_steps receivers f g1 g3.

End Gateway.

Arguments func_unit {World any} _.
Arguments func_any {World any} _.
Arguments not_a_func {World any}.
Arguments at_send {any}.
Arguments at_receive {any}.
Arguments returned {any} _.
Arguments world {World any} _.
Arguments caller {World any} _.
Arguments mainFuncChan {World any} _.
Arguments done {World any} _.
Arguments handed_over {World any} _.
Arguments runInMainThread_start {World any} _.
Arguments runInMainThread_func1 {World any} _ _ _ _.
Arguments gateway_step {World any} _ _ _ _ _.
Arguments gateway_steps {World any} _ _ _ _ _.

(** ** The idle monitor: [inactiveAutoShutdown] *)

(** [time.Duration(instance.config.idleTimeout) * time.Second] *)
Definition idle_duration (cfg : Config) : Z :=
  wrap64 (idleTimeout cfg * time_Second).

(** What one iteration of the [for] took: a value from
    [connTrackChannel], or the timer of the [select]. *)
Inductive selected : Type :=
| received (inc : Z)
| timer_fired.

(** The body of the [for] on what it took: the counter after it and
    whether [go shutdown()] ran.  With the counter not at zero there is no
    [select] and no timer to fire. *)
Definition inactiveAutoShutdown_body (activeConnections : Z) (s : selected)
  : option (Z * bool) :=
  if activeConnections =? 0 then
    match s with
    | received inc => Some (wrap64 (activeConnections + inc), false)
    | timer_fired => Some (activeConnections, true)
    end
  else
    match s with
    | received inc => Some (wrap64 (activeConnections + inc), false)
    | timer_fired => None
    end.

(** The monitor between two iterations of its [for]: the counter, the time
    on the clock (nanoseconds since the monitor started) and the times at
    which it ran [go shutdown()], latest first. *)
Record monitor : Type := {
  activeConnections : Z;
  clock : Z;
  shutdowns : list Z
}.

(** [time.After(d)] started at [now] fires at [now + d], at once when [d]
    is not positive. *)
Definition timer_expiry (now d : Z) : Z := now + Z.max d 0.

(** The process runs until a [shutdown] reaches [os.Exit]; [teardown] is
    the time one run of [shutdown] takes to get there. *)
Definition alive (teardown : Z) (m : monitor) (t : Z) : Prop :=
  forall t0, In t0 (shutdowns m) -> t < t0 + teardown.

(** One iteration of the [for].  The values on [connTrackChannel] come
    with the time they were sent, oldest first.  With the counter at zero
    the [select] takes a value sent by the expiry of the timer, or the
    timer when no value was sent before it; otherwise the monitor waits
    for the next value. *)
Inductive monitor_step (d teardown : Z)
  : monitor * list (Z * Z) -> monitor * list (Z * Z) -> Prop :=
| select_receive m t inc q :
    activeConnections m = 0 ->
    t <= timer_expiry (clock m) d ->
    alive teardown m (Z.max (clock m) t) ->
    monitor_step d teardown (m, (t, inc) :: q)
      ({| activeConnections := wrap64 (activeConnections m + inc);
          clock := Z.max (clock m) t;
          shutdowns := shutdowns m |}, q)
| select_timer m q :
    activeConnections m = 0 ->
    (forall t inc q', q = (t, inc) :: q' -> timer_expiry (clock m) d <= t) ->
    alive teardown m (timer_expiry (clock m) d) ->
    monitor_step d teardown (m, q)
      ({| activeConnections := activeConnections m;
          clock := timer_expiry (clock m) d;
          shutdowns := timer_expiry (clock m) d :: shutdowns m |}, q)
| busy_receive m t inc q :
    activeConnections m <> 0 ->
    alive teardown m (Z.max (clock m) t) ->
    monitor_step d teardown (m, (t, inc) :: q)
      ({| activeConnections := wrap64 (activeConnections m + inc);
          clock := Z.max (clock m) t;
          shutdowns := shutdowns m |}, q).

Inductive monitor_steps (d teardown : Z)
  : monitor * list (Z * Z) -> monitor * list (Z * Z) -> Prop :=
| monitor_steps_refl s : monitor_steps d teardown s s
| monitor_steps_step s1 s2 s3 :
    monitor_steps d teardown s1 s2 ->
    monitor_step d teardown s2 s3 ->
    monitor_steps d teardown s1 s3.

(** [activeConnections := 0] at the start of [inactiveAutoShutdown]. *)
Definition inactiveAutoShutdown_start : monitor :=
  {| activeConnections := 0; clock := 0; shutdowns := [] |}.

(** ** The program as a whole: who calls, starts and signals whom *)

Module Program.

(** The functions of [torrent2http.go]; [f_func1] is the function literal
    inside [f], and [ServeMux] the request multiplexer of [net/http] that
    [startHTTP] fills. *)
Inductive func : Type :=
| runInMainThread
| runInMainThread_func1
| statusHandler
| lsHandler
| startServices
| stopServices
| removeFiles
| shutdown
| parseFlags
| configureSession
| NewConnectionCounterHandler
| NewConnectionCounterHandler_func1
| inactiveAutoShutdown
| startHTTP
| startHTTP_func1
| ServeMux
| watchParent
| handleSignals
| ensureSeeding
| main.

Inductive channel : Type :=
| mainFuncChan
| done
| connTrackChannel
| signalChan.

(** What a function body does that matters to tasks: a call, a [go]
    statement, a handler given to the HTTP server (which runs it in a task
    of its own for each request), a channel made, a send, a receive. *)
Inductive stmt : Type :=
| call (f : func)
| go (f : func)
| serve (f : func)
| make (c : channel) (capacity : nat)
| send (c : channel)
| recv (c : channel).

(** The statements of each function, in source order, both branches of
    every conditional included.  Functions of the other files of the
    package ([NewTorrentFS] and the methods of the file system) and of the
    libraries are not listed: they are not in this file, and are taken not
    to call back into it. *)
Definition body (f : func) : list stmt :=
  match f with
  | runInMainThread => [ make done 1; send mainFuncChan; recv done ]
  | runInMainThread_func1 => [ send done; send done ]
  | statusHandler => []
  | lsHandler => []
  | startServices => []
  | stopServices => []
  | removeFiles => []
  | shutdown => [ call stopServices; call removeFiles ]
  | parseFlags => []
  | configureSession => []
  | NewConnectionCounterHandler => []
  | NewConnectionCounterHandler_func1 =>
      [ send connTrackChannel; call ServeMux; send connTrackChannel ]
  | inactiveAutoShutdown =>
      [ recv connTrackChannel; go shutdown; recv connTrackChannel ]
  | startHTTP =>
      [ make connTrackChannel 10; call NewConnectionCounterHandler;
        go inactiveAutoShutdown;
        serve ServeMux; serve NewConnectionCounterHandler_func1 ]
  | startHTTP_func1 => [ go shutdown ]
  | ServeMux => [ call statusHandler; call lsHandler; call startHTTP_func1 ]
  | watchParent => [ go shutdown ]
  | handleSignals => [ make signalChan 1; recv signalChan; go shutdown ]
  | ensureSeeding => []
  | main =>
      [ call parseFlags; call configureSession; call startServices;
        go handleSignals; go watchParent; call startHTTP ]
  end.

Definition all_funcs : list func :=
  [ runInMainThread; runInMainThread_func1; statusHandler; lsHandler;
    startServices; stopServices; removeFiles; shutdown; parseFlags;
    configureSession; NewConnectionCounterHandler;
    NewConnectionCounterHandler_func1; inactiveAutoShutdown; startHTTP;
    startHTTP_func1; ServeMux; watchParent; handleSignals; ensureSeeding;
    main ].

Definition func_eq_dec (f g : func) : {f = g} + {f <> g}.
Proof. decide equality. Defined.

Definition channel_eq_dec (c c' : channel) : {c = c'} + {c <> c'}.
Proof. decide equality. Defined.

(** The functions a statement makes run, in this task or another. *)
Definition runs (s : stmt) : list func :=
  match s with
  | call f | go f | serve f => [ f ]
  | _ => []
  end.

Definition successors (f : func) : list func := flat_map runs (body f).

(** The functions that run once those of [fs] do, in at most [n] rounds. *)
Fixpoint reach (n : nat) (fs : list func) : list func :=
  match n with
  | O => fs
  | S n' => reach n' (nodup func_eq_dec (fs ++ flat_map successors fs))
  end.

(** Every function that runs in a process started at [main]. *)
Definition running : list func := reach (List.length all_funcs) [ main ].

Definition receives_from (c : channel) (f : func) : bool :=
  existsb (fun s => match s with
                    | recv c' => if channel_eq_dec c c' then true else false
                    | _ => false
                    end) (body f).

(** The running functions that receive from [c]. *)
Definition receivers (c : channel) : list func :=
  filter (receives_from c) running.

(** The functions started as a task of their own by a [go] statement of a
    running function. *)
Definition started_tasks : list func :=
  nodup func_eq_dec
    (flat_map (fun f => flat_map (fun s => match s with
                                           | go g => [ g ]
                                           | _ => []
                                           end) (body f)) running).

End Program.

(** ** Vocabulary of the properties *)

(** The effects of [k] polls that each found an alert and popped it. *)
Fixpoint polls (k : nat) : list effect :=
  match k with
  | O => []
  | S k' => Wait_for_alert 30 :: Pop_alert2 :: polls k'
  end.

(** Each of the four discovery services is stopped in [tr], and before any
    request to remove the torrent. *)
Definition services_stopped_before_removal (tr : list effect) : Prop :=
  (In Stop_dht tr /\ In Stop_lsd tr /\ In Stop_upnp tr /\ In Stop_natpmp tr)
  /\ forall l1 options l2,
       tr = l1 ++ Remove_torrent options :: l2 ->
       In Stop_dht l1 /\ In Stop_lsd l1 /\ In Stop_upnp l1 /\ In Stop_natpmp l1.

(** Effects that remove the torrent, wait for its removal or delete files. *)
Definition is_removal (e : effect) : bool :=
  match e with
  | Set_alert_mask _ | Remove_torrent _ | Wait_for_alert _ | Pop_alert2
  | Torrent_Status | Torrent_Get_torrent_info | RemoveAll _ => true
  | _ => false
  end.

Definition is_RemoveAll (e : effect) : bool :=
  match e with
  | RemoveAll _ => true
  | _ => false
  end.


(** ** Example inputs *)

(** A textual stand-in for [path.Join] on two clean relative elements. *)
Definition join_slash (dir file : string) : string :=
  String.append dir (String.append "/" file).

Definition example_status (has_metadata : bool) : torrent_status :=
  {| GetState := 3;
     GetProgress := S754_zero false;
     GetDownload_rate := 2048000;
     GetUpload_rate := 1000;
     GetNum_peers := 7;
     GetNum_incomplete := 40;
     GetNum_seeds := 2;
     GetNum_complete := 11;
     GetHas_metadata := has_metadata;
     GetIs_seeding := false;
     GetIs_finished := false |}.

Definition example_info : torrent_info :=
  {| Num_files := 2;
     File_at_GetPath := fun i => if i =? 0 then "a.mkv" else "b.srt" |}.

Definition example_handle (has_metadata : bool) : Torrent_handle.t :=
  {| Torrent_handle.Name := "example";
     Torrent_handle.Status := example_status has_metadata;
     Torrent_handle.Save_path := "dl";
     Torrent_handle.Get_torrent_info := example_info |}.

(** An engine that first reports the torrent deleted, then the cache
    flushed. *)
Definition example_engine (has_metadata : bool) : Engine :=
  {| alerts := fun k => match k with
                        | O => Some "torrent_deleted_alert"
                        | _ => Some "cache_flushed_alert"
                        end;
     torrentHandle := example_handle has_metadata |}.

Definition example_config (keep : bool) (idle : Z) (fraction : spec_float)
  : Config :=
  {| uri := "file:///example.torrent";
     bindAddress := ":5001";
     maxUploadRate := 0;
     maxDownloadRate := 0;
     downloadPath := ".";
     keepFiles := keep;
     encryption := 1;
     noSparseFile := false;
     idleTimeout := idle;
     portLower := 6900;
     portUpper := 6999;
     buffer := fraction |}.

(** What a submitted action leaves behind once it has run from world [w]:
    the new world and the value put on [done]; nothing for a value that is
    neither a [func()] nor a [func() interface{}]. *)
Definition action_result {World any : Type} (any_true : any)
  (f : action World any) (w : World) : option (World * any) :=
  match f with
  | func_unit g => Some (g w, any_true)
  | func_any g => Some (g w)
  | not_a_func => None
  end.

(** The effects of [k] polls of the seeding watcher that found the torrent
    neither seeding nor finished. *)
Fixpoint watcher_polls (k : nat) : list effect :=
  match k with
  | O => []
  | S k' => Torrent_Status :: Sleep (1 * time_Second) :: watcher_polls k'
  end.

(** A status that reports the torrent seeding, or not yet. *)
Definition example_seeding (seeding : bool) : torrent_status :=
  {| GetState := if seeding then 5 else 3;
     GetProgress := S754_zero false;
     GetDownload_rate := 0;
     GetUpload_rate := 0;
     GetNum_peers := 0;
     GetNum_incomplete := 0;
     GetNum_seeds := 0;
     GetNum_complete := 0;
     GetHas_metadata := true;
     GetIs_seeding := seeding;
     GetIs_finished := false |}.

(** The states a call of [runInMainThread] on world [w] can be in: at the
    send with nothing done; handed over and not yet run; run, with the
    result waiting on [done]; run to no effect, the argument being no
    function; returned. *)
Definition gateway_inv {World any : Type} (any_true : any) (receivers : nat)
  (f : action World any) (w : World) (g : gateway World any) : Prop :=
  cap (mainFuncChan g) = 0%nat /\ queue (mainFuncChan g) = []
  /\ cap (done g) = 1%nat
  /\ ((caller g = at_send /\ handed_over g = false
       /\ queue (done g) = [] /\ world g = w)
      \/ (caller g = at_receive /\ handed_over g = true
          /\ queue (done g) = [] /\ world g = w /\ (0 < receivers)%nat)
      \/ (caller g = at_receive /\ handed_over g = false
          /\ exists w' v, action_result any_true f w = Some (w', v)
                          /\ queue (done g) = [ v ] /\ world g = w')
      \/ (caller g = at_receive /\ handed_over g = false
          /\ action_result any_true f w = None
          /\ queue (done g) = [] /\ world g = w)
      \/ (exists w' v, caller g = returned v /\ handed_over g = false
                       /\ action_result any_true f w = Some (w', v)
                       /\ queue (done g) = [] /\ world g = w')).



(** ** Vocabulary of rounding *)

(** Whether a location says that something was lost. *)
Definition loc_inexact (l : location) : bool :=
  match l with
  | loc_Exact => false
  | loc_Inexact _ => true
  end.

(** Rounding to nearest, ties to even, goes up: the round bit [r] is set
    and either the sticky bit [s] is, or the mantissa [m] is odd. *)
Definition rounds_up (r s : bool) (m : Z) : bool := r && (s || Z.odd m).

(** The float that [binary_round_aux] ends on once the mantissa is rounded
    to [m] at exponent [e]: a mantissa that reached [2 ^ prec] is
    renormalised one exponent up, and the exponent is checked against the
    format's largest. *)
Definition finish (prec emax : Z) (sx : bool) (m e : Z) : spec_float :=
  if m =? 0 then S754_zero sx
  else if m =? 2 ^ prec then
    if e + 1 <=? emax - prec
    then S754_finite sx (Z.to_pos (2 ^ (prec - 1))) (e + 1)
    else S754_infinity sx
  else
    if e <=? emax - prec
    then S754_finite sx (Z.to_pos m) e
    else S754_infinity sx.

(** [m1 * 2 ^ e1 <= m2 * 2 ^ e2] and [<], compared as integers on the
    smaller of the two exponents. *)
Definition dyadic_le (m1 e1 m2 e2 : Z) : Prop :=
  m1 * 2 ^ (e1 - Z.min e1 e2) <= m2 * 2 ^ (e2 - Z.min e1 e2).

Definition dyadic_lt (m1 e1 m2 e2 : Z) : Prop :=
  m1 * 2 ^ (e1 - Z.min e1 e2) < m2 * 2 ^ (e2 - Z.min e1 e2).

(** A float of the format that is a zero, or finite, positive, well formed
    and at most [Km * 2 ^ Ke]. *)
Definition below (prec emax : Z) (x : spec_float) (Km Ke : Z) : Prop :=
  match x with
  | S754_zero _ => True
  | S754_finite false m e =>
      bounded prec emax m e = true /\ dyadic_le (Z.pos m) e Km Ke
  | _ => False
  end.

(** The same, against an integer. *)
Definition in_range (prec emax : Z) (x : spec_float) (N : Z) : Prop :=
  below prec emax x N 0.

(** A float of the format that is well formed and compares within
    [0 <= x <= 1], as Go's [0 <= x && x <= 1] does. *)
Definition unit_interval (prec emax : Z) (x : spec_float) : Prop :=
  valid_binary prec emax x = true
  /\ SFleb (S754_zero false) x = true
  /\ SFleb x (binary_normalize prec emax 1 0 false) = true.

(** ** Example inputs of the listing *)

(** The buffer fraction 0.01, the default of the [-buffer] flag. *)
Definition buffer_0_01 : spec_float :=
  Float64.div (Float64.of_int 1) (Float64.of_int 100).

(** Two files of a hundred pieces each, one after the other. *)
Definition example_files : list TorrentFile.t :=
  [ {| TorrentFile.Name := "a.mkv"; TorrentFile.Size := 1000;
       TorrentFile.Offset := 0; TorrentFile.Pieces := (0, 100) |};
    {| TorrentFile.Name := "b.mkv"; TorrentFile.Size := 1000;
       TorrentFile.Offset := 1000; TorrentFile.Pieces := (100, 200) |} ].

(** The first file is complete, the second not begun: pieces below 100 are
    at 1.0, the others at 0. *)
Definition example_progress (piece : Z) : spec_float :=
  if piece <? 100 then S754_finite false 8388608 (-23) else S754_zero false.

(** A platform whose out-of-range conversions give the least [int], as
    amd64 does. *)
Definition example_unrepresentable (x : spec_float) : Z := - 2 ^ 63.

(** A float of the format that is finite, positive, well formed and at
    least [Km * 2 ^ Ke], or the positive infinity. *)
Definition above (prec emax : Z) (x : spec_float) (Km Ke : Z) : Prop :=
  match x with
  | S754_finite false m e =>
      bounded prec emax m e = true /\ dyadic_le Km Ke (Z.pos m) e
  | S754_infinity false => True
  | _ => False
  end.

(** * Start-up and the tasks

    What follows embeds the rest of [torrent2http.go]: [parseFlags],
    [configureSession], [startServices], [main], [startHTTP],
    [NewConnectionCounterHandler], [watchParent] and [handleSignals]. *)

(** ** [configureSession]: the settings handed to the session *)

(** [session_settings], by the fields [configureSession] writes. *)
Record session_settings : Type := {
  user_agent : string;
  request_timeout : Z;
  peer_connect_timeout : Z;
  announce_to_all_trackers : bool;
  announce_to_all_tiers : bool;
  connection_speed : Z;
  download_rate_limit : Z;
  upload_rate_limit : Z;
  torrent_connect_boost : Z;
  rate_limit_ip_overhead : bool
}.

Definition SetUser_agent (v : string) (s : session_settings)
  : session_settings :=
  {| user_agent := v;
     request_timeout := request_timeout s;
     peer_connect_timeout := peer_connect_timeout s;
     announce_to_all_trackers := announce_to_all_trackers s;
     announce_to_all_tiers := announce_to_all_tiers s;
     connection_speed := connection_speed s;
     download_rate_limit := download_rate_limit s;
     upload_rate_limit := upload_rate_limit s;
     torrent_connect_boost := torrent_connect_boost s;
     rate_limit_ip_overhead := rate_limit_ip_overhead s |}.

Definition SetRequest_timeout (v : Z) (s : session_settings)
  : session_settings :=
  {| user_agent := user_agent s;
     request_timeout := v;
     peer_connect_timeout := peer_connect_timeout s;
     announce_to_all_trackers := announce_to_all_trackers s;
     announce_to_all_tiers := announce_to_all_tiers s;
     connection_speed := connection_speed s;
     download_rate_limit := download_rate_limit s;
     upload_rate_limit := upload_rate_limit s;
     torrent_connect_boost := torrent_connect_boost s;
     rate_limit_ip_overhead := rate_limit_ip_overhead s |}.

Definition SetPeer_connect_timeout (v : Z) (s : session_settings)
  : session_settings :=
  {| user_agent := user_agent s;
     request_timeout := request_timeout s;
     peer_connect_timeout := v;
     announce_to_all_trackers := announce_to_all_trackers s;
     announce_to_all_tiers := announce_to_all_tiers s;
     connection_speed := connection_speed s;
     download_rate_limit := download_rate_limit s;
     upload_rate_limit := upload_rate_limit s;
     torrent_connect_boost := torrent_connect_boost s;
     rate_limit_ip_overhead := rate_limit_ip_overhead s |}.

Definition SetAnnounce_to_all_trackers (v : bool) (s : session_settings)
  : session_settings :=
  {| user_agent := user_agent s;
     request_timeout := request_timeout s;
     peer_connect_timeout := peer_connect_timeout s;
     announce_to_all_trackers := v;
     announce_to_all_tiers := announce_to_all_tiers s;
     connection_speed := connection_speed s;
     download_rate_limit := download_rate_limit s;
     upload_rate_limit := upload_rate_limit s;
     torrent_connect_boost := torrent_connect_boost s;
     rate_limit_ip_overhead := rate_limit_ip_overhead s |}.

Definition SetAnnounce_to_all_tiers (v : bool) (s : session_settings)
  : session_settings :=
  {| user_agent := user_agent s;
     request_timeout := request_timeout s;
     peer_connect_timeout := peer_connect_timeout s;
     announce_to_all_trackers := announce_to_all_trackers s;
     announce_to_all_tiers := v;
     connection_speed := connection_speed s;
     download_rate_limit := download_rate_limit s;
     upload_rate_limit := upload_rate_limit s;
     torrent_connect_boost := torrent_connect_boost s;
     rate_limit_ip_overhead := rate_limit_ip_overhead s |}.

Definition SetConnection_speed (v : Z) (s : session_settings)
  : session_settings :=
  {| user_agent := user_agent s;
     request_timeout := request_timeout s;
     peer_connect_timeout := peer_connect_timeout s;
     announce_to_all_trackers := announce_to_all_trackers s;
     announce_to_all_tiers := announce_to_all_tiers s;
     connection_speed := v;
     download_rate_limit := download_rate_limit s;
     upload_rate_limit := upload_rate_limit s;
     torrent_connect_boost := torrent_connect_boost s;
     rate_limit_ip_overhead := rate_limit_ip_overhead s |}.

Definition SetDownload_rate_limit (v : Z) (s : session_settings)
  : session_settings :=
  {| user_agent := user_agent s;
     request_timeout := request_timeout s;
     peer_connect_timeout := peer_connect_timeout s;
     announce_to_all_trackers := announce_to_all_trackers s;
     announce_to_all_tiers := announce_to_all_tiers s;
     connection_speed := connection_speed s;
     download_rate_limit := v;
     upload_rate_limit := upload_rate_limit s;
     torrent_connect_boost := torrent_connect_boost s;
     rate_limit_ip_overhead := rate_limit_ip_overhead s |}.

Definition SetUpload_rate_limit (v : Z) (s : session_settings)
  : session_settings :=
  {| user_agent := user_agent s;
     request_timeout := request_timeout s;
     peer_connect_timeout := peer_connect_timeout s;
     announce_to_all_trackers := announce_to_all_trackers s;
     announce_to_all_tiers := announce_to_all_tiers s;
     connection_speed := connection_speed s;
     download_rate_limit := download_rate_limit s;
     upload_rate_limit := v;
     torrent_connect_boost := torrent_connect_boost s;
     rate_limit_ip_overhead := rate_limit_ip_overhead s |}.

Definition SetTorrent_connect_boost (v : Z) (s : session_settings)
  : session_settings :=
  {| user_agent := user_agent s;
     request_timeout := request_timeout s;
     peer_connect_timeout := peer_connect_timeout s;
     announce_to_all_trackers := announce_to_all_trackers s;
     announce_to_all_tiers := announce_to_all_tiers s;
     connection_speed := connection_speed s;
     download_rate_limit := download_rate_limit s;
     upload_rate_limit := upload_rate_limit s;
     torrent_connect_boost := v;
     rate_limit_ip_overhead := rate_limit_ip_overhead s |}.

Definition SetRate_limit_ip_overhead (v : bool) (s : session_settings)
  : session_settings :=
  {| user_agent := user_agent s;
     request_timeout := request_timeout s;
     peer_connect_timeout := peer_connect_timeout s;
     announce_to_all_trackers := announce_to_all_trackers s;
     announce_to_all_tiers := announce_to_all_tiers s;
     connection_speed := connection_speed s;
     download_rate_limit := download_rate_limit s;
     upload_rate_limit := upload_rate_limit s;
     torrent_connect_boost := torrent_connect_boost s;
     rate_limit_ip_overhead := v |}.

(** The one encryption level the program names. *)
Inductive enc_level : Type :=
| Pe_settingsBoth.

(** [pe_settings]; the policies are the engine's enumeration, to which the
    program converts the [int] of the [-encryption] flag as it is. *)
Record pe_settings : Type := {
  out_enc_policy : Z;
  in_enc_policy : Z;
  allowed_enc_level : option enc_level;
  prefer_rc4 : bool
}.

Definition SetOut_enc_policy (v : Z) (pe : pe_settings) : pe_settings :=
  {| out_enc_policy := v;
     in_enc_policy := in_enc_policy pe;
     allowed_enc_level := allowed_enc_level pe;
     prefer_rc4 := prefer_rc4 pe |}.

Definition SetIn_enc_policy (v : Z) (pe : pe_settings) : pe_settings :=
  {| out_enc_policy := out_enc_policy pe;
     in_enc_policy := v;
     allowed_enc_level := allowed_enc_level pe;
     prefer_rc4 := prefer_rc4 pe |}.

Definition SetAllowed_enc_level (v : enc_level) (pe : pe_settings)
  : pe_settings :=
  {| out_enc_policy := out_enc_policy pe;
     in_enc_policy := in_enc_policy pe;
     allowed_enc_level := Some v;
     prefer_rc4 := prefer_rc4 pe |}.

Definition SetPrefer_rc4 (v : bool) (pe : pe_settings) : pe_settings :=
  {| out_enc_policy := out_enc_policy pe;
     in_enc_policy := in_enc_policy pe;
     allowed_enc_level := allowed_enc_level pe;
     prefer_rc4 := v |}.

(** The [settings] object when [configureSession] hands it to
    [Set_settings]; [settings] is what [instance.session.Settings()]
    answered. *)
Definition configureSession_settings (cfg : Config)
  (settings : session_settings) : session_settings :=
  let settings := SetUser_agent "" settings in
  let settings := SetRequest_timeout 5 settings in
  let settings := SetPeer_connect_timeout 2 settings in
  let settings := SetAnnounce_to_all_trackers true settings in
  let settings := SetAnnounce_to_all_tiers true settings in
  let settings := SetConnection_speed 100 settings in
  let settings :=
    if maxDownloadRate cfg >? 0
    then SetDownload_rate_limit (wrap64 (maxDownloadRate cfg * 1024)) settings
    else settings in
  let settings :=
    if maxUploadRate cfg >? 0
    then SetUpload_rate_limit (wrap64 (maxUploadRate cfg * 1024)) settings
    else settings in
  let settings := SetTorrent_connect_boost 100 settings in
  let settings := SetRate_limit_ip_overhead true settings in
  settings.

(** The [encryptionSettings] object when it is handed to
    [Set_pe_settings]; [encryptionSettings] is what
    [libtorrent.NewPe_settings()] answered. *)
Definition configureSession_encryptionSettings (cfg : Config)
  (encryptionSettings : pe_settings) : pe_settings :=
  let encryptionSettings :=
    SetOut_enc_policy (encryption cfg) encryptionSettings in
  let encryptionSettings :=
    SetIn_enc_policy (encryption cfg) encryptionSettings in
  let encryptionSettings :=
    SetAllowed_enc_level Pe_settingsBoth encryptionSettings in
  let encryptionSettings := SetPrefer_rc4 true encryptionSettings in
  encryptionSettings.

(** ** What [main] hands to the engine *)

(** The one storage mode the program names. *)
Inductive storage_mode_t : Type :=
| Storage_mode_allocate.

(** [add_torrent_params], by the fields [main] writes; [ti] is the
    torrent file the info was loaded from, [storage_mode] the mode when
    the program set one. *)
Record add_torrent_params : Type := {
  ti : option string;
  url : string;
  save_path : string;
  storage_mode : option storage_mode_t
}.

Definition SetTi (torrentInfo : string) (p : add_torrent_params)
  : add_torrent_params :=
  {| ti := Some torrentInfo; url := url p; save_path := save_path p;
     storage_mode := storage_mode p |}.

Definition SetUrl (v : string) (p : add_torrent_params)
  : add_torrent_params :=
  {| ti := ti p; url := v; save_path := save_path p;
     storage_mode := storage_mode p |}.

Definition SetSave_path (v : string) (p : add_torrent_params)
  : add_torrent_params :=
  {| ti := ti p; url := url p; save_path := v;
     storage_mode := storage_mode p |}.

Definition SetStorage_mode (v : storage_mode_t) (p : add_torrent_params)
  : add_torrent_params :=
  {| ti := ti p; url := url p; save_path := save_path p;
     storage_mode := Some v |}.

(** ** The handler given to the HTTP server *)

(** The handlers [startHTTP] builds: a function of this file, the file
    server over [instance.torrentFS], a prefix stripped, the multiplexer
    with its patterns in registration order, and the counting wrapper of
    [NewConnectionCounterHandler] around a handler, with the capacity of
    the channel it sends on. *)
#[warnings="-register-all"]
Inductive http_handler : Type :=
| HandlerFunc (f : Program.func)
| FileServer_torrentFS
| StripPrefix (prefix : string) (h : http_handler)
| NewServeMux (routes : list (string * http_handler))
| NewConnectionCounterHandler (connTrackChannel_cap : nat)
    (handler : http_handler).

(** ** Events

    The effects of the teardown's kind (the logger, the clock, the exit),
    and the calls that only the start-up and the tasks make. *)

Inductive event : Type :=
| Eff (e : effect)
| GOMAXPROCS_NumCPU
| Usage
| NewAdd_torrent_params
| NewTorrent_info (path : string)
| NewSession
| Listen_on (lower upper : Z)
| Settings
| Set_settings (settings : session_settings)
| NewPe_settings
| Set_pe_settings (encryptionSettings : pe_settings)
| Start_dht
| Start_lsd
| Start_upnp
| Start_natpmp
| Add_torrent (torrentParams : add_torrent_params)
| Set_sequential_download (v : bool)
| Torrent_Name
| NewTorrentFS
| Go (f : Program.func)
| Getppid
| ListenAndServe (addr : string) (handler : http_handler).

(** A task that loops either returns or is still in its loop when the fuel
    is spent. *)
Inductive task : Type :=
| Returned (tr : list event)
| Looping (tr : list event).

Definition events_of (t : task) : list event :=
  match t with
  | Returned tr => tr
  | Looping tr => tr
  end.

Definition after (pre : list event) (t : task) : task :=
  match t with
  | Returned tr => Returned (pre ++ tr)
  | Looping tr => Looping (pre ++ tr)
  end.

(** [func configureSession()]; [settings] and [encryptionSettings] are
    what [Settings()] and [NewPe_settings()] answer. *)
Definition configureSession (cfg : Config) (settings : session_settings)
  (encryptionSettings : pe_settings) : list event :=
  [ Settings;
    Eff (Println "Setting Session settings...");
    Set_settings (configureSession_settings cfg settings);
    Eff (Println "Setting Encryption settings...");
    NewPe_settings;
    Set_pe_settings
      (configureSession_encryptionSettings cfg encryptionSettings) ].

(** [func startServices()] *)
Definition startServices : list event :=
  [ Eff (Println "Starting DHT..."); Start_dht;
    Eff (Println "Starting LSD..."); Start_lsd;
    Eff (Println "Starting UPNP..."); Start_upnp;
    Eff (Println "Starting NATPMP..."); Start_natpmp ].

(** ** [parseFlags] *)

(** A command line that [flag.Parse] accepts, by the flags it sets, in the
    order of the arguments; each constructor is one flag of [parseFlags]
    with the value parsed for it. *)
Inductive flag_setting : Type :=
| flag_uri (v : string)
| flag_bind (v : string)
| flag_dlrate (v : Z)
| flag_ulrate (v : Z)
| flag_dlpath (v : string)
| flag_keep (v : bool)
| flag_no_sparse (v : bool)
| flag_encryption (v : Z)
| flag_max_idle (v : Z)
| flag_port_lower (v : Z)
| flag_port_upper (v : Z)
| flag_buffer (v : spec_float).

(** The variable each flag is bound to by [flag.StringVar], [flag.IntVar],
    [flag.BoolVar] and [flag.Float64Var]. *)
Definition flag_Set (config : Config) (s : flag_setting) : Config :=
  {| uri := match s with flag_uri v => v | _ => uri config end;
     bindAddress :=
       match s with flag_bind v => v | _ => bindAddress config end;
     maxUploadRate :=
       match s with flag_ulrate v => v | _ => maxUploadRate config end;
     maxDownloadRate :=
       match s with flag_dlrate v => v | _ => maxDownloadRate config end;
     downloadPath :=
       match s with flag_dlpath v => v | _ => downloadPath config end;
     keepFiles := match s with flag_keep v => v | _ => keepFiles config end;
     encryption :=
       match s with flag_encryption v => v | _ => encryption config end;
     noSparseFile :=
       match s with flag_no_sparse v => v | _ => noSparseFile config end;
     idleTimeout :=
       match s with flag_max_idle v => v | _ => idleTimeout config end;
     portLower :=
       match s with flag_port_lower v => v | _ => portLower config end;
     portUpper :=
       match s with flag_port_upper v => v | _ => portUpper config end;
     buffer := match s with flag_buffer v => v | _ => buffer config end |}.

(** The defaults the twelve flags are declared with. *)
Definition parseFlags_defaults : Config :=
  {| uri := "";
     bindAddress := ":5001";
     maxUploadRate := 0;
     maxDownloadRate := 0;
     downloadPath := ".";
     keepFiles := false;
     encryption := 1;
     noSparseFile := false;
     idleTimeout := -1;
     portLower := 6900;
     portUpper := 6999;
     buffer := buffer_0_01 |}.

(** [config] after [flag.Parse()]. *)
Definition flag_Parse (args : list flag_setting) : Config :=
  fold_left flag_Set args parseFlags_defaults.

(** [func parseFlags()]: its events, and [instance.config] when it
    returns; [None] is the exit. *)
Definition parseFlags (args : list flag_setting)
  : list event * option Config :=
  let config := flag_Parse args in
  if String.eqb (uri config) "" then ([ Usage; Eff (Exit 1) ], None)
  else ([], Some config).

(** ** [startHTTP] *)

(** The multiplexer [startHTTP] fills. *)
Definition startHTTP_mux : http_handler :=
  NewServeMux
    [ ("/status", HandlerFunc Program.statusHandler);
      ("/ls", HandlerFunc Program.lsHandler);
      ("/files/", StripPrefix "/files/" FileServer_torrentFS);
      ("/shutdown", HandlerFunc Program.startHTTP_func1) ].

(** [connTrackChannel := make(chan int, 10)] *)
Definition connTrackChannel_cap : nat := 10.

(** [func startHTTP()], up to the call of [http.ListenAndServe]. *)
Definition startHTTP (cfg : Config) : list event :=
  Eff (Println "Starting HTTP Server...")
  :: (if idleTimeout cfg >? 0
      then [ Go Program.inactiveAutoShutdown ]
      else [])
  ++ [ Eff (Println
              (String.append "Listening HTTP on "
                 (String.append (bindAddress cfg) "...")));
       ListenAndServe (bindAddress cfg)
         (if idleTimeout cfg >? 0
          then NewConnectionCounterHandler connTrackChannel_cap startHTTP_mux
          else startHTTP_mux) ].

(** ** [main] *)

(** A parsed URL, by the two fields [main] reads. *)
Record URL : Type := {
  Scheme : string;
  Path : string
}.

(** What the engine answers to the calls of the start-up. *)
Record Answers : Type := {
  answer_NewAdd_torrent_params : add_torrent_params;
  answer_Settings : session_settings;
  answer_NewPe_settings : pe_settings;
  answer_Name : string
}.

Section Main.

(** [url.Parse] is the Go library's: a URL, or the error's text. *)
Variable url_Parse : string -> URL + string.

(** The [torrentParams] object when it is handed to [Add_torrent]. *)
Definition main_torrentParams (config : Config) (fileUri : URL)
  (torrentParams : add_torrent_params) : add_torrent_params :=
  let torrentParams :=
    if String.eqb (Scheme fileUri) "file"
    then SetTi (Path fileUri) torrentParams
    else SetUrl (uri config) torrentParams in
  let torrentParams := SetSave_path (downloadPath config) torrentParams in
  let torrentParams :=
    if noSparseFile config
    then SetStorage_mode Storage_mode_allocate torrentParams
    else torrentParams in
  torrentParams.

(** [func main()], up to the call of [http.ListenAndServe] or to the exit
    that comes before it. *)
Definition main (args : list flag_setting) (eng : Answers) : list event :=
  GOMAXPROCS_NumCPU
  :: match parseFlags args with
     | (tr, None) => tr
     | (tr, Some config) =>
         tr ++ NewAdd_torrent_params
         :: match url_Parse (uri config) with
            | inr err => [ Eff (Println err); Eff (Exit 1) ]
            | inl fileUri =>
                (if String.eqb (Scheme fileUri) "file"
                 then [ Eff (Println (String.append "Opening local file "
                                        (Path fileUri)));
                        NewTorrent_info (Path fileUri) ]
                 else [ Eff (Println "Fetching link") ])
                ++ [ Eff (Println "Setting save path") ]
                ++ (if noSparseFile config
                    then [ Eff (Println "Disabling sparse file support...") ]
                    else [])
                ++ [ Eff (Println "Starting BT engine...");
                     NewSession;
                     Listen_on (portLower config) (portUpper config) ]
                ++ configureSession config (answer_Settings eng)
                     (answer_NewPe_settings eng)
                ++ startServices
                ++ [ Eff (Println "Adding torrent");
                     Add_torrent
                       (main_torrentParams config fileUri
                          (answer_NewAdd_torrent_params eng));
                     Eff (Println "Enabling sequential download");
                     Set_sequential_download true;
                     Torrent_Name;
                     Eff (Println (String.append "Downloading: "
                                     (answer_Name eng)));
                     NewTorrentFS;
                     Go Program.handleSignals;
                     Go Program.watchParent ]
                ++ startHTTP config
            end
     end.

End Main.

(** ** [watchParent] *)

(** [func watchParent()]; [ppids k] is what the [k]-th call of
    [os.Getppid()] answers. *)
Fixpoint watchParent (fuel : nat) (ppids : nat -> Z) (k : nat) : task :=
  match fuel with
  | O => Looping []
  | S fuel' =>
      if ppids k =? 1
      then Returned [ Getppid; Go Program.shutdown ]
      else after [ Getppid; Eff (Sleep (2 * time_Second)) ]
                 (watchParent fuel' ppids (S k))
  end.

(** ** [handleSignals] *)

(** The two signals [signal.Notify] is asked to relay. *)
Inductive signal : Type :=
| os_Interrupt
| syscall_SIGTERM.

(** Where [handleSignals] stands: before [signal.Notify], at
    [<-signalChan], or returned. *)
Inductive handleSignals_point : Type :=
| before_Notify
| at_signalChan
| handleSignals_returned.

(** [signalChan], where the task stands, the [go shutdown()] it ran, and
    whether a signal ended the process by its default action. *)
Record signals : Type := {
  signalChan : chan signal;
  handleSignals_at : handleSignals_point;
  signal_shutdowns : nat;
  killed : bool
}.

(** [signalChan := make(chan os.Signal, 1)] *)
Definition handleSignals_start : signals :=
  {| signalChan := make_chan 1; handleSignals_at := before_Notify;
     signal_shutdowns := 0; killed := false |}.

(** The relay of package [signal] does not block: a signal that finds the
    channel full is dropped. *)
Definition relay (c : chan signal) (sig : signal) : chan signal :=
  match buffered_send c sig with
  | Some c' => c'
  | None => c
  end.

(** The steps of the task and of the signals that arrive.  Before
    [signal.Notify] an interrupt or a termination signal ends the
    process; from then on it is relayed to [signalChan]. *)
Inductive signals_step : signals -> signals -> Prop :=
| step_Notify s :
    killed s = false ->
    handleSignals_at s = before_Notify ->
    signals_step s
      {| signalChan := signalChan s; handleSignals_at := at_signalChan;
         signal_shutdowns := signal_shutdowns s; killed := false |}
| step_default_action s (sig : signal) :
    killed s = false ->
    handleSignals_at s = before_Notify ->
    signals_step s
      {| signalChan := signalChan s; handleSignals_at := before_Notify;
         signal_shutdowns := signal_shutdowns s; killed := true |}
| step_relay s (sig : signal) :
    killed s = false ->
    handleSignals_at s <> before_Notify ->
    signals_step s
      {| signalChan := relay (signalChan s) sig;
         handleSignals_at := handleSignals_at s;
         signal_shutdowns := signal_shutdowns s; killed := false |}
| step_go_shutdown s sig c :
    killed s = false ->
    handleSignals_at s = at_signalChan ->
    buffered_recv (signalChan s) = Some (sig, c) ->
    signals_step s
      {| signalChan := c; handleSignals_at := handleSignals_returned;
         signal_shutdowns := S (signal_shutdowns s); killed := false |}.

Inductive signals_steps : signals -> signals -> Prop :=
| signals_steps_refl s : signals_steps s s
| signals_steps_step s1 s2 s3 :
    signals_steps s1 s2 -> signals_step s2 s3 -> signals_steps s1 s3.

(** ** The counted server: [NewConnectionCounterHandler] with
    [inactiveAutoShutdown] *)

(** The server that [startHTTP] sets up when the idle timeout is
    positive: [connTrackChannel]; the counter [activeConnections] of the
    monitor; the requests that are past [connTrackChannel <- 1] and not yet
    past [connTrackChannel <- -1]; the requests whose
    [handler.ServeHTTP] panicked, which the HTTP server recovers for the
    one request; the requests that have arrived so far; and the
    [go shutdown()] the monitor ran. *)
Record server : Type := {
  connTrackChannel : chan Z;
  counter : Z;
  in_progress : nat;
  panicked : nat;
  arrived : nat;
  idle_shutdowns_started : nat
}.

(** [make(chan int, 10)] and [activeConnections := 0]. *)
Definition server_start : server :=
  {| connTrackChannel := make_chan connTrackChannel_cap; counter := 0;
     in_progress := 0; panicked := 0; arrived := 0;
     idle_shutdowns_started := 0 |}.

(** One step of a request in the closure of
    [NewConnectionCounterHandler] or of the monitor's [for].  A send
    completes when the channel has room.  The monitor runs the body of its
    loop on the oldest value of the channel or, the timer being of a
    positive duration and started when the [select] is entered, on the
    timer when the channel is empty. *)
Inductive server_step : server -> server -> Prop :=
| request_counted s c :
    buffered_send (connTrackChannel s) 1 = Some c ->
    server_step s
      {| connTrackChannel := c; counter := counter s;
         in_progress := S (in_progress s); panicked := panicked s;
         arrived := S (arrived s);
         idle_shutdowns_started := idle_shutdowns_started s |}
| request_uncounted s n c :
    in_progress s = S n ->
    buffered_send (connTrackChannel s) (-1) = Some c ->
    server_step s
      {| connTrackChannel := c; counter := counter s;
         in_progress := n; panicked := panicked s;
         arrived := arrived s;
         idle_shutdowns_started := idle_shutdowns_started s |}
| request_panics s n :
    in_progress s = S n ->
    server_step s
      {| connTrackChannel := connTrackChannel s; counter := counter s;
         in_progress := n; panicked := S (panicked s);
         arrived := arrived s;
         idle_shutdowns_started := idle_shutdowns_started s |}
| monitor_receives s inc c activeConnections' started :
    buffered_recv (connTrackChannel s) = Some (inc, c) ->
    inactiveAutoShutdown_body (counter s) (received inc)
    = Some (activeConnections', started) ->
    server_step s
      {| connTrackChannel := c; counter := activeConnections';
         in_progress := in_progress s; panicked := panicked s;
         arrived := arrived s;
         idle_shutdowns_started :=
           (if started then S (idle_shutdowns_started s)
            else idle_shutdowns_started s) |}
| monitor_timer s activeConnections' started :
    queue (connTrackChannel s) = [] ->
    inactiveAutoShutdown_body (counter s) timer_fired
    = Some (activeConnections', started) ->
    server_step s
      {| connTrackChannel := connTrackChannel s;
         counter := activeConnections';
         in_progress := in_progress s; panicked := panicked s;
         arrived := arrived s;
         idle_shutdowns_started :=
           (if started then S (idle_shutdowns_started s)
            else idle_shutdowns_started s) |}.

Inductive server_steps : server -> server -> Prop :=
| server_steps_refl s : server_steps s s
| server_steps_step s1 s2 s3 :
    server_steps s1 s2 -> server_step s2 s3 -> server_steps s1 s3.

(** ** Vocabulary of the start-up properties *)

(** The sum of the values waiting on a channel of integers. *)
Definition pending_sum (q : list Z) : Z := fold_right Z.add 0 q.

(** Counting the values of [q] in order from [c] never goes below
    zero nor above [n]. *)
Fixpoint counts_within (c : Z) (q : list Z) (n : Z) : Prop :=
  0 <= c <= n
  /\ match q with
     | [] => True
     | v :: q' => counts_within (c + v) q' n
     end.

(** What holds of the counted server at every moment: counted in the
    order they were sent, the values of the channel keep the counter
    between zero and the number of requests that have arrived; and the
    counter and the values still in the channel add up to the requests
    that have sent their increment and not their decrement. *)
Definition server_inv (s : server) : Prop :=
  cap (connTrackChannel s) = connTrackChannel_cap
  /\ (List.length (queue (connTrackChannel s)) <= connTrackChannel_cap)%nat
  /\ counts_within (counter s) (queue (connTrackChannel s))
       (Z.of_nat (arrived s))
  /\ counter s + pending_sum (queue (connTrackChannel s))
     = Z.of_nat (in_progress s + panicked s).

(** The tasks a trace starts, in order. *)
Definition started_by (tr : list event) : list Program.func :=
  flat_map (fun e => match e with Go f => [ f ] | _ => [] end) tr.

(** The events of [l] occur in [tr], in the order of [l]. *)
Inductive in_order : list event -> list event -> Prop :=
| in_order_nil tr : in_order [] tr
| in_order_here e l tr : in_order l tr -> in_order (e :: l) (e :: tr)
| in_order_later l e tr : in_order l tr -> in_order l (e :: tr).


(** The [k] polls of [watchParent] that found the parent alive. *)
Fixpoint parent_polls (k : nat) : list event :=
  match k with
  | O => []
  | S k' => Getppid :: Eff (Sleep (2 * time_Second)) :: parent_polls k'
  end.

(** ** Example inputs of the start-up *)

Definition example_answers : Answers :=
  {| answer_NewAdd_torrent_params :=
       {| ti := None; url := ""; save_path := "./"; storage_mode := None |};
     answer_Settings :=
       {| user_agent := "libtorrent"; request_timeout := 50;
          peer_connect_timeout := 15; announce_to_all_trackers := false;
          announce_to_all_tiers := false; connection_speed := 6;
          download_rate_limit := 0; upload_rate_limit := 0;
          torrent_connect_boost := 10; rate_limit_ip_overhead := true |};
     answer_NewPe_settings :=
       {| out_enc_policy := 1; in_enc_policy := 1;
          allowed_enc_level := None; prefer_rc4 := false |};
     answer_Name := "example" |}.

(** A stand-in for [url.Parse] on the addresses of the examples: what
    starts with [file://] is a local file, the rest of it the path; a lone
    percent sign does not parse; anything else has the scheme [magnet]. *)
Definition example_url_Parse (s : string) : URL + string :=
  if String.prefix "file://" s
  then inl {| Scheme := "file";
              Path := String.substring 7 (String.length s - 7) s |}
  else if String.eqb s "%" then inr "invalid URL escape"
  else inl {| Scheme := "magnet"; Path := "" |}.

(** [handleSignals] after three signals that came once it had registered:
    it has received the first and returned, the second waits in the
    channel, the third found the channel full. *)
Definition example_signals : signals :=
  {| signalChan := {| cap := 1; queue := [ syscall_SIGTERM ] |};
     handleSignals_at := handleSignals_returned;
     signal_shutdowns := 1; killed := false |}.

(** The counted server after two requests have come in and the monitor
    has counted the first: one increment still waits in the channel. *)
Definition example_server_busy : server :=
  {| connTrackChannel := {| cap := 10; queue := [ 1 ] |}; counter := 1;
     in_progress := 2; panicked := 0; arrived := 2;
     idle_shutdowns_started := 0 |}.

(** The counted server after a single request whose handler panicked,
    once the monitor has counted it. *)
Definition example_server_panicked : server :=
  {| connTrackChannel := {| cap := 10; queue := [] |}; counter := 1;
     in_progress := 0; panicked := 1; arrived := 1;
     idle_shutdowns_started := 0 |}.

(** The same server after a second request has come and gone. *)
Definition example_server_later : server :=
  {| connTrackChannel := {| cap := 10; queue := [] |}; counter := 1;
     in_progress := 0; panicked := 1; arrived := 2;
     idle_shutdowns_started := 0 |}.

(** The counted server after its first idle window. *)
Definition example_server_idle : server :=
  {| connTrackChannel := {| cap := 10; queue := [] |}; counter := 0;
     in_progress := 0; panicked := 0; arrived := 0;
     idle_shutdowns_started := 1 |}.

(** [torrent2http -uri file:///example.torrent -max-idle 30] *)
Definition example_args : list flag_setting :=
  [ flag_uri "file:///example.torrent"; flag_max_idle 30 ].

(** ** Vocabulary of the listing's answer *)

(** The JSON object of one entry of the listing. *)
Definition FileStatusInfo_json (fi : FileStatusInfo.t) : json :=
  JObject
    [ ("name", JString (FileStatusInfo.Name fi));
      ("size", JInt (FileStatusInfo.Size fi));
      ("offset", JInt (FileStatusInfo.Offset fi));
      ("total_pieces", JInt (FileStatusInfo.TotalPieces fi));
      ("buffer", JFloat (FileStatusInfo.Buffer fi)) ].

(** ** Vocabulary of magnitudes *)

(** A float that is a zero, or finite and of absolute value below
    [2 ^ k]. *)
Definition magnitude_below (x : spec_float) (k : Z) : Prop :=
  match x with
  | S754_zero _ => True
  | S754_finite _ m e => Zdigits2 (Z.pos m) + e <= k
  | _ => False
  end.

(** The counted server after one request has come and gone and the
    monitor has counted both of its values. *)
Definition example_server_drained : server :=
  {| connTrackChannel := {| cap := 10; queue := [] |}; counter := 0;
     in_progress := 0; panicked := 0; arrived := 1;
     idle_shutdowns_started := 0 |}.
(** * Properties *)

(** ** Teardown *)

Lemma trace_of_and_then pre r : trace_of (and_then pre r) = pre ++ trace_of r.
Proof. destruct r; reflexivity. Qed.

(** A prefix without [e] lies wholly before the first [e]. *)
Lemma prefix_before_first (e : effect) (p r l1 l2 : list effect) :
  ~ In e p -> p ++ r = l1 ++ e :: l2 -> exists l1', l1 = p ++ l1'.
Proof.
  revert l1; induction p as [|a p IH]; intros l1 Hp Heq.
  - exists l1; reflexivity.
  - destruct l1 as [|b l1]; simpl in Heq.
    + injection Heq as Ha _. exfalso; apply Hp; left; exact Ha.
    + injection Heq as Ha Heq. subst b.
      destruct (IH l1) as [l1' ->]; [intro H; apply Hp; right; exact H | exact Heq |].
      exists l1'; reflexivity.
Qed.

Lemma shutdown_trace_prefix path_Join fuel cfg eng :
  exists rest,
    trace_of (shutdown path_Join fuel cfg eng)
    = (Println "Stopping torrent2http..." :: stopServices
       ++ [ Println "Removing torrent..." ]) ++ rest.
Proof.
  unfold shutdown; rewrite trace_of_and_then; eexists; reflexivity.
Qed.

Lemma wait_loop_exits eng k :
  forall n,
    (forall j, (j < k)%nat ->
               exists what, alerts eng (n + j) = Some what
                            /\ what <> "cache_flushed_alert") ->
    alerts eng (n + k)%nat = None
    \/ alerts eng (n + k)%nat = Some "cache_flushed_alert" ->
    exists last,
      wait_loop (S k) eng n = Done (polls k ++ last)
      /\ (last = [ Wait_for_alert 30 ]
          \/ last = [ Wait_for_alert 30; Pop_alert2 ]).
Proof.
  induction k as [|k IH]; intros n Hbefore Hexit.
  - rewrite Nat.add_0_r in Hexit. simpl.
    destruct Hexit as [-> | ->].
    + eexists; split; [reflexivity | left; reflexivity].
    + eexists; split; [reflexivity | right; reflexivity].
  - destruct (Hbefore 0%nat) as [what [Hw Hne]]; [lia |].
    rewrite Nat.add_0_r in Hw.
    destruct (IH (S n)) as [last [Hrun Hlast]].
    + intros j Hj. destruct (Hbefore (S j)) as [w [H1 H2]]; [lia |].
      exists w; split; [| exact H2].
      replace (S n + j)%nat with (n + S j)%nat by lia; exact H1.
    + replace (S n + k)%nat with (n + S k)%nat by lia; exact Hexit.
    + exists last; split; [| exact Hlast].
      change (wait_loop (S (S k)) eng n)
        with (match alerts eng n with
              | None => Done [ Wait_for_alert 30 ]
              | Some what =>
                  if String.eqb what "cache_flushed_alert"
                  then Done [ Wait_for_alert 30; Pop_alert2 ]
                  else and_then [ Wait_for_alert 30; Pop_alert2 ]
                                (wait_loop (S k) eng (S n))
              end).
      rewrite Hw.
      destruct (String.eqb_spec what "cache_flushed_alert") as [E | _];
        [contradiction |].
      rewrite Hrun; reflexivity.
Qed.

Lemma wait_loop_no_RemoveAll fuel eng :
  forall k, forallb (fun e => negb (is_RemoveAll e))
                    (trace_of (wait_loop fuel eng k)) = true.
Proof.
  induction fuel as [|fuel IH]; intros k; simpl; [reflexivity |].
  destruct (alerts eng k) as [what |]; [| reflexivity].
  destruct (String.eqb what "cache_flushed_alert"); [reflexivity |].
  rewrite trace_of_and_then; simpl; apply IH.
Qed.

Lemma removeFiles_loop_spec path_Join eng todo :
  forall i j,
    0 <= j < Z.of_nat todo ->
    In (RemoveAll
          (path_Join (Torrent_handle.Save_path (torrentHandle eng))
             (File_at_GetPath
                (Torrent_handle.Get_torrent_info (torrentHandle eng))
                (i + j))))
       (removeFiles_loop path_Join eng todo i).
Proof.
  induction todo as [|todo IH]; intros i j Hj; [lia |].
  simpl. destruct (Z.eq_dec j 0) as [-> | Hnz].
  - left; rewrite Z.add_0_r; reflexivity.
  - right. replace (i + j) with ((i + 1) + (j - 1)) by lia.
    apply IH; lia.
Qed.

Lemma shutdown_services_stopped path_Join fuel cfg eng :
  services_stopped_before_removal
    (trace_of (shutdown path_Join fuel cfg eng)).
Proof.
  destruct (shutdown_trace_prefix path_Join fuel cfg eng) as [rest ->].
  split.
  - repeat split; apply in_or_app; left; simpl; tauto.
  - intros l1 options l2 Heq.
    assert (Hnot : ~ In (Remove_torrent options)
                        (Println "Stopping torrent2http..." :: stopServices
                         ++ [ Println "Removing torrent..." ]))
      by (simpl; intuition discriminate).
    destruct (prefix_before_first _ _ _ _ _ Hnot Heq) as [l1' ->].
    repeat split; apply in_or_app; left; simpl; tauto.
Qed.

(** C5.  Every run of [shutdown] stops DHT, LSD, UPNP and NATPMP, and does
    so before any [Remove_torrent]; and when keep-files is off and the wait
    loop ends at its poll number [k], be it on a poll that found no alert or
    on a [cache_flushed_alert], the run goes on with [removeFiles], which
    asks for the status and, with metadata, calls [os.RemoveAll] on every
    file of the torrent, and then exits with status 0. *)
Theorem shutdown_stops_services_and_falls_back path_Join cfg eng :
  (forall fuel,
      services_stopped_before_removal
        (trace_of (shutdown path_Join fuel cfg eng)))
  /\ (keepFiles cfg = false ->
      forall k,
        (forall j, (j < k)%nat ->
                   exists what, alerts eng j = Some what
                                /\ what <> "cache_flushed_alert") ->
        alerts eng k = None \/ alerts eng k = Some "cache_flushed_alert" ->
        (exists last,
            (last = [ Wait_for_alert 30 ]
             \/ last = [ Wait_for_alert 30; Pop_alert2 ])
            /\ shutdown path_Join (S k) cfg eng
               = Done ((Println "Stopping torrent2http..." :: stopServices
                        ++ [ Println "Removing torrent..." ])
                       ++ [ Set_alert_mask AlertStorage_notification;
                            Remove_torrent 1;
                            Println "Waiting for files to be removed..." ]
                       ++ (polls k ++ last)
                       ++ removeFiles path_Join eng
                       ++ [ Println "Bye bye"; Exit 0 ]))
        /\ In Torrent_Status (removeFiles path_Join eng)
        /\ (GetHas_metadata (Torrent_handle.Status (torrentHandle eng)) = true ->
            forall i,
              0 <= i < Num_files (Torrent_handle.Get_torrent_info
                                    (torrentHandle eng)) ->
              In (RemoveAll
                    (path_Join (Torrent_handle.Save_path (torrentHandle eng))
                       (File_at_GetPath
                          (Torrent_handle.Get_torrent_info (torrentHandle eng))
                          i)))
                 (removeFiles path_Join eng))).
Proof.
  split; [intros fuel; apply shutdown_services_stopped |].
  intros Hkeep k Hbefore Hexit.
  split; [| split].
  - destruct (wait_loop_exits eng k 0%nat) as [last [Hrun Hlast]];
      [exact Hbefore | exact Hexit |].
    exists last; split; [exact Hlast |].
    unfold shutdown. rewrite Hkeep, Hrun. reflexivity.
  - unfold removeFiles.
    destruct (Bool.eqb _ false); simpl; tauto.
  - intros Hmeta i Hi. unfold removeFiles. rewrite Hmeta. simpl.
    right; right.
    apply (removeFiles_loop_spec path_Join eng _ 0 i). lia.
Qed.

Lemma shutdown_stops_services_and_falls_back_witness :
  exists last,
    (last = [ Wait_for_alert 30 ] \/ last = [ Wait_for_alert 30; Pop_alert2 ])
    /\ shutdown join_slash 2 (example_config false (-1) (S754_zero false))
         (example_engine true)
       = Done ((Println "Stopping torrent2http..." :: stopServices
                ++ [ Println "Removing torrent..." ])
               ++ [ Set_alert_mask AlertStorage_notification;
                    Remove_torrent 1;
                    Println "Waiting for files to be removed..." ]
               ++ (polls 1 ++ last)
               ++ removeFiles join_slash (example_engine true)
               ++ [ Println "Bye bye"; Exit 0 ]).
Proof.
  refine (proj1 (proj2 (shutdown_stops_services_and_falls_back join_slash
                          (example_config false (-1) (S754_zero false))
                          (example_engine true))
                   eq_refl 1%nat _ _)).
  - intros j Hj. exists "torrent_deleted_alert".
    destruct j as [|j]; [split; [reflexivity | discriminate] | lia].
  - right; reflexivity.
Defined.

(** C6.  With keep-files on, a run of [shutdown] is the opening log line,
    the four services stopped, two more log lines and [os.Exit(0)]: nothing
    is removed, nothing is waited for and no file is deleted. *)
Theorem shutdown_keepFiles path_Join fuel cfg eng :
  keepFiles cfg = true ->
  shutdown path_Join fuel cfg eng
  = Done (Println "Stopping torrent2http..." :: stopServices
          ++ [ Println "Removing torrent..."; Println "Bye bye"; Exit 0 ])
  /\ forallb (fun e => negb (is_removal e))
             (trace_of (shutdown path_Join fuel cfg eng)) = true.
Proof.
  intros Hkeep. unfold shutdown. rewrite Hkeep. split; reflexivity.
Qed.

Lemma shutdown_keepFiles_witness :
  shutdown join_slash 0 (example_config true (-1) (S754_zero false))
    (example_engine true)
  = Done (Println "Stopping torrent2http..." :: stopServices
          ++ [ Println "Removing torrent..."; Println "Bye bye"; Exit 0 ])
  /\ forallb (fun e => negb (is_removal e))
             (trace_of (shutdown join_slash 0
                          (example_config true (-1) (S754_zero false))
                          (example_engine true))) = true.
Proof.
  apply (shutdown_keepFiles join_slash 0
           (example_config true (-1) (S754_zero false)) (example_engine true)).
  reflexivity.
Defined.

(** C10.  When the handle's status reports no metadata, [removeFiles] asks
    for the status and returns: it deletes nothing, and so no run of
    [shutdown] on such an engine deletes a path. *)
Theorem removeFiles_without_metadata path_Join eng :
  GetHas_metadata (Torrent_handle.Status (torrentHandle eng)) = false ->
  removeFiles path_Join eng = [ Torrent_Status ]
  /\ forall fuel cfg,
       forallb (fun e => negb (is_RemoveAll e))
               (trace_of (shutdown path_Join fuel cfg eng)) = true.
Proof.
  intros Hmeta.
  assert (Hrm : removeFiles path_Join eng = [ Torrent_Status ])
    by (unfold removeFiles; rewrite Hmeta; reflexivity).
  split; [exact Hrm |].
  intros fuel cfg. unfold shutdown. rewrite Hrm.
  rewrite trace_of_and_then, forallb_app. simpl.
  destruct (Bool.eqb (keepFiles cfg) false); [| reflexivity].
  rewrite trace_of_and_then. simpl.
  pose proof (wait_loop_no_RemoveAll fuel eng 0%nat) as Hw.
  destruct (wait_loop fuel eng 0) as [tr | tr]; simpl in *.
  - rewrite forallb_app, Hw. reflexivity.
  - exact Hw.
Qed.

Lemma removeFiles_without_metadata_witness :
  removeFiles join_slash (example_engine false) = [ Torrent_Status ]
  /\ forallb (fun e => negb (is_RemoveAll e))
             (trace_of (shutdown join_slash 2
                          (example_config false (-1) (S754_zero false))
                          (example_engine false))) = true.
Proof.
  destruct (removeFiles_without_metadata join_slash (example_engine false)
              eq_refl) as [H1 H2].
  split; [exact H1 | apply H2].
Defined.

(** ** [statusHandler] *)

Lemma Marshal_SessionStatus_finite (status : SessionStatus.t) :
  is_finite (SessionStatus.Progress status) = true ->
  is_finite (SessionStatus.DownloadRate status) = true ->
  is_finite (SessionStatus.UploadRate status) = true ->
  SessionStatus.Marshal status
  = Some (JObject
            [ ("name", JString (SessionStatus.Name status));
              ("state", JInt (SessionStatus.State status));
              ("progress", JFloat (SessionStatus.Progress status));
              ("download_rate", JFloat (SessionStatus.DownloadRate status));
              ("upload_rate", JFloat (SessionStatus.UploadRate status));
              ("num_peers", JInt (SessionStatus.NumPeers status));
              ("num_seeds", JInt (SessionStatus.NumSeeds status));
              ("total_seeds", JInt (SessionStatus.TotalSeeds status));
              ("total_peers", JInt (SessionStatus.TotalPeers status)) ]).
Proof.
  intros Hp Hd Hu.
  unfold SessionStatus.Marshal, json_object, json_float.
  simpl. rewrite Hp, Hd, Hu. reflexivity.
Qed.

(** C9.  With no torrent handle, [GET /status] answers 200 with the JSON
    object whose [state] is -1 and whose other members are the zero values;
    with a handle, the status built carries the handle's name and the
    engine's state, progress, rates (in thousands per second), peer and
    seed counts, and it is the body of the answer, all nine members
    present whenever the three floats are finite. *)
Theorem statusHandler_sentinel_or_live :
  statusHandler None
  = {| Header := [ ("Content-Type", "application/json") ];
       StatusCode := 200;
       Body := Some (JObject
                       [ ("name", JString "");
                         ("state", JInt (-1));
                         ("progress", JFloat (S754_zero false));
                         ("download_rate", JFloat (S754_zero false));
                         ("upload_rate", JFloat (S754_zero false));
                         ("num_peers", JInt 0);
                         ("num_seeds", JInt 0);
                         ("total_seeds", JInt 0);
                         ("total_peers", JInt 0) ]) |}
  /\ forall h,
       let tstatus := Torrent_handle.Status h in
       let status := statusHandler_status (Some h) in
       SessionStatus.Name status = Torrent_handle.Name h
       /\ SessionStatus.State status = GetState tstatus
       /\ SessionStatus.Progress status = GetProgress tstatus
       /\ SessionStatus.DownloadRate status
          = Float32.div (Float32.of_int (GetDownload_rate tstatus))
                        (Float32.of_int 1000)
       /\ SessionStatus.UploadRate status
          = Float32.div (Float32.of_int (GetUpload_rate tstatus))
                        (Float32.of_int 1000)
       /\ SessionStatus.NumPeers status = GetNum_peers tstatus
       /\ SessionStatus.NumSeeds status = GetNum_seeds tstatus
       /\ SessionStatus.TotalSeeds status = GetNum_complete tstatus
       /\ SessionStatus.TotalPeers status = GetNum_incomplete tstatus
       /\ StatusCode (statusHandler (Some h)) = 200
       /\ Body (statusHandler (Some h)) = SessionStatus.Marshal status
       /\ (is_finite (SessionStatus.Progress status) = true ->
           is_finite (SessionStatus.DownloadRate status) = true ->
           is_finite (SessionStatus.UploadRate status) = true ->
           Body (statusHandler (Some h))
           = Some (JObject
                     [ ("name", JString (Torrent_handle.Name h));
                       ("state", JInt (GetState tstatus));
                       ("progress", JFloat (GetProgress tstatus));
                       ("download_rate",
                        JFloat (SessionStatus.DownloadRate status));
                       ("upload_rate",
                        JFloat (SessionStatus.UploadRate status));
                       ("num_peers", JInt (GetNum_peers tstatus));
                       ("num_seeds", JInt (GetNum_seeds tstatus));
                       ("total_seeds", JInt (GetNum_complete tstatus));
                       ("total_peers", JInt (GetNum_incomplete tstatus)) ])).
Proof.
  split; [reflexivity |].
  intros h tstatus status.
  repeat (split; [reflexivity |]).
  intros Hp Hd Hu.
  exact (Marshal_SessionStatus_finite status Hp Hd Hu).
Qed.

Lemma statusHandler_sentinel_or_live_witness :
  Body (statusHandler (Some (example_handle true)))
  = Some (JObject
            [ ("name", JString "example");
              ("state", JInt 3);
              ("progress", JFloat (S754_zero false));
              ("download_rate", JFloat (S754_finite false 8388608 (-12)));
              ("upload_rate", JFloat (S754_finite false 8388608 (-23)));
              ("num_peers", JInt 7);
              ("num_seeds", JInt 2);
              ("total_seeds", JInt 11);
              ("total_peers", JInt 40) ]).
Proof.
  refine (proj2 (proj2 (proj2 (proj2 (proj2 (proj2 (proj2 (proj2 (proj2
            (proj2 (proj2
               (proj2 statusHandler_sentinel_or_live (example_handle true))
            )))))))))) _ _ _); reflexivity.
Defined.

(** ** The seeding watcher *)

Lemma ensureSeeding_poll_exits statuses k :
  forall n,
    (forall j, (j < k)%nat ->
               GetIs_seeding (statuses (n + j)%nat)
               || GetIs_finished (statuses (n + j)%nat) = false) ->
    GetIs_seeding (statuses (n + k)%nat)
    || GetIs_finished (statuses (n + k)%nat) = true ->
    ensureSeeding_poll (S k) statuses n
    = Done (watcher_polls k ++ [ Torrent_Status ]).
Proof.
  induction k as [|k IH]; intros n Hbefore Hnow.
  - rewrite Nat.add_0_r in Hnow. simpl. rewrite Hnow. reflexivity.
  - pose proof (Hbefore 0%nat ltac:(lia)) as H0.
    rewrite Nat.add_0_r in H0.
    change (ensureSeeding_poll (S (S k)) statuses n)
      with (if GetIs_seeding (statuses n) || GetIs_finished (statuses n)
            then Done [ Torrent_Status ]
            else and_then [ Torrent_Status; Sleep (1 * time_Second) ]
                          (ensureSeeding_poll (S k) statuses (S n))).
    rewrite H0, (IH (S n)).
    + reflexivity.
    + intros j Hj. replace (S n + j)%nat with (n + S j)%nat by lia.
      apply Hbefore; lia.
    + replace (S n + k)%nat with (n + S k)%nat by lia. exact Hnow.
Qed.

Lemma ensureSeeding_priorities_spec todo :
  forall i,
    ensureSeeding_priorities todo i
    = map (fun j => Piece_priority (i + Z.of_nat j) 1) (seq 0 todo).
Proof.
  induction todo as [|todo IH]; intros i; [reflexivity |].
  simpl. rewrite Z.add_0_r. f_equal.
  rewrite IH, <- seq_shift, map_map.
  apply map_ext; intros j. f_equal. lia.
Qed.

(** X19.  What [ensureSeeding] does when it is run: it polls the status
    once a second until the torrent is seeding or finished, then sets the
    priority of every piece to 1, once, and returns. *)
Lemma ensureSeeding_resets_priorities statuses numPieces k :
  (forall j, (j < k)%nat ->
             GetIs_seeding (statuses j) || GetIs_finished (statuses j) = false) ->
  GetIs_seeding (statuses k) || GetIs_finished (statuses k) = true ->
  ensureSeeding (S k) statuses numPieces
  = Done (Println "Starting seeding watcher"
          :: watcher_polls k
          ++ [ Torrent_Status; Println "Now seeding, setting priorities" ]
          ++ map (fun j => Piece_priority (Z.of_nat j) 1)
                 (seq 0 (Z.to_nat numPieces))).
Proof.
  intros Hbefore Hnow. unfold ensureSeeding.
  rewrite (ensureSeeding_poll_exits statuses k 0); [| exact Hbefore | exact Hnow].
  rewrite ensureSeeding_priorities_spec. simpl.
  rewrite <- app_assoc. reflexivity.
Qed.

Lemma ensureSeeding_resets_priorities_witness :
  ensureSeeding 3 (fun k => example_seeding (2 <=? k)%nat) 2
  = Done [ Println "Starting seeding watcher";
           Torrent_Status; Sleep 1000000000;
           Torrent_Status; Sleep 1000000000;
           Torrent_Status; Println "Now seeding, setting priorities";
           Piece_priority 0 1; Piece_priority 1 1 ].
Proof.
  apply (ensureSeeding_resets_priorities
           (fun k => example_seeding (2 <=? k)%nat) 2 2).
  - intros j Hj. destruct j as [|[|j]]; [reflexivity | reflexivity | lia].
  - reflexivity.
Defined.

(** C3.  In a process started at [main] the tasks started by a [go]
    statement are the signal handler, the parent watcher, the idle monitor
    and [shutdown]; [ensureSeeding] is not among the functions that run, so
    no process polls for seeding or resets a piece priority. *)
Theorem ensureSeeding_never_started :
  Program.started_tasks
  = [ Program.handleSignals; Program.watchParent;
      Program.inactiveAutoShutdown; Program.shutdown ]
  /\ ~ In Program.ensureSeeding Program.running
  /\ (forall f, In f Program.all_funcs ->
                ~ In Program.ensureSeeding (Program.successors f)).
Proof.
  split; [vm_compute; reflexivity |].
  split.
  - vm_compute. intuition discriminate.
  - intros f Hf. destruct f; vm_compute; intuition discriminate.
Qed.

(** ** The call gateway *)

Lemma gateway_inv_start {World any : Type} (any_true : any) receivers
  (f : action World any) (w : World) :
  gateway_inv any_true receivers f w (runInMainThread_start w).
Proof.
  unfold gateway_inv, runInMainThread_start; simpl.
  repeat split. left. repeat split.
Qed.

Lemma gateway_inv_step {World any : Type} (any_true : any) receivers
  (f : action World any) (w : World) g g' :
  gateway_inv any_true receivers f w g ->
  gateway_step any_true receivers f g g' ->
  gateway_inv any_true receivers f w g'.
Proof.
  intros (Hc0 & Hq0 & Hc1 & Hcases) Hstep.
  destruct Hstep as [g c Hat Hsend | g Hat Hrecv | g c Hrecv Htake
                    | g w' done' Hhand Hrun | g v done' Hat Hget].
  - (* a buffered send: the channel has no buffer *)
    unfold buffered_send in Hsend. rewrite Hq0, Hc0 in Hsend.
    discriminate Hsend.
  - (* hand-over *)
    unfold gateway_inv; simpl. repeat (split; [assumption |]).
    destruct Hcases as [(_ & Hh & Hd & Hw) | [(Hc & _) | [(Hc & _)
                       | [(Hc & _) | (w' & v & Hc & _)]]]];
      try congruence.
    right; left. repeat split; assumption.
  - (* a take from the buffer: it is empty *)
    unfold buffered_recv in Htake. rewrite Hq0 in Htake. discriminate Htake.
  - (* the closure runs *)
    unfold gateway_inv; simpl.
    destruct Hcases as [(_ & Hh & _) | [(Hc & _ & Hd & Hw & _) | [(_ & Hh & _)
                       | [(_ & Hh & _) | (w'' & v & _ & Hh & _)]]]];
      try congruence.
    unfold runInMainThread_func1, buffered_send in Hrun.
    rewrite Hd, Hc1, Hw in Hrun.
    destruct f as [h | h |]; simpl in Hrun.
    + injection Hrun as <- <-. simpl.
      repeat (split; [assumption || reflexivity |]).
      right; right; left. repeat split; try assumption.
      exists (h w), any_true. repeat split.
    + destruct (h w) as [w1 v1] eqn:Hh. simpl in Hrun.
      injection Hrun as <- <-. simpl.
      repeat (split; [assumption || reflexivity |]).
      right; right; left. repeat split; try assumption.
      exists w1, v1. simpl. rewrite Hh. repeat split.
    + injection Hrun as <- <-.
      repeat (split; [assumption |]).
      right; right; right; left. repeat split; try assumption.
  - (* the caller receives from done *)
    unfold gateway_inv; simpl.
    unfold buffered_recv in Hget.
    destruct Hcases as [(Hc & _) | [(_ & _ & Hd & _) | [(_ & Hh & Hres)
                       | [(_ & _ & _ & Hd & _) | (w' & v' & Hc & _)]]]];
      try congruence;
      try (rewrite Hd in Hget; discriminate Hget).
    destruct Hres as (w' & v' & Hres & Hd & Hw).
    rewrite Hd in Hget. injection Hget as <- <-. simpl.
    repeat (split; [assumption |]).
    right; right; right; right.
    exists w', v'. repeat split; assumption.
Qed.

Lemma gateway_inv_steps {World any : Type} (any_true : any) receivers
  (f : action World any) (w : World) g :
  gateway_steps any_true receivers f (runInMainThread_start w) g ->
  gateway_inv any_true receivers f w g.
Proof.
  remember (runInMainThread_start w) as g0 eqn:Hg0.
  induction 1 as [g | g1 g2 g3 _ IH Hstep].
  - subst g. apply gateway_inv_start.
  - eapply gateway_inv_step; [apply IH; exact Hg0 | exact Hstep].
Qed.

(** Without a task that receives from [mainFuncChan], a call stays at its
    send. *)
Lemma gateway_blocked_without_receiver {World any : Type} (any_true : any)
  (f : action World any) (w : World) g :
  gateway_steps any_true 0 f (runInMainThread_start w) g ->
  caller g = at_send /\ world g = w.
Proof.
  remember (runInMainThread_start w) as g0 eqn:Hg0.
  induction 1 as [g | g1 g2 g3 Hsteps IH Hstep].
  - subst g. split; reflexivity.
  - destruct (IH Hg0) as [Hat Hw].
    pose proof (gateway_inv_steps any_true 0 f w g2) as Hinv.
    rewrite Hg0 in Hsteps. specialize (Hinv Hsteps).
    destruct Hinv as (Hc0 & Hq0 & _ & Hcases).
    destruct Hstep as [g c _ Hsend | g _ Hrecv | g c Hrecv _
                      | g w' done' Hhand _ | g v done' Hat' _].
    + unfold buffered_send in Hsend. rewrite Hq0, Hc0 in Hsend.
      discriminate Hsend.
    + lia.
    + lia.
    + destruct Hcases as [(_ & Hh & _) | [(Hc & _) | [(Hc & _)
                         | [(Hc & _) | (w'' & v & Hc & _)]]]];
        congruence.
    + congruence.
Qed.

(** With a receiving task, the call can run to its return. *)
Lemma gateway_can_return {World any : Type} (any_true : any) receivers
  (f : action World any) (w w' : World) (v : any) :
  (0 < receivers)%nat ->
  action_result any_true f w = Some (w', v) ->
  exists g,
    gateway_steps any_true receivers f (runInMainThread_start w) g
    /\ caller g = returned v /\ world g = w'.
Proof.
  intros Hrecv Hres.
  eexists. split.
  - eapply gateway_steps_step.
    + eapply gateway_steps_step.
      * eapply gateway_steps_step; [apply gateway_steps_refl |].
        apply step_hand_over; [reflexivity | exact Hrecv].
      * apply step_run with (w' := w') (done' := {| cap := 1; queue := [ v ] |});
          [reflexivity |].
        destruct f as [h | h |]; simpl in *.
        -- injection Hres as <- <-. reflexivity.
        -- destruct (h w) as [w1 v1]. injection Hres as <- <-. reflexivity.
        -- discriminate Hres.
    + apply step_return with (v := v) (done' := {| cap := 1; queue := [] |});
        reflexivity.
  - split; reflexivity.
Qed.

(** What the code of [runInMainThread] does by itself.  A call offers its
    closure on [mainFuncChan], which has no buffer: nothing is ever queued
    there.  The call stays at the send, the action not run, for as long as
    no task receives from the channel; were there a task to take the
    closure and run it, the result ([true] for a [func()], the value
    returned for a [func() interface{}]) would be on [done], and the call
    would return just that, the action having run once. *)
Theorem runInMainThread_returns_what_the_receiver_ran {World any : Type}
  (any_true : any) (receivers : nat) (f : action World any) (w : World) :
  (forall g,
      gateway_steps any_true receivers f (runInMainThread_start w) g ->
      queue (mainFuncChan g) = []
      /\ (forall v, caller g = returned v ->
                    action_result any_true f w = Some (world g, v))
      /\ (receivers = 0%nat -> caller g = at_send /\ world g = w))
  /\ ((0 < receivers)%nat ->
      forall w' v,
        action_result any_true f w = Some (w', v) ->
        exists g,
          gateway_steps any_true receivers f (runInMainThread_start w) g
          /\ caller g = returned v /\ world g = w').
Proof.
  split.
  - intros g Hsteps.
    pose proof (gateway_inv_steps any_true receivers f w g Hsteps)
      as (_ & Hq0 & _ & Hcases).
    split; [exact Hq0 |]. split.
    + intros v Hret.
      destruct Hcases as [(Hc & _) | [(Hc & _) | [(Hc & _)
                         | [(Hc & _) | (w' & v' & Hc & _ & Hres & _ & Hw)]]]];
        congruence.
    + intros ->. exact (gateway_blocked_without_receiver any_true f w g Hsteps).
  - intros Hrecv w' v Hres.
    exact (gateway_can_return any_true receivers f w w' v Hrecv Hres).
Qed.

(** With one receiving task, as the worker would be: an action that adds
    one and returns [false] is run once and its value returned. *)
Example runInMainThread_with_a_receiver :
  exists g,
    gateway_steps true 1 (func_any (fun w : Z => (w + 1, false)))
      (runInMainThread_start 41) g
    /\ caller g = returned false /\ world g = 42.
Proof.
  apply (proj2 (runInMainThread_returns_what_the_receiver_ran true 1
                  (func_any (fun w : Z => (w + 1, false))) 41)).
  - apply Nat.lt_0_1.
  - reflexivity.
Qed.

(** C2.  The worker is missing.  No function of [torrent2http.go] has a
    receive on [mainFuncChan], so none that runs in a process has one; the
    tasks a process starts are the signal handler, the parent watcher, the
    idle monitor and [shutdown], none of them a worker of the gateway.
    The channel is made without a buffer and holds nothing.  So whatever
    the action and the state, a call of [runInMainThread] in the program
    stays at its send: the action is never run and the call never returns.
    Nor does any function that runs in the process make such a call. *)
Theorem mainFuncChan_has_no_worker :
  (forall f, Program.receives_from Program.mainFuncChan f = false)
  /\ Program.receivers Program.mainFuncChan = []
  /\ Program.started_tasks
     = [ Program.handleSignals; Program.watchParent;
         Program.inactiveAutoShutdown; Program.shutdown ]
  /\ ~ In Program.runInMainThread Program.running
  /\ mainFuncChan_cap = 0%nat
  /\ (forall (World any : Type) (any_true : any) (f : action World any)
             (w : World) (g : gateway World any),
         gateway_steps any_true
           (List.length (Program.receivers Program.mainFuncChan)) f
           (runInMainThread_start w) g ->
         caller g = at_send
         /\ world g = w
         /\ queue (mainFuncChan g) = []
         /\ forall v, caller g <> returned v).
Proof.
  split; [intros f; destruct f; reflexivity |].
  split; [vm_compute; reflexivity |].
  split; [vm_compute; reflexivity |].
  split; [vm_compute; intuition discriminate |].
  split; [reflexivity |].
  intros World any any_true f w g Hsteps.
  change (List.length (Program.receivers Program.mainFuncChan)) with 0%nat
    in Hsteps.
  destruct (gateway_blocked_without_receiver any_true f w g Hsteps)
    as [Hat Hw].
  pose proof (gateway_inv_steps any_true 0%nat f w g Hsteps)
    as (_ & Hq0 & _).
  split; [exact Hat |]. split; [exact Hw |]. split; [exact Hq0 |].
  intros v. rewrite Hat. discriminate.
Qed.

(** ** The idle monitor *)

Lemma wrap64_small z : - 2 ^ 63 <= z < 2 ^ 63 -> wrap64 z = z.
Proof.
  intros Hz. unfold wrap64. rewrite Z.mod_small; lia.
Qed.







(** Every timed step is one run of the loop body. *)
Lemma monitor_step_runs_body d teardown m q m' q' :
  monitor_step d teardown (m, q) (m', q') ->
  exists s started,
    inactiveAutoShutdown_body (activeConnections m) s
    = Some (activeConnections m', started)
    /\ shutdowns m'
       = if started then clock m' :: shutdowns m else shutdowns m.
Proof.
  intros Hstep.
  inversion Hstep as [m0 t inc q0 Hzero _ _ | m0 q0 Hzero _ _
                     | m0 t inc q0 Hbusy _]; subst.
  - exists (received inc), false. unfold inactiveAutoShutdown_body.
    rewrite Hzero. split; reflexivity.
  - exists timer_fired, true. unfold inactiveAutoShutdown_body.
    rewrite Hzero. split; reflexivity.
  - exists (received inc), false. unfold inactiveAutoShutdown_body.
    apply Z.eqb_neq in Hbusy. rewrite Hbusy. split; reflexivity.
Qed.







(** The scenario of the specification: idle timeout 5 s, a request that
    arrives at 3 s and is served by 4 s.  No shutdown is started at 5 s,
    whatever the run; the next one comes at 9 s, five seconds after the
    counter is back at zero. *)
Lemma idle_window_scenario teardown :
  let d := 5 * time_Second in
  let inbox := [ (3 * time_Second, 1); (4 * time_Second, -1) ] in
  (forall s, monitor_steps d teardown (inactiveAutoShutdown_start, inbox) s ->
             ~ In (5 * time_Second) (shutdowns (fst s)))
  /\ exists m,
       monitor_steps d teardown (inactiveAutoShutdown_start, inbox) (m, [])
       /\ shutdowns m = [ 9 * time_Second ].
Proof.
  intros d inbox.
  set (m1 := {| activeConnections := 1; clock := 3 * time_Second;
                shutdowns := [] |}).
  set (m2 := {| activeConnections := 0; clock := 4 * time_Second;
                shutdowns := [] |}).
  assert (Hinv : forall s,
             monitor_steps d teardown (inactiveAutoShutdown_start, inbox) s ->
             s = (inactiveAutoShutdown_start, inbox)
             \/ s = (m1, [ (4 * time_Second, -1) ])
             \/ (snd s = [] /\ activeConnections (fst s) = 0
                 /\ 4 * time_Second <= clock (fst s)
                 /\ forall t, In t (shutdowns (fst s)) -> 9 * time_Second <= t)).
  { intros s.
    remember (inactiveAutoShutdown_start, inbox) as s0 eqn:Hs0.
    induction 1 as [s | s1 s2 s3 _ IH Hstep]; [left; reflexivity |].
    specialize (IH Hs0). subst s1.
    destruct IH as [-> | [-> | (Hq & Hzero & Hclock & Hall)]].
    - right; left.
      inversion Hstep as [m t inc q _ _ _ Heq | m q _ Hlate _ Heq
                         | m t inc q Hbusy _ Heq]; subst.
      + reflexivity.
      + specialize (Hlate _ _ _ eq_refl). vm_compute in Hlate.
        exfalso; apply Hlate; reflexivity.
      + exfalso; apply Hbusy; reflexivity.
    - right; right.
      inversion Hstep as [m t inc q Hzero _ _ Heq | m q Hzero _ _ Heq
                         | m t inc q _ _ Heq]; subst;
        try discriminate Hzero.
      simpl. repeat split; try reflexivity; try discriminate.
      intros t [].
    - right; right. destruct s2 as [m q]. simpl in *. subst q.
      inversion Hstep as [m' t inc q _ _ _ Heq | m' q _ _ _ Heq
                         | m' t inc q _ _ Heq]; subst.
      simpl. unfold timer_expiry, d, time_Second in *.
      repeat split; try assumption; try lia.
      intros t [<- | Hin]; [lia | exact (Hall t Hin)]. }
  split.
  - intros s Hsteps Hin.
    destruct (Hinv s Hsteps) as [-> | [-> | (_ & _ & _ & Hall)]];
      try (simpl in Hin; contradiction).
    specialize (Hall _ Hin). vm_compute in Hall. apply Hall; reflexivity.
  - exists {| activeConnections := 0; clock := 9 * time_Second;
              shutdowns := [ 9 * time_Second ] |}.
    split; [| reflexivity].
    eapply monitor_steps_step.
    + eapply monitor_steps_step.
      * eapply monitor_steps_step; [apply monitor_steps_refl |].
        apply (select_receive d teardown inactiveAutoShutdown_start
                 (3 * time_Second) 1 [ (4 * time_Second, -1) ]).
        -- reflexivity.
        -- discriminate.
        -- intros t [].
      * apply (busy_receive d teardown m1 (4 * time_Second) (-1) []).
        -- discriminate.
        -- intros t [].
    + apply (select_timer d teardown m2 []).
      * reflexivity.
      * intros t inc q' Hq; discriminate Hq.
      * intros t [].
Qed.

(** ** The float model on small inputs *)

Example of_int_3 :
  Float64.of_int 3 = S754_finite false 6755399441055744 (-51).
Proof. vm_compute. reflexivity. Qed.

Example of_int_rounds_to_even :
  Float64.of_int (2 ^ 53 + 1) = S754_finite false 4503599627370496 1.
Proof. vm_compute. reflexivity. Qed.

Example buffer_0_01_bits :
  buffer_0_01 = S754_finite false 5764607523034235 (-59).
Proof. vm_compute. reflexivity. Qed.

Example quarter_plus_half :
  Float64.add (Float64.div (Float64.of_int 1) (Float64.of_int 4))
              (Float64.div (Float64.of_int 1) (Float64.of_int 2))
  = Float64.div (Float64.of_int 3) (Float64.of_int 4).
Proof. vm_compute. reflexivity. Qed.

Example Ceil_of_two_and_a_half :
  Float64.Ceil (Float64.div (Float64.of_int 5) (Float64.of_int 2))
  = Float64.of_int 3
  /\ Float64.Ceil (Float64.div (Float64.of_int (-5)) (Float64.of_int 2))
     = Float64.of_int (-2)
  /\ Float64.Ceil (Float64.div (Float64.of_int (-1)) (Float64.of_int 2))
     = S754_zero true.
Proof. repeat split; vm_compute; reflexivity. Qed.

Example Max_of_zeros_and_NaN :
  Float64.Max (S754_zero true) (S754_zero false) = S754_zero false
  /\ Float64.Max S754_nan Float64.one = S754_nan
  /\ Float64.Max (Float64.of_int 7) Float64.one = Float64.of_int 7.
Proof. repeat split; vm_compute; reflexivity. Qed.

Example pieces_of_250 :
  buffer_pieces example_unrepresentable (example_config false (-1) buffer_0_01)
    0 250 = 3
  /\ buffer_pieces example_unrepresentable
       (example_config false (-1) buffer_0_01) 7 7 = 1
  /\ buffer_pieces example_unrepresentable
       (example_config false (-1) S754_nan) 0 250 = 1.
Proof. repeat split; vm_compute; reflexivity. Qed.

(** ** Binary digits *)

Lemma digits2_pos_size p : digits2_pos p = Pos.size p.
Proof. induction p; simpl; congruence. Qed.

Lemma digits2_pos_log2 p : Z.pos (digits2_pos p) = Z.log2 (Z.pos p) + 1.
Proof.
  rewrite digits2_pos_size.
  destruct p as [p | p |]; simpl; try rewrite Pos2Z.inj_succ; lia.
Qed.

Lemma digits2_pos_bounds p :
  2 ^ (Z.pos (digits2_pos p) - 1) <= Z.pos p < 2 ^ Z.pos (digits2_pos p).
Proof.
  rewrite digits2_pos_log2.
  replace (Z.log2 (Z.pos p) + 1 - 1) with (Z.log2 (Z.pos p)) by lia.
  replace (Z.log2 (Z.pos p) + 1) with (Z.succ (Z.log2 (Z.pos p))) by lia.
  apply Z.log2_spec. lia.
Qed.

(** The number of digits is settled by the two powers of two around. *)
Lemma digits2_pos_unique p d :
  2 ^ (d - 1) <= Z.pos p < 2 ^ d -> Z.pos (digits2_pos p) = d.
Proof.
  intros [Hlo Hhi].
  assert (Hd : 0 < d).
  { destruct (Z_lt_le_dec 0 d) as [H | H]; [exact H |].
    assert (2 ^ d <= 2 ^ 0) by (apply Z.pow_le_mono_r; lia).
    change (2 ^ 0) with 1 in *. lia. }
  rewrite digits2_pos_log2.
  assert (Z.log2 (Z.pos p) = d - 1); [| lia].
  apply Z.log2_unique; [lia |].
  replace (Z.succ (d - 1)) with d by lia. lia.
Qed.

Lemma Pos_iter_xO m k : Z.pos (Pos.iter xO m k) = Z.pos m * 2 ^ Z.pos k.
Proof.
  induction k as [|k IH] using Pos.peano_ind.
  - simpl. lia.
  - rewrite Pos.iter_succ, Pos2Z.inj_succ, Z.pow_succ_r by lia.
    rewrite Pos2Z.inj_xO, IH. ring.
Qed.

Lemma digits2_pos_shift m k :
  0 <= k ->
  forall mz, Z.pos mz = Z.pos m * 2 ^ k ->
  Z.pos (digits2_pos mz) = Z.pos (digits2_pos m) + k.
Proof.
  intros Hk mz Hmz. apply digits2_pos_unique.
  pose proof (digits2_pos_bounds m) as [Hlo Hhi].
  rewrite Hmz.
  replace (Z.pos (digits2_pos m) + k - 1)
    with (Z.pos (digits2_pos m) - 1 + k) by lia.
  rewrite !Z.pow_add_r by lia.
  assert (0 < 2 ^ k) by (apply Z.pow_pos_nonneg; lia).
  split; nia.
Qed.

(** ** Rounding that has nothing to round *)

Section Exact.

Variables prec emax : Z.
Hypothesis Hprec : 0 < prec.

(** A mantissa of at most [prec] digits whose exponent is in range comes
    back normalised to [prec] digits, the value unchanged. *)
Lemma binary_round_exact s m e :
  let d := Z.pos (digits2_pos m) in
  d <= prec ->
  emin prec emax <= d + e - prec <= emax - prec ->
  exists mz,
    Z.pos mz = Z.pos m * 2 ^ (prec - d)
    /\ Z.pos (digits2_pos mz) = prec
    /\ binary_round prec emax s m e = S754_finite s mz (d + e - prec).
Proof.
  intros d Hd [Hlo Hhi].
  assert (Hfexp : fexp prec emax (d + e) = d + e - prec)
    by (unfold fexp; lia).
  assert (Haux : forall mz,
             Z.pos mz = Z.pos m * 2 ^ (prec - d) ->
             Z.pos (digits2_pos mz) = prec
             /\ binary_round_aux prec emax s (Z.pos mz) (d + e - prec) loc_Exact
                = S754_finite s mz (d + e - prec)).
  { intros mz Hmz.
    assert (Hdz : Z.pos (digits2_pos mz) = prec)
      by (rewrite (digits2_pos_shift m (prec - d) ltac:(lia) mz Hmz);
          fold d; lia).
    split; [exact Hdz |].
    assert (Hshr : forall l,
               shr_fexp prec emax (Z.pos mz) (d + e - prec) l
               = (shr_record_of_loc (Z.pos mz) l, d + e - prec)).
    { intros l. unfold shr_fexp. simpl Zdigits2. rewrite Hdz.
      replace (prec + (d + e - prec)) with (d + e) by lia.
      rewrite Hfexp, Z.sub_diag. reflexivity. }
    unfold binary_round_aux. rewrite Hshr.
    cbn [shr_record_of_loc shr_m loc_of_shr_record round_nearest_even].
    rewrite Hshr. cbn [shr_record_of_loc shr_m].
    destruct (Z.leb_spec (d + e - prec) (emax - prec)); [reflexivity | lia]. }
  unfold binary_round, shl_align. fold d. rewrite Hfexp.
  destruct (d + e - prec - e) as [| k | k] eqn:Hk; try lia.
  - exists m. assert (Hmz : Z.pos m = Z.pos m * 2 ^ (prec - d))
      by (replace (prec - d) with 0 by lia; lia).
    destruct (Haux m Hmz) as [Hdz Hrun].
    repeat split; try assumption.
    replace e with (d + e - prec) at 1 by lia. exact Hrun.
  - exists (Pos.iter xO m k).
    assert (Hmz : Z.pos (Pos.iter xO m k) = Z.pos m * 2 ^ (prec - d))
      by (rewrite Pos_iter_xO; f_equal; f_equal; lia).
    destruct (Haux _ Hmz) as [Hdz Hrun].
    repeat split; assumption.
Qed.

End Exact.

(** ** Shifting a mantissa right *)

Lemma iter_pos_nat {A : Type} (f : A -> A) p :
  forall x, iter_pos f p x = Nat.iter (Pos.to_nat p) f x.
Proof.
  induction p as [p IH | p IH |]; intros x; cbn [iter_pos].
  - rewrite !IH, Pos2Nat.inj_xI.
    replace (S (2 * Pos.to_nat p)) with (Pos.to_nat p + S (Pos.to_nat p))%nat
      by lia.
    rewrite Nat.iter_add, Nat.iter_succ_r. reflexivity.
  - rewrite !IH, Pos2Nat.inj_xO.
    replace (2 * Pos.to_nat p)%nat with (Pos.to_nat p + Pos.to_nat p)%nat
      by lia.
    rewrite Nat.iter_add. reflexivity.
  - reflexivity.
Qed.

Lemma shr_1_spec m r s :
  0 <= m ->
  shr_1 {| shr_m := m; shr_r := r; shr_s := s |}
  = {| shr_m := m / 2; shr_r := Z.odd m; shr_s := r || s |}.
Proof.
  intros Hm. rewrite <- Z.div2_div.
  destruct m as [| [p | p |] | p]; try reflexivity; lia.
Qed.

(** The low bit that leaves and the bits that left before it. *)
Lemma mod_pow2_succ m n :
  0 <= n ->
  m mod 2 ^ (n + 1) = m mod 2 ^ n + 2 ^ n * Z.b2z (Z.testbit m n).
Proof.
  intros Hn.
  rewrite Z.pow_add_r, Z.pow_1_r by lia.
  rewrite Z.rem_mul_r by (try apply Z.pow_nonzero; lia).
  f_equal. f_equal.
  rewrite Z.testbit_spec' by lia.
  destruct (Z.eq_dec ((m / 2 ^ n) mod 2) 0) as [E | E].
  - rewrite E. reflexivity.
  - assert (H := Z.mod_pos_bound (m / 2 ^ n) 2 ltac:(lia)).
    assert (E1 : (m / 2 ^ n) mod 2 = 1) by lia.
    rewrite E1. reflexivity.
Qed.

(** After [n + 1] shifts: the quotient, the last bit shifted out, and
    whether anything was lost before it. *)
Lemma shr_iter_spec m r s n :
  0 <= m ->
  Nat.iter (S n) shr_1 {| shr_m := m; shr_r := r; shr_s := s |}
  = {| shr_m := m / 2 ^ (Z.of_nat n + 1);
       shr_r := Z.testbit m (Z.of_nat n);
       shr_s := r || s || negb (m mod 2 ^ Z.of_nat n =? 0) |}.
Proof.
  intros Hm. induction n as [|n IH].
  - change (Nat.iter 1 shr_1 ?x) with (shr_1 x).
    rewrite shr_1_spec by exact Hm.
    change (Z.of_nat 0) with 0. rewrite Z.bit0_odd.
    change (2 ^ (0 + 1)) with 2. change (2 ^ 0) with 1.
    rewrite Z.mod_1_r. change (negb (0 =? 0)) with false.
    rewrite orb_false_r. reflexivity.
  - change (Nat.iter (S (S n)) shr_1 ?x) with (shr_1 (Nat.iter (S n) shr_1 x)).
    rewrite IH, shr_1_spec by (apply Z.div_pos; [lia | apply Z.pow_pos_nonneg; lia]).
    rewrite Nat2Z.inj_succ.
    replace (Z.succ (Z.of_nat n)) with (Z.of_nat n + 1) by lia.
    f_equal.
    + rewrite Z.div_div by (try apply Z.pow_pos_nonneg; lia).
      rewrite (Z.pow_add_r 2 (Z.of_nat n + 1) 1) by lia. reflexivity.
    + rewrite (Z.testbit_odd m (Z.of_nat n + 1)), Z.shiftr_div_pow2 by lia.
      reflexivity.
    + rewrite (mod_pow2_succ m (Z.of_nat n)) by lia.
      assert (H0 := Z.mod_pos_bound m (2 ^ Z.of_nat n)
                      ltac:(apply Z.pow_pos_nonneg; lia)).
      assert (Hp : 0 < 2 ^ Z.of_nat n) by (apply Z.pow_pos_nonneg; lia).
      destruct (Z.testbit m (Z.of_nat n)); simpl Z.b2z.
      * replace (m mod 2 ^ Z.of_nat n + 2 ^ Z.of_nat n * 1 =? 0) with false
          by (symmetry; apply Z.eqb_neq; lia).
        simpl. rewrite orb_true_r. reflexivity.
      * rewrite Z.mul_0_r, Z.add_0_r. simpl. reflexivity.
Qed.

Lemma shr_spec m l e n :
  0 <= m -> 0 <= n ->
  exists r1 s1,
    shr (shr_record_of_loc m l) e n
    = ({| shr_m := m / 2 ^ n; shr_r := r1; shr_s := s1 |}, e + n)
    /\ r1 || s1 = loc_inexact l || negb (m mod 2 ^ n =? 0)
    /\ (l = loc_Exact -> 0 < n ->
        r1 = Z.testbit m (n - 1) /\ s1 = negb (m mod 2 ^ (n - 1) =? 0)).
Proof.
  intros Hm Hn.
  assert (Hrec : exists r s,
             shr_record_of_loc m l = {| shr_m := m; shr_r := r; shr_s := s |}
             /\ r || s = loc_inexact l
             /\ (l = loc_Exact -> r = false /\ s = false)).
  { destruct l as [| []]; simpl; eexists; eexists;
      (split; [reflexivity | split; [reflexivity | intros H; try discriminate H; auto]]). }
  destruct Hrec as (r & s & Hrec & Hrs & Hex).
  destruct n as [| p | p]; [| | lia].
  - exists r, s. simpl shr. rewrite Hrec, Z.add_0_r.
    change (2 ^ 0) with 1. rewrite Z.div_1_r, Z.mod_1_r.
    split; [reflexivity |]. split; [| lia].
    rewrite Hrs. change (negb (0 =? 0)) with false.
    rewrite orb_false_r. reflexivity.
  - unfold shr. rewrite iter_pos_nat, Hrec.
    destruct (Pos2Nat.is_succ p) as [k Hk].
    rewrite Hk, shr_iter_spec by exact Hm.
    replace (Z.pos p) with (Z.of_nat k + 1) by lia.
    replace (Z.of_nat k + 1 - 1) with (Z.of_nat k) by lia.
    eexists; eexists. split; [reflexivity |]. split.
    + rewrite (mod_pow2_succ m (Z.of_nat k)) by lia.
      assert (H0 := Z.mod_pos_bound m (2 ^ Z.of_nat k)
                      ltac:(apply Z.pow_pos_nonneg; lia)).
      assert (Hp : 0 < 2 ^ Z.of_nat k) by (apply Z.pow_pos_nonneg; lia).
      rewrite <- Hrs.
      destruct (Z.testbit m (Z.of_nat k)); simpl Z.b2z.
      * replace (m mod 2 ^ Z.of_nat k + 2 ^ Z.of_nat k * 1 =? 0)
          with false by (symmetry; apply Z.eqb_neq; lia).
        simpl. rewrite !orb_true_r. reflexivity.
      * rewrite Z.mul_0_r, Z.add_0_r. reflexivity.
    + intros Hl _. destruct (Hex Hl) as [-> ->]. split; reflexivity.
Qed.

Lemma round_nearest_even_spec m r s :
  round_nearest_even m
    (loc_of_shr_record {| shr_m := m; shr_r := r; shr_s := s |})
  = if rounds_up r s m then m + 1 else m.
Proof.
  unfold rounds_up. rewrite <- Z.negb_even.
  destruct r, s; simpl; try reflexivity.
  destruct (Z.even m); reflexivity.
Qed.

Section Rounding.

Variables prec emax : Z.
Hypothesis Hprec : 0 < prec.
Hypothesis Hemax : prec < emax.

Local Abbreviation emin := (emin prec emax).
Local Abbreviation fexp := (fexp prec emax).

Lemma emin_le_fexp e : emin <= fexp e.
Proof. unfold SpecFloat.fexp. lia. Qed.

Lemma Zdigits2_bounds m :
  0 < m -> 2 ^ (Zdigits2 m - 1) <= m < 2 ^ Zdigits2 m.
Proof.
  destruct m as [| p | p]; try lia. intros _.
  apply digits2_pos_bounds.
Qed.

Lemma Zdigits2_unique m d :
  0 < m -> 2 ^ (d - 1) <= m < 2 ^ d -> Zdigits2 m = d.
Proof.
  destruct m as [| p | p]; try lia. intros _.
  apply digits2_pos_unique.
Qed.

(** What the first shift of [binary_round_aux] leaves: the exponent is
    not below [emin], the mantissa has at most [prec] digits, and exactly
    [prec] above [emin]. *)
Lemma first_shift_digits mx ex :
  0 <= mx ->
  let n := fexp (Zdigits2 mx + ex) - ex in
  0 <= n ->
  emin <= ex + n
  /\ mx / 2 ^ n < 2 ^ prec
  /\ (emin < ex + n -> 2 ^ (prec - 1) <= mx / 2 ^ n).
Proof.
  intros Hmx n Hn.
  assert (Hn' : ex + n = fexp (Zdigits2 mx + ex)) by (unfold n; lia).
  assert (Hpn : 0 < 2 ^ n) by (apply Z.pow_pos_nonneg; lia).
  split; [rewrite Hn'; apply emin_le_fexp |].
  destruct (Z.eq_dec mx 0) as [-> | Hnz].
  - rewrite Z.div_0_l by lia.
    split; [apply Z.pow_pos_nonneg; lia |].
    intros Hlt. exfalso. simpl Zdigits2 in *.
    unfold SpecFloat.fexp in Hn', n. lia.
  - pose proof (Zdigits2_bounds mx ltac:(lia)) as [Hlo Hhi].
    set (d := Zdigits2 mx) in *.
    assert (Hd : 0 < d).
    { destruct mx as [| p | p]; try lia. unfold d; simpl; lia. }
    split.
    + apply Z.div_lt_upper_bound; [exact Hpn |].
      rewrite <- Z.pow_add_r by lia.
      apply Z.lt_le_trans with (1 := Hhi).
      apply Z.pow_le_mono_r; [lia |].
      unfold SpecFloat.fexp in Hn'. lia.
    + intros Hlt.
      assert (Hnd : n = d - prec) by (unfold SpecFloat.fexp in Hn'; lia).
      apply Z.div_le_lower_bound; [exact Hpn |].
      rewrite <- Z.pow_add_r by lia.
      replace (n + (prec - 1)) with (d - 1) by lia. exact Hlo.
Qed.

(** The second shift and the final test of [binary_round_aux]. *)
Lemma finish_spec sx m2 e1 :
  0 <= m2 <= 2 ^ prec ->
  emin <= e1 ->
  (emin < e1 -> 2 ^ (prec - 1) <= m2) ->
  (let '(mrs, e) := shr_fexp prec emax m2 e1 loc_Exact in
   match shr_m mrs with
   | 0 => S754_zero sx
   | Z.pos m => if e <=? emax - prec then S754_finite sx m e
                else S754_infinity sx
   | Z.neg _ => S754_nan
   end)
  = finish prec emax sx m2 e1.
Proof.
  intros [Hlo Hhi] He Hnorm. unfold finish.
  assert (Hpp : 0 < 2 ^ prec) by (apply Z.pow_pos_nonneg; lia).
  assert (Hpp1 : 0 < 2 ^ (prec - 1)) by (apply Z.pow_pos_nonneg; lia).
  assert (H2 : 2 ^ prec = 2 * 2 ^ (prec - 1))
    by (rewrite <- Z.pow_succ_r by lia; f_equal; lia).
  destruct (Z.eqb_spec m2 0) as [-> | Hnz].
  - unfold shr_fexp. simpl Zdigits2.
    assert (Hf : fexp (0 + e1) - e1 = 0 \/ fexp (0 + e1) - e1 < 0)
      by (unfold SpecFloat.fexp; lia).
    destruct (fexp (0 + e1) - e1) as [| p | p]; try lia; reflexivity.
  - destruct (Z.eqb_spec m2 (2 ^ prec)) as [-> | Hne].
    + assert (Hd : Zdigits2 (2 ^ prec) = prec + 1).
      { apply Zdigits2_unique; [lia |].
        replace (prec + 1 - 1) with prec by lia.
        split; [lia |]. rewrite Z.pow_add_r by lia. lia. }
      unfold shr_fexp. rewrite Hd.
      replace (fexp (prec + 1 + e1) - e1) with 1
        by (unfold SpecFloat.fexp; lia).
      destruct (shr_spec (2 ^ prec) loc_Exact e1 1 ltac:(lia) ltac:(lia))
        as (r1 & s1 & -> & _).
      cbn [shr_m]. rewrite Z.pow_1_r, H2.
      rewrite Z.mul_comm, Z.div_mul by lia.
      destruct (2 ^ (prec - 1)) as [| p | p] eqn:Hp; try lia.
      reflexivity.
    + assert (Hd : Zdigits2 m2 <= prec).
      { pose proof (Zdigits2_bounds m2 ltac:(lia)) as [Hdl _].
        destruct (Z_le_gt_dec (Zdigits2 m2) prec) as [H | H]; [exact H |].
        assert (2 ^ prec <= 2 ^ (Zdigits2 m2 - 1))
          by (apply Z.pow_le_mono_r; lia).
        lia. }
      assert (Hd' : emin < e1 -> Zdigits2 m2 = prec).
      { intros Hlt. apply Zdigits2_unique; [lia |].
        split; [apply Hnorm; exact Hlt | lia]. }
      unfold shr_fexp.
      assert (Hf : fexp (Zdigits2 m2 + e1) - e1 = 0).
      { unfold SpecFloat.fexp.
        destruct (Z.eq_dec e1 emin) as [E | E]; [lia |].
        rewrite Hd' by lia. lia. }
      rewrite Hf. cbn [shr shr_record_of_loc shr_m fst snd].
      destruct m2 as [| p | p]; try lia. reflexivity.
Qed.

(** [binary_round_aux] on a mantissa that has digits to spare: shift,
    round to nearest even, finish. *)
Lemma binary_round_aux_spec sx mx ex lx :
  0 <= mx ->
  let n := fexp (Zdigits2 mx + ex) - ex in
  0 <= n ->
  exists r1 s1,
    r1 || s1 = loc_inexact lx || negb (mx mod 2 ^ n =? 0)
    /\ (lx = loc_Exact -> 0 < n ->
        r1 = Z.testbit mx (n - 1) /\ s1 = negb (mx mod 2 ^ (n - 1) =? 0))
    /\ binary_round_aux prec emax sx mx ex lx
       = finish prec emax sx
           (if rounds_up r1 s1 (mx / 2 ^ n) then mx / 2 ^ n + 1
            else mx / 2 ^ n)
           (ex + n).
Proof.
  intros Hmx n Hn.
  destruct (first_shift_digits mx ex Hmx Hn) as (He & Hhi & Hnorm).
  fold n in He, Hhi, Hnorm.
  destruct (shr_spec mx lx ex n Hmx Hn) as (r1 & s1 & Hshr & Hflag & Hloc).
  exists r1, s1. split; [exact Hflag |]. split; [exact Hloc |].
  unfold binary_round_aux, shr_fexp. fold n. rewrite Hshr.
  cbn [shr_m]. rewrite round_nearest_even_spec.
  assert (H0 : 0 <= mx / 2 ^ n)
    by (apply Z.div_pos; [lia | apply Z.pow_pos_nonneg; lia]).
  assert (Hpp1 : 0 < 2 ^ (prec - 1)) by (apply Z.pow_pos_nonneg; lia).
  apply finish_spec.
  - destruct (rounds_up r1 s1 (mx / 2 ^ n)); lia.
  - exact He.
  - intros Hlt. specialize (Hnorm Hlt).
    destruct (rounds_up r1 s1 (mx / 2 ^ n)); lia.
Qed.

End Rounding.

(** ** Comparing dyadic numbers *)

Lemma pow2_pos k : 0 <= k -> 0 < 2 ^ k.
Proof. intros Hk. apply Z.pow_pos_nonneg; lia. Qed.

Lemma pow2_split a b : 0 <= a -> 0 <= b -> 2 ^ (a + b) = 2 ^ a * 2 ^ b.
Proof. intros Ha Hb. apply Z.pow_add_r; assumption. Qed.

Lemma dyadic_le_base m1 e1 m2 e2 b :
  b <= e1 -> b <= e2 ->
  dyadic_le m1 e1 m2 e2 <-> m1 * 2 ^ (e1 - b) <= m2 * 2 ^ (e2 - b).
Proof.
  intros H1 H2. unfold dyadic_le.
  set (c := Z.min e1 e2).
  assert (Hc : b <= c) by (unfold c; lia).
  assert (Hc1 : c <= e1) by (unfold c; lia).
  assert (Hc2 : c <= e2) by (unfold c; lia).
  replace (e1 - b) with ((e1 - c) + (c - b)) by lia.
  replace (e2 - b) with ((e2 - c) + (c - b)) by lia.
  rewrite !pow2_split by lia.
  pose proof (pow2_pos (c - b) ltac:(lia)) as Hp.
  rewrite !Z.mul_assoc.
  split; intros H.
  - apply Z.mul_le_mono_nonneg_r; [lia | exact H].
  - apply Z.mul_le_mono_pos_r in H; [exact H | exact Hp].
Qed.

Lemma dyadic_lt_base m1 e1 m2 e2 b :
  b <= e1 -> b <= e2 ->
  dyadic_lt m1 e1 m2 e2 <-> m1 * 2 ^ (e1 - b) < m2 * 2 ^ (e2 - b).
Proof.
  intros H1 H2. unfold dyadic_lt.
  set (c := Z.min e1 e2).
  assert (Hc : b <= c) by (unfold c; lia).
  assert (Hc1 : c <= e1) by (unfold c; lia).
  assert (Hc2 : c <= e2) by (unfold c; lia).
  replace (e1 - b) with ((e1 - c) + (c - b)) by lia.
  replace (e2 - b) with ((e2 - c) + (c - b)) by lia.
  rewrite !pow2_split by lia.
  pose proof (pow2_pos (c - b) ltac:(lia)) as Hp.
  rewrite !Z.mul_assoc.
  split; intros H.
  - apply Z.mul_lt_mono_pos_r; [exact Hp | exact H].
  - apply Z.mul_lt_mono_pos_r in H; [exact H | exact Hp].
Qed.

Lemma dyadic_le_to m1 e1 m2 e2 b :
  b <= e1 -> b <= e2 ->
  dyadic_le m1 e1 m2 e2 -> m1 * 2 ^ (e1 - b) <= m2 * 2 ^ (e2 - b).
Proof. intros H1 H2. apply dyadic_le_base; assumption. Qed.

Lemma dyadic_le_from m1 e1 m2 e2 b :
  b <= e1 -> b <= e2 ->
  m1 * 2 ^ (e1 - b) <= m2 * 2 ^ (e2 - b) -> dyadic_le m1 e1 m2 e2.
Proof. intros H1 H2. apply dyadic_le_base; assumption. Qed.

Lemma dyadic_lt_to m1 e1 m2 e2 b :
  b <= e1 -> b <= e2 ->
  dyadic_lt m1 e1 m2 e2 -> m1 * 2 ^ (e1 - b) < m2 * 2 ^ (e2 - b).
Proof. intros H1 H2. apply dyadic_lt_base; assumption. Qed.

Lemma dyadic_lt_from m1 e1 m2 e2 b :
  b <= e1 -> b <= e2 ->
  m1 * 2 ^ (e1 - b) < m2 * 2 ^ (e2 - b) -> dyadic_lt m1 e1 m2 e2.
Proof. intros H1 H2. apply dyadic_lt_base; assumption. Qed.

Lemma dyadic_le_trans m1 e1 m2 e2 m3 e3 :
  dyadic_le m1 e1 m2 e2 -> dyadic_le m2 e2 m3 e3 -> dyadic_le m1 e1 m3 e3.
Proof.
  intros H12 H23.
  set (b := Z.min e1 (Z.min e2 e3)).
  apply (dyadic_le_to m1 e1 m2 e2 b) in H12; try (unfold b; lia).
  apply (dyadic_le_to m2 e2 m3 e3 b) in H23; try (unfold b; lia).
  apply (dyadic_le_from m1 e1 m3 e3 b); [unfold b; lia | unfold b; lia |].
  exact (Z.le_trans _ _ _ H12 H23).
Qed.

Lemma dyadic_le_int m e N N' :
  N <= N' -> dyadic_le m e N 0 -> dyadic_le m e N' 0.
Proof.
  intros HN H. apply dyadic_le_trans with (1 := H).
  unfold dyadic_le. rewrite Z.min_id, Z.sub_diag. simpl. lia.
Qed.

Lemma pow2_ge_1 k : 0 <= k -> 1 <= 2 ^ k.
Proof. intros Hk. pose proof (pow2_pos k Hk). lia. Qed.

Lemma pow2_ge_2 k : 0 < k -> 2 <= 2 ^ k.
Proof.
  intros Hk. replace k with (1 + (k - 1)) by lia.
  rewrite pow2_split by lia. pose proof (pow2_pos (k - 1) ltac:(lia)).
  change (2 ^ 1) with 2. lia.
Qed.

Lemma pow2_pred k : 0 < k -> 2 ^ k = 2 * 2 ^ (k - 1).
Proof.
  intros Hk. replace k with (1 + (k - 1)) at 1 by lia.
  rewrite pow2_split by lia. reflexivity.
Qed.

(** ** Rounding keeps below a bound of the format *)

Section Bound.

Variables prec emax : Z.
Hypothesis Hprec : 0 < prec.
Hypothesis Hemax : prec < emax.

Local Abbreviation emin := (emin prec emax).
Local Abbreviation fexp := (fexp prec emax).

Lemma canonical_digits m e :
  canonical_mantissa prec emax m e = true ->
  Z.pos (digits2_pos m) <= prec
  /\ emin <= e
  /\ (emin < e -> Z.pos (digits2_pos m) = prec).
Proof.
  unfold canonical_mantissa, SpecFloat.fexp. intros H.
  apply Z.eqb_eq in H. lia.
Qed.

Lemma digits_canonical m e :
  0 < m ->
  Zdigits2 m <= prec -> emin <= e -> (emin < e -> Zdigits2 m = prec) ->
  canonical_mantissa prec emax (Z.to_pos m) e = true.
Proof.
  intros Hm Hd He Hn.
  destruct m as [| p | p]; try lia. simpl Z.to_pos. simpl Zdigits2 in *.
  unfold canonical_mantissa, SpecFloat.fexp. apply Z.eqb_eq.
  destruct (Z.eq_dec e emin) as [E | E]; [lia |].
  rewrite Hn by lia. lia.
Qed.

Lemma Zdigits2_le_prec m : 0 < m < 2 ^ prec -> Zdigits2 m <= prec.
Proof.
  intros [Hm Hlt].
  pose proof (Zdigits2_bounds m Hm) as [Hdl _].
  destruct (Z_le_gt_dec (Zdigits2 m) prec) as [H | H]; [exact H |].
  assert (2 ^ prec <= 2 ^ (Zdigits2 m - 1)) by (apply Z.pow_le_mono_r; lia).
  lia.
Qed.

(** The last step of a rounding keeps the float below a bound that the
    rounded mantissa respects. *)
Lemma finish_below m2 e1 Km Ke :
  0 <= m2 <= 2 ^ prec ->
  emin <= e1 ->
  (emin < e1 -> 2 ^ (prec - 1) <= m2) ->
  Km < 2 ^ prec -> Ke <= emax - prec ->
  dyadic_le m2 e1 Km Ke ->
  below prec emax (finish prec emax false m2 e1) Km Ke.
Proof.
  intros [Hlo Hhi] He Hnorm HKm HKe Hle. unfold finish.
  pose proof (pow2_pos prec ltac:(lia)) as Hpp.
  pose proof (pow2_pos (prec - 1) ltac:(lia)) as Hpp1.
  pose proof (pow2_pred prec Hprec) as H2.
  destruct (Z.eqb_spec m2 0) as [-> | Hnz]; [exact I |].
  assert (Hexp : 2 ^ (prec - 1) <= m2 -> e1 <= Ke).
  { intros Hbig.
    destruct (Z_le_gt_dec e1 Ke) as [H | H]; [exact H | exfalso].
    apply (dyadic_le_to m2 e1 Km Ke Ke) in Hle; try lia.
    rewrite Z.sub_diag, Z.mul_1_r in Hle.
    pose proof (pow2_ge_2 (e1 - Ke) ltac:(lia)). nia. }
  destruct (Z.eqb_spec m2 (2 ^ prec)) as [-> | Hne].
  - assert (Hlt : e1 < Ke).
    { destruct (Z_lt_ge_dec e1 Ke) as [H | H]; [exact H | exfalso].
      apply (dyadic_le_to (2 ^ prec) e1 Km Ke Ke) in Hle; try lia.
      rewrite Z.sub_diag, Z.mul_1_r in Hle.
      pose proof (pow2_ge_1 (e1 - Ke) ltac:(lia)). nia. }
    destruct (Z.leb_spec (e1 + 1) (emax - prec)) as [_ | H]; [| lia].
    assert (Hd : Zdigits2 (2 ^ (prec - 1)) = prec).
    { apply Zdigits2_unique; [lia |]. split; [lia |]. lia. }
    unfold below. split.
    + unfold bounded. apply andb_true_intro. split.
      * apply digits_canonical; lia.
      * apply Z.leb_le. lia.
    + rewrite Z2Pos.id by lia.
      set (b := Z.min e1 Ke).
      apply (dyadic_le_to (2 ^ prec) e1 Km Ke b) in Hle; try (unfold b; lia).
      apply (dyadic_le_from (2 ^ (prec - 1)) (e1 + 1) Km Ke b);
        try (unfold b; lia).
      replace (e1 + 1 - b) with (1 + (e1 - b)) by lia.
      rewrite pow2_split by (unfold b; lia).
      change (2 ^ 1) with 2. rewrite H2 in Hle.
      rewrite <- Z.mul_assoc in Hle. rewrite Z.mul_assoc.
      rewrite (Z.mul_comm (2 ^ (prec - 1)) 2). rewrite <- Z.mul_assoc.
      exact Hle.
  - assert (Hd : Zdigits2 m2 <= prec) by (apply Zdigits2_le_prec; lia).
    assert (Hd' : emin < e1 -> Zdigits2 m2 = prec).
    { intros Hlt. apply Zdigits2_unique; [lia |].
      split; [apply Hnorm; exact Hlt | lia]. }
    assert (He1 : e1 <= emax - prec).
    { destruct (Z.eq_dec e1 emin) as [E | E].
      - rewrite E. unfold SpecFloat.emin. lia.
      - specialize (Hexp (Hnorm ltac:(lia))). lia. }
    destruct (Z.leb_spec e1 (emax - prec)) as [_ | H]; [| lia].
    unfold below. split.
    + unfold bounded. apply andb_true_intro. split.
      * apply digits_canonical; try lia; assumption.
      * apply Z.leb_le. exact He1.
    + rewrite Z2Pos.id by lia. exact Hle.
Qed.

(** Rounding a value that is at most [Km * 2 ^ Ke], a number of the
    format, gives a float that is at most [Km * 2 ^ Ke].  The value lies
    in the cell that starts at [mx * 2 ^ ex], at its start when [lx] says
    exact and strictly inside otherwise. *)
Lemma binary_round_aux_below mx ex lx Km Ke :
  0 <= mx ->
  0 <= fexp (Zdigits2 mx + ex) - ex ->
  0 <= Km < 2 ^ prec -> emin <= Ke <= emax - prec ->
  dyadic_le mx ex Km Ke ->
  (loc_inexact lx = true -> dyadic_lt mx ex Km Ke) ->
  below prec emax (binary_round_aux prec emax false mx ex lx) Km Ke.
Proof.
  intros Hmx Hn [HK0 HKm] [HKe HKe'] Hle Hlt.
  set (n := fexp (Zdigits2 mx + ex) - ex) in *.
  destruct (binary_round_aux_spec prec emax Hprec false mx ex lx Hmx Hn)
    as (r1 & s1 & Hflag & _ & ->).
  destruct (first_shift_digits prec emax Hprec mx ex Hmx Hn)
    as (He & Hhi & Hnorm).
  fold n in Hflag, He, Hhi, Hnorm |- *.
  set (m1 := mx / 2 ^ n) in *. set (e1 := ex + n) in *.
  pose proof (pow2_pos n Hn) as HQ.
  pose proof (pow2_pos (prec - 1) ltac:(lia)) as Hpp1.
  pose proof (pow2_pred prec Hprec) as H2.
  assert (Hm1 : 0 <= m1) by (apply Z.div_pos; lia).
  assert (Hdiv : mx = 2 ^ n * m1 + mx mod 2 ^ n)
    by (apply Z.div_mod; lia).
  pose proof (Z.mod_pos_bound mx (2 ^ n) HQ) as Hrem.
  set (b := Z.min ex Ke).
  assert (Hb1 : b <= ex) by (unfold b; lia).
  assert (Hb2 : b <= Ke) by (unfold b; lia).
  pose proof (pow2_pos (ex - b) ltac:(lia)) as HP.
  assert (Hg : 2 ^ (e1 - b) = 2 ^ n * 2 ^ (ex - b)).
  { unfold e1. replace (ex + n - b) with (n + (ex - b)) by lia.
    apply pow2_split; lia. }
  apply (dyadic_le_to mx ex Km Ke b) in Hle; try lia.
  assert (Hfloor : m1 * 2 ^ (e1 - b) <= mx * 2 ^ (ex - b))
    by (rewrite Hg; nia).
  apply finish_below; try assumption.
  - destruct (rounds_up r1 s1 m1); lia.
  - intros Hl. specialize (Hnorm Hl). destruct (rounds_up r1 s1 m1); lia.
  - destruct (rounds_up r1 s1 m1) eqn:Hup.
    + (* rounded up: something was lost, so the floor is strictly below *)
      assert (Hinex : loc_inexact lx || negb (mx mod 2 ^ n =? 0) = true).
      { rewrite <- Hflag. unfold rounds_up in Hup.
        destruct r1; [reflexivity | discriminate Hup]. }
      assert (Hstrict : m1 * 2 ^ (e1 - b) < Km * 2 ^ (Ke - b)).
      { apply orb_true_iff in Hinex. destruct Hinex as [Hl | Hr].
        - apply Hlt in Hl.
          apply (dyadic_lt_to mx ex Km Ke b) in Hl; lia.
        - apply negb_true_iff, Z.eqb_neq in Hr.
          assert (m1 * 2 ^ (e1 - b) < mx * 2 ^ (ex - b))
            by (rewrite Hg; nia).
          lia. }
      apply (dyadic_le_from (m1 + 1) e1 Km Ke b); try (unfold e1; lia).
      destruct (Z_le_gt_dec e1 Ke) as [Hcase | Hcase].
      * (* the bound is on the grid of the result *)
        assert (HK : 2 ^ (Ke - b) = 2 ^ (Ke - e1) * 2 ^ (e1 - b)).
        { replace (Ke - b) with ((Ke - e1) + (e1 - b)) by lia.
          apply pow2_split; unfold e1; lia. }
        pose proof (pow2_pos (e1 - b) ltac:(unfold e1; lia)) as Hgp.
        rewrite HK in Hstrict |- *.
        assert (m1 < Km * 2 ^ (Ke - e1)) by nia.
        nia.
      * (* the bound is finer than the grid: the result is normal and
           already above it *)
        exfalso.
        specialize (Hnorm ltac:(lia)).
        assert (HK : 2 ^ (e1 - b) = 2 ^ (e1 - Ke) * 2 ^ (Ke - b)).
        { replace (e1 - b) with ((e1 - Ke) + (Ke - b)) by lia.
          apply pow2_split; lia. }
        pose proof (pow2_pos (Ke - b) ltac:(lia)) as HKp.
        pose proof (pow2_ge_2 (e1 - Ke) ltac:(lia)) as H22.
        rewrite HK in Hstrict.
        assert (2 ^ prec * 2 ^ (Ke - b) <= m1 * (2 ^ (e1 - Ke) * 2 ^ (Ke - b)))
          by nia.
        nia.
    + apply (dyadic_le_from m1 e1 Km Ke b); try (unfold e1; lia).
      exact (Z.le_trans _ _ _ Hfloor Hle).
Qed.

End Bound.

(** ** Rounding against an integer bound *)

Section IntegerBound.

Variables prec emax : Z.
Hypothesis Hprec : 0 < prec.
Hypothesis Hemax : prec < emax.

Local Abbreviation emin := (emin prec emax).
Local Abbreviation fexp := (fexp prec emax).

(** [2 ^ prec], written with a mantissa of the format. *)
Lemma dyadic_le_top m e :
  dyadic_le m e (2 ^ prec) 0 <-> dyadic_le m e (2 ^ (prec - 1)) 1.
Proof.
  set (b := Z.min e 0).
  pose proof (pow2_pred prec Hprec) as H2.
  assert (Hv : 2 ^ prec * 2 ^ (0 - b) = 2 ^ (prec - 1) * 2 ^ (1 - b)).
  { replace (1 - b) with (1 + (0 - b)) by lia.
    rewrite pow2_split by (unfold b; lia). change (2 ^ 1) with 2.
    rewrite H2. ring. }
  split; intros H.
  - apply (dyadic_le_to _ _ _ _ b) in H; try (unfold b; lia).
    apply (dyadic_le_from _ _ _ _ b); try (unfold b; lia).
    rewrite <- Hv. exact H.
  - apply (dyadic_le_to _ _ _ _ b) in H; try (unfold b; lia).
    apply (dyadic_le_from _ _ _ _ b); try (unfold b; lia).
    rewrite Hv. exact H.
Qed.

Lemma dyadic_lt_top m e :
  dyadic_lt m e (2 ^ prec) 0 -> dyadic_lt m e (2 ^ (prec - 1)) 1.
Proof.
  set (b := Z.min e 0).
  pose proof (pow2_pred prec Hprec) as H2.
  assert (Hv : 2 ^ prec * 2 ^ (0 - b) = 2 ^ (prec - 1) * 2 ^ (1 - b)).
  { replace (1 - b) with (1 + (0 - b)) by lia.
    rewrite pow2_split by (unfold b; lia). change (2 ^ 1) with 2.
    rewrite H2. ring. }
  intros H.
  apply (dyadic_lt_to _ _ _ _ b) in H; try (unfold b; lia).
  apply (dyadic_lt_from _ _ _ _ b); try (unfold b; lia).
  rewrite <- Hv. exact H.
Qed.

Lemma below_top x :
  below prec emax x (2 ^ (prec - 1)) 1 -> in_range prec emax x (2 ^ prec).
Proof.
  unfold in_range, below. destruct x as [s | s | | [|] m e]; try tauto.
  intros [Hb Hle]. split; [exact Hb |]. apply dyadic_le_top; exact Hle.
Qed.

Lemma in_range_mono x N N' :
  N <= N' -> in_range prec emax x N -> in_range prec emax x N'.
Proof.
  intros HN. unfold in_range, below.
  destruct x as [s | s | | [|] m e]; try tauto.
  intros [Hb Hle]. split; [exact Hb |].
  exact (dyadic_le_int _ _ _ _ HN Hle).
Qed.

(** Rounding a value that is at most an integer of the format gives a
    float that is at most that integer. *)
Lemma binary_round_aux_in_range mx ex lx N :
  0 <= mx ->
  0 <= fexp (Zdigits2 mx + ex) - ex ->
  0 <= N <= 2 ^ prec ->
  dyadic_le mx ex N 0 ->
  (loc_inexact lx = true -> dyadic_lt mx ex N 0) ->
  in_range prec emax (binary_round_aux prec emax false mx ex lx) N.
Proof.
  intros Hmx Hn [HN0 HN] Hle Hlt.
  pose proof (pow2_pos (prec - 1) ltac:(lia)) as Hpp1.
  pose proof (pow2_pred prec Hprec) as H2.
  assert (Hmin : emin <= 0) by (unfold SpecFloat.emin; lia).
  destruct (Z.eq_dec N (2 ^ prec)) as [-> | Hne].
  - apply below_top.
    apply binary_round_aux_below; try assumption; try lia.
    + apply dyadic_le_top; exact Hle.
    + intros Hl. apply dyadic_lt_top. exact (Hlt Hl).
  - unfold in_range.
    apply binary_round_aux_below; try assumption; lia.
Qed.

Lemma shl_align_fst m e e' :
  e' <= e -> Z.pos (fst (shl_align m e e')) = Z.pos m * 2 ^ (e - e').
Proof.
  intros He. unfold shl_align.
  destruct (e' - e) as [| d | d] eqn:Hd; try lia.
  - replace (e - e') with 0 by lia. simpl. lia.
  - simpl fst. rewrite Pos_iter_xO. f_equal. f_equal. lia.
Qed.

Lemma shl_align_spec m e :
  exists mz ez,
    shl_align m e (fexp (Z.pos (digits2_pos m) + e)) = (mz, ez)
    /\ ez <= e
    /\ Z.pos mz = Z.pos m * 2 ^ (e - ez)
    /\ 0 <= fexp (Zdigits2 (Z.pos mz) + ez) - ez.
Proof.
  unfold shl_align.
  set (e' := fexp (Z.pos (digits2_pos m) + e)).
  destruct (e' - e) as [| d | d] eqn:Hd.
  - exists m, e. split; [reflexivity |]. split; [lia |].
    split; [rewrite Z.sub_diag; simpl; lia |].
    simpl Zdigits2. fold e'. lia.
  - exists m, e. split; [reflexivity |]. split; [lia |].
    split; [rewrite Z.sub_diag; simpl; lia |].
    simpl Zdigits2. fold e'. lia.
  - exists (Pos.iter xO m d), e'. split; [reflexivity |].
    assert (Hmz : Z.pos (Pos.iter xO m d) = Z.pos m * 2 ^ (e - e'))
      by (rewrite Pos_iter_xO; f_equal; f_equal; lia).
    split; [lia |]. split; [exact Hmz |].
    simpl Zdigits2.
    rewrite (digits2_pos_shift m (e - e') ltac:(lia) _ Hmz).
    replace (Z.pos (digits2_pos m) + (e - e') + e')
      with (Z.pos (digits2_pos m) + e) by lia.
    fold e'. lia.
Qed.

Lemma binary_round_in_range m e N :
  0 <= N <= 2 ^ prec ->
  dyadic_le (Z.pos m) e N 0 ->
  in_range prec emax (binary_round prec emax false m e) N.
Proof.
  intros HN Hle. unfold binary_round.
  destruct (shl_align_spec m e) as (mz & ez & -> & Hez & Hmz & Hn).
  apply binary_round_aux_in_range; try assumption; try lia.
  - set (b := Z.min ez 0).
    apply (dyadic_le_to _ _ _ _ b) in Hle; try (unfold b; lia).
    apply (dyadic_le_from _ _ _ _ b); try (unfold b; lia).
    rewrite Hmz, <- Z.mul_assoc, <- pow2_split by (unfold b; lia).
    replace (e - ez + (ez - b)) with (e - b) by lia. exact Hle.
  - discriminate.
Qed.

(** The sum of two floats that are at most [A] and [B] is at most
    [A + B], when that is an integer of the format. *)
Lemma SFadd_in_range a b A B :
  0 <= A -> 0 <= B -> A + B <= 2 ^ prec ->
  in_range prec emax a A -> in_range prec emax b B ->
  in_range prec emax (SFadd prec emax a b) (A + B).
Proof.
  intros HA HB HAB Ha Hb.
  destruct a as [sa | sa | | [|] ma ea]; try contradiction;
    destruct b as [sb | sb | | [|] mb eb]; try contradiction.
  - destruct sa, sb; exact I.
  - apply in_range_mono with (2 := Hb). lia.
  - apply in_range_mono with (2 := Ha). lia.
  - destruct Ha as [_ Ha]. destruct Hb as [_ Hb].
    unfold SFadd. set (ez := Z.min ea eb).
    cbn [cond_Zopp].
    rewrite !shl_align_fst by (unfold ez; lia).
    pose proof (pow2_pos (ea - ez) ltac:(unfold ez; lia)) as Hpa.
    pose proof (pow2_pos (eb - ez) ltac:(unfold ez; lia)) as Hpb.
    destruct (Z.pos ma * 2 ^ (ea - ez) + Z.pos mb * 2 ^ (eb - ez))
      as [| p | p] eqn:Hsum; try nia.
    cbn [binary_normalize].
    apply binary_round_in_range; [lia |].
    set (c := Z.min ez 0).
    apply (dyadic_le_to _ _ _ _ c) in Ha; try (unfold c, ez; lia).
    apply (dyadic_le_to _ _ _ _ c) in Hb; try (unfold c, ez; lia).
    apply (dyadic_le_from _ _ _ _ c); try (unfold c; lia).
    rewrite <- Hsum, Z.mul_add_distr_r.
    rewrite <- !Z.mul_assoc, <- !pow2_split by (unfold c, ez; lia).
    replace (ea - ez + (ez - c)) with (ea - c) by lia.
    replace (eb - ez + (ez - c)) with (eb - c) by lia.
    rewrite Z.mul_add_distr_r. lia.
Qed.

End IntegerBound.

(** ** A quotient of a smaller by a larger is at most one *)

Section Quotient.

Variables prec emax : Z.
Hypothesis Hprec : 0 < prec.
Hypothesis Hemax : prec < emax.

Local Abbreviation emin := (emin prec emax).
Local Abbreviation fexp := (fexp prec emax).

Lemma new_location_inexact nb r :
  loc_inexact (new_location nb r) = negb (r =? 0).
Proof.
  unfold new_location, new_location_even, new_location_odd.
  destruct (Z.even nb); destruct (r =? 0); reflexivity.
Qed.

Lemma shifted_dividend m s :
  0 <= s ->
  match s with
  | 0 => m
  | Z.pos _ => Z.shiftl m s
  | Z.neg _ => 0
  end = m * 2 ^ s.
Proof.
  intros Hs. destruct s as [| p | p]; try lia.
  rewrite Z.shiftl_mul_pow2 by lia. reflexivity.
Qed.

Lemma SFdiv_le_one ma ea mb eb :
  dyadic_le (Z.pos ma) ea (Z.pos mb) eb ->
  in_range prec emax
    (SFdiv prec emax (S754_finite false ma ea) (S754_finite false mb eb)) 1.
Proof.
  intros Hle. unfold SFdiv, SFdiv_core_binary.
  set (d1 := Zdigits2 (Z.pos ma)). set (d2 := Zdigits2 (Z.pos mb)).
  set (e' := Z.min (fexp (d1 + ea - (d2 + eb))) (ea - eb)).
  set (s := ea - eb - e').
  assert (Hs : 0 <= s) by (unfold s, e'; lia).
  pose proof (pow2_pos s Hs) as Hps.
  rewrite (shifted_dividend (Z.pos ma) s Hs).
  pose proof (Z_div_mod (Z.pos ma * 2 ^ s) (Z.pos mb) ltac:(lia)) as Hdm.
  destruct (Z.div_eucl (Z.pos ma * 2 ^ s) (Z.pos mb)) as [q r].
  destruct Hdm as [Hdm Hr].
  cbn [xorb].
  assert (Hq : 0 <= q) by nia.
  pose proof (Zdigits2_bounds (Z.pos ma) ltac:(lia)) as [Hma_lo Hma_hi].
  pose proof (Zdigits2_bounds (Z.pos mb) ltac:(lia)) as [Hmb_lo Hmb_hi].
  fold d1 in Hma_lo, Hma_hi. fold d2 in Hmb_lo, Hmb_hi.
  assert (Hd1 : 0 < d1) by (unfold d1; simpl; lia).
  assert (Hd2 : 0 < d2) by (unfold d2; simpl; lia).
  apply binary_round_aux_in_range; try assumption.
  - (* the quotient has digits to spare *)
    destruct (Z_le_gt_dec e' emin) as [Hlow | Hhigh].
    + pose proof (emin_le_fexp prec emax (Zdigits2 q + e')). lia.
    + assert (Hx : e' <= d1 + ea - (d2 + eb) - prec)
        by (unfold e', SpecFloat.fexp in *; lia).
      set (t := d1 - 1 + s - d2).
      assert (Ht : prec - 1 <= t) by (unfold t, s; lia).
      pose proof (pow2_pos t ltac:(lia)) as Hpt.
      pose proof (pow2_pos (d1 - 1) ltac:(lia)) as Hp1.
      pose proof (pow2_pos d2 ltac:(lia)) as Hp2.
      assert (Hsplit : 2 ^ (d1 - 1) * 2 ^ s = 2 ^ t * 2 ^ d2).
      { rewrite <- !pow2_split by lia. f_equal. unfold t. lia. }
      assert (Hqt : 2 ^ t <= q).
      { destruct (Z_le_gt_dec (2 ^ t) q) as [H | H]; [exact H | exfalso].
        assert (Z.pos mb * q + r < Z.pos mb * 2 ^ t) by nia.
        assert (2 ^ t * 2 ^ d2 <= Z.pos ma * 2 ^ s) by (rewrite <- Hsplit; nia).
        nia. }
      pose proof (Zdigits2_bounds q ltac:(lia)) as [_ Hq_hi].
      assert (Hdq : t < Zdigits2 q).
      { apply (Z.pow_lt_mono_r_iff 2); try lia.
        destruct q as [| p | p]; try lia. simpl. lia. }
      unfold SpecFloat.fexp. unfold t, s in *. lia.
  - pose proof (pow2_pos prec ltac:(lia)). lia.
  - (* the floor of the quotient is at most one *)
    destruct (Z_le_gt_dec e' 0) as [Hneg | Hposi].
    + apply (dyadic_le_to _ _ _ _ (eb + e')) in Hle; try (unfold s in Hs; lia).
      replace (ea - (eb + e')) with s in Hle by (unfold s; lia).
      replace (eb - (eb + e')) with (- e') in Hle by lia.
      apply (dyadic_le_from _ _ _ _ e'); try lia.
      rewrite Z.sub_diag, Z.mul_1_r, Z.mul_1_l.
      replace (0 - e') with (- e') by lia.
      pose proof (pow2_pos (- e') ltac:(lia)). nia.
    + apply (dyadic_le_to _ _ _ _ eb) in Hle; try (unfold s in Hs; lia).
      rewrite Z.sub_diag, Z.mul_1_r in Hle.
      replace (ea - eb) with (s + e') in Hle by (unfold s; lia).
      rewrite pow2_split in Hle by lia.
      pose proof (pow2_ge_2 e' ltac:(lia)).
      assert (q = 0) by nia. subst q.
      apply (dyadic_le_from _ _ _ _ 0); try lia.
  - (* and strictly below when there is a remainder *)
    rewrite new_location_inexact. intros Hrem.
    apply negb_true_iff, Z.eqb_neq in Hrem.
    destruct (Z_le_gt_dec e' 0) as [Hneg | Hposi].
    + apply (dyadic_le_to _ _ _ _ (eb + e')) in Hle; try (unfold s in Hs; lia).
      replace (ea - (eb + e')) with s in Hle by (unfold s; lia).
      replace (eb - (eb + e')) with (- e') in Hle by lia.
      apply (dyadic_lt_from _ _ _ _ e'); try lia.
      rewrite Z.sub_diag, Z.mul_1_r, Z.mul_1_l.
      replace (0 - e') with (- e') by lia.
      pose proof (pow2_pos (- e') ltac:(lia)). nia.
    + apply (dyadic_le_to _ _ _ _ eb) in Hle; try (unfold s in Hs; lia).
      rewrite Z.sub_diag, Z.mul_1_r in Hle.
      replace (ea - eb) with (s + e') in Hle by (unfold s; lia).
      rewrite pow2_split in Hle by lia.
      pose proof (pow2_ge_2 e' ltac:(lia)).
      assert (q = 0) by nia. subst q.
      apply (dyadic_lt_from _ _ _ _ 0); lia.
Qed.

End Quotient.

(** ** The unit interval *)

Section UnitInterval.

Variables prec emax : Z.
Hypothesis Hprec : 0 < prec.
Hypothesis Hemax : prec < emax.

Local Abbreviation emin := (emin prec emax).

(** The float one of the format. *)
Lemma one_spec :
  exists mo,
    Z.pos mo = 2 ^ (prec - 1)
    /\ binary_normalize prec emax 1 0 false = S754_finite false mo (1 - prec).
Proof.
  destruct (binary_round_exact prec emax false 1 0) as (mz & Hmz & _ & Hr).
  - cbn [digits2_pos]. lia.
  - cbn [digits2_pos]. unfold SpecFloat.emin. lia.
  - cbn [digits2_pos] in Hmz, Hr. exists mz. split.
    + rewrite Hmz, Z.mul_1_l. reflexivity.
    + cbn [binary_normalize]. rewrite Hr. reflexivity.
Qed.

Lemma unit_interval_in_range x :
  unit_interval prec emax x -> in_range prec emax x 1.
Proof.
  intros (Hvalid & Hlo & Hhi).
  destruct one_spec as (mo & Hmo & Hone). rewrite Hone in Hhi.
  pose proof (pow2_pos (prec - 1) ltac:(lia)) as Hpp1.
  destruct x as [s | s | | [|] m e]; try exact I.
  - destruct s; discriminate.
  - discriminate.
  - discriminate.
  - simpl in Hvalid. split; [exact Hvalid |].
    unfold bounded in Hvalid. apply andb_true_iff in Hvalid.
    destruct Hvalid as [Hcan _].
    destruct (canonical_digits prec emax m e Hcan) as (Hd & He & _).
    pose proof (digits2_pos_bounds m) as [_ Hm].
    assert (Hm' : Z.pos m < 2 ^ prec).
    { apply Z.lt_le_trans with (1 := Hm). apply Z.pow_le_mono_r; lia. }
    unfold SFleb, SFcompare in Hhi.
    destruct (Z.compare_spec e (1 - prec)) as [Heq | Hlt | Hgt];
      try discriminate Hhi.
    + (* same exponent: the mantissas decide *)
      subst e.
      assert (Hle : (m <= mo)%positive).
      { unfold Pos.le, Pos.compare. intros Hc.
        rewrite Hc in Hhi. discriminate Hhi. }
      apply (dyadic_le_from _ _ _ _ (1 - prec)); try lia.
      rewrite Z.sub_diag, Z.mul_1_r, Z.mul_1_l.
      replace (0 - (1 - prec)) with (prec - 1) by lia.
      rewrite <- Hmo. exact Hle.
    + (* a smaller exponent: the mantissa has at most [prec] digits *)
      apply (dyadic_le_from _ _ _ _ e); try lia.
      rewrite Z.sub_diag, Z.mul_1_r, Z.mul_1_l.
      assert (2 ^ prec <= 2 ^ (0 - e)) by (apply Z.pow_le_mono_r; lia).
      lia.
Qed.

Lemma in_range_unit_interval x :
  in_range prec emax x 1 -> unit_interval prec emax x.
Proof.
  intros Hx.
  destruct one_spec as (mo & Hmo & Hone).
  pose proof (pow2_pos (prec - 1) ltac:(lia)) as Hpp1.
  unfold unit_interval. rewrite Hone.
  destruct x as [s | s | | [|] m e]; try contradiction.
  - repeat split.
  - destruct Hx as [Hb Hle].
    split; [exact Hb |]. split; [reflexivity |].
    unfold bounded in Hb. apply andb_true_iff in Hb.
    destruct Hb as [Hcan _].
    destruct (canonical_digits prec emax m e Hcan) as (Hd & He & Hnorm).
    pose proof (digits2_pos_bounds m) as [Hm_lo _].
    unfold SFleb, SFcompare.
    destruct (Z.compare_spec e (1 - prec)) as [Heq | Hlt | Hgt];
      [| reflexivity |].
    + subst e.
      apply (dyadic_le_to _ _ _ _ (1 - prec)) in Hle; try lia.
      rewrite Z.sub_diag, Z.mul_1_r, Z.mul_1_l in Hle.
      replace (0 - (1 - prec)) with (prec - 1) in Hle by lia.
      assert (Hmle : (m <= mo)%positive) by lia.
      unfold Pos.le, Pos.compare in Hmle.
      destruct (Pos.compare_cont Eq m mo); try reflexivity.
      exfalso; apply Hmle; reflexivity.
    + (* a larger exponent: the float is normal, so at least two *)
      exfalso.
      assert (Hmin : emin < e) by (unfold SpecFloat.emin; lia).
      rewrite (Hnorm Hmin) in Hm_lo.
      set (b := Z.min e 0).
      apply (dyadic_le_to _ _ _ _ b) in Hle; try (unfold b; lia).
      rewrite Z.mul_1_l in Hle.
      destruct (Z_le_gt_dec 0 e) as [Hpos | Hneg].
      * replace b with 0 in Hle by (unfold b; lia).
        rewrite Z.sub_diag, Z.sub_0_r in Hle. change (2 ^ 0) with 1 in Hle.
        pose proof (pow2_ge_1 e Hpos).
        destruct (Z.eq_dec e 0) as [E0 | E0].
        -- rewrite E0 in Hle. change (2 ^ 0) with 1 in Hle.
           pose proof (pow2_ge_2 (prec - 1) ltac:(lia)). lia.
        -- pose proof (pow2_ge_2 e ltac:(lia)). nia.
      * replace b with e in Hle by (unfold b; lia).
        rewrite Z.sub_diag, Z.mul_1_r in Hle.
        assert (2 * 2 ^ (0 - e) <= 2 ^ (prec - 1)).
        { replace (prec - 1) with (1 + (prec - 2)) by lia.
          rewrite pow2_split by lia. change (2 ^ 1) with 2.
          assert (2 ^ (0 - e) <= 2 ^ (prec - 2))
            by (apply Z.pow_le_mono_r; lia).
          lia. }
        pose proof (pow2_pos (0 - e) ltac:(lia)). lia.
Qed.

End UnitInterval.

(** ** Rounding keeps above a bound of the format *)

Section Above.

Variables prec emax : Z.
Hypothesis Hprec : 0 < prec.
Hypothesis Hemax : prec < emax.

Local Abbreviation emin := (emin prec emax).
Local Abbreviation fexp := (fexp prec emax).

Lemma finish_above m2 e1 Km Ke :
  0 <= m2 <= 2 ^ prec ->
  emin <= e1 ->
  (emin < e1 -> 2 ^ (prec - 1) <= m2) ->
  0 < Km ->
  dyadic_le Km Ke m2 e1 ->
  above prec emax (finish prec emax false m2 e1) Km Ke.
Proof.
  intros [Hlo Hhi] He Hnorm HKm Hle. unfold finish.
  pose proof (pow2_pos prec ltac:(lia)) as Hpp.
  pose proof (pow2_pos (prec - 1) ltac:(lia)) as Hpp1.
  pose proof (pow2_pred prec Hprec) as H2.
  destruct (Z.eqb_spec m2 0) as [-> | Hnz].
  - exfalso. set (b := Z.min Ke e1).
    pose proof (dyadic_le_to Km Ke 0 e1 b ltac:(unfold b; lia)
                  ltac:(unfold b; lia) Hle) as Hle'.
    pose proof (pow2_pos (Ke - b) ltac:(unfold b; lia)). nia.
  - destruct (Z.eqb_spec m2 (2 ^ prec)) as [-> | Hne].
    + destruct (Z.leb_spec (e1 + 1) (emax - prec)) as [Hfit | _]; [| exact I].
      assert (Hd : Zdigits2 (2 ^ (prec - 1)) = prec).
      { apply Zdigits2_unique; [lia |]. split; [lia |]. lia. }
      unfold above. split.
      * unfold bounded. apply andb_true_intro. split.
        -- apply digits_canonical; lia.
        -- apply Z.leb_le. lia.
      * rewrite Z2Pos.id by lia.
        set (b := Z.min Ke e1).
        apply (dyadic_le_to _ _ _ _ b) in Hle; try (unfold b; lia).
        apply (dyadic_le_from _ _ _ _ b); try (unfold b; lia).
        replace (e1 + 1 - b) with (1 + (e1 - b)) by lia.
        rewrite pow2_split by (unfold b; lia).
        change (2 ^ 1) with 2. rewrite H2 in Hle.
        rewrite Z.mul_assoc, (Z.mul_comm (2 ^ (prec - 1)) 2). exact Hle.
    + destruct (Z.leb_spec e1 (emax - prec)) as [Hfit | _]; [| exact I].
      assert (Hd : Zdigits2 m2 <= prec)
        by (apply (Zdigits2_le_prec prec Hprec); lia).
      assert (Hd' : emin < e1 -> Zdigits2 m2 = prec).
      { intros Hlt. apply Zdigits2_unique; [lia |].
        split; [apply Hnorm; exact Hlt | lia]. }
      unfold above. split.
      * unfold bounded. apply andb_true_intro. split.
        -- apply digits_canonical; try lia; assumption.
        -- apply Z.leb_le. exact Hfit.
      * rewrite Z2Pos.id by lia. exact Hle.
Qed.

(** Rounding a value that is at least [Km * 2 ^ Ke], a number of the
    format, gives a float that is at least [Km * 2 ^ Ke], or overflows. *)
Lemma binary_round_aux_above mx ex lx Km Ke :
  0 <= mx ->
  0 <= fexp (Zdigits2 mx + ex) - ex ->
  0 < Km < 2 ^ prec -> emin <= Ke ->
  dyadic_le Km Ke mx ex ->
  above prec emax (binary_round_aux prec emax false mx ex lx) Km Ke.
Proof.
  intros Hmx Hn [HK0 HKm] HKe Hle.
  set (n := fexp (Zdigits2 mx + ex) - ex) in *.
  destruct (binary_round_aux_spec prec emax Hprec false mx ex lx Hmx Hn)
    as (r1 & s1 & _ & _ & ->).
  destruct (first_shift_digits prec emax Hprec mx ex Hmx Hn)
    as (He & Hhi & Hnorm).
  fold n in He, Hhi, Hnorm |- *.
  set (m1 := mx / 2 ^ n) in *. set (e1 := ex + n) in *.
  pose proof (pow2_pos n Hn) as HQ.
  pose proof (pow2_pos (prec - 1) ltac:(lia)) as Hpp1.
  pose proof (pow2_pred prec Hprec) as H2.
  assert (Hm1 : 0 <= m1) by (apply Z.div_pos; lia).
  set (b := Z.min ex Ke).
  assert (Hb1 : b <= ex) by (unfold b; lia).
  assert (Hb2 : b <= Ke) by (unfold b; lia).
  pose proof (pow2_pos (ex - b) ltac:(lia)) as HP.
  assert (Hg : 2 ^ (e1 - b) = 2 ^ n * 2 ^ (ex - b)).
  { unfold e1. replace (ex + n - b) with (n + (ex - b)) by lia.
    apply pow2_split; lia. }
  apply (dyadic_le_to _ _ _ _ b) in Hle; try lia.
  assert (Hfloor : Km * 2 ^ (Ke - b) <= m1 * 2 ^ (e1 - b)).
  { destruct (Z_le_gt_dec e1 Ke) as [Hcase | Hcase].
    - (* the bound is on the grid: it is below the floor *)
      assert (HK : 2 ^ (Ke - b) = 2 ^ (Ke - e1) * 2 ^ (e1 - b)).
      { replace (Ke - b) with ((Ke - e1) + (e1 - b)) by lia.
        apply pow2_split; unfold e1; lia. }
      pose proof (pow2_pos (Ke - e1) ltac:(lia)) as Hc.
      rewrite HK, Hg in Hle. rewrite HK.
      assert (Km * 2 ^ (Ke - e1) * 2 ^ n <= mx) by nia.
      assert (Km * 2 ^ (Ke - e1) <= m1)
        by (apply Z.div_le_lower_bound; [lia | lia]).
      pose proof (pow2_pos (e1 - b) ltac:(unfold e1; lia)). nia.
    - (* the bound is finer than the grid: the floor is normal *)
      specialize (Hnorm ltac:(lia)).
      assert (HK : 2 ^ (e1 - b) = 2 ^ (e1 - Ke) * 2 ^ (Ke - b)).
      { replace (e1 - b) with ((e1 - Ke) + (Ke - b)) by lia.
        apply pow2_split; lia. }
      pose proof (pow2_pos (Ke - b) ltac:(lia)) as HKp.
      pose proof (pow2_ge_2 (e1 - Ke) ltac:(lia)) as H22.
      rewrite HK. nia. }
  apply finish_above; try assumption.
  - destruct (rounds_up r1 s1 m1); lia.
  - intros Hl. specialize (Hnorm Hl). destruct (rounds_up r1 s1 m1); lia.
  - apply (dyadic_le_from _ _ _ _ b); try (unfold e1; lia).
    pose proof (pow2_pos (e1 - b) ltac:(unfold e1; lia)).
    destruct (rounds_up r1 s1 m1); nia.
Qed.

Lemma binary_round_above m e Km Ke :
  0 < Km < 2 ^ prec -> emin <= Ke ->
  dyadic_le Km Ke (Z.pos m) e ->
  above prec emax (binary_round prec emax false m e) Km Ke.
Proof.
  intros HKm HKe Hle. unfold binary_round.
  destruct (shl_align_spec prec emax m e) as (mz & ez & -> & Hez & Hmz & Hn).
  apply binary_round_aux_above; try assumption; try lia.
  set (b := Z.min ez Ke).
  apply (dyadic_le_to _ _ _ _ b) in Hle; try (unfold b; lia).
  apply (dyadic_le_from _ _ _ _ b); try (unfold b; lia).
  rewrite Hmz, <- Z.mul_assoc, <- pow2_split by (unfold b; lia).
  replace (e - ez + (ez - b)) with (e - b) by lia. exact Hle.
Qed.

End Above.

(** ** A sum of fractions stops at [2 ^ prec] *)

Section Saturation.

Variables prec emax : Z.
Hypothesis Hprec : 1 < prec.
Hypothesis Hemax : prec < emax.

Local Abbreviation emin := (emin prec emax).
Local Abbreviation fexp := (fexp prec emax).

Lemma dyadic_le_refl m e : dyadic_le m e m e.
Proof. unfold dyadic_le. lia. Qed.

(** The only float of the format in [(2 ^ prec - 1, 2 ^ prec]]. *)
Lemma top_float ma ea :
  bounded prec emax ma ea = true ->
  dyadic_le (Z.pos ma) ea (2 ^ prec) 0 ->
  ~ dyadic_le (Z.pos ma) ea (2 ^ prec - 1) 0 ->
  Z.pos ma = 2 ^ (prec - 1) /\ ea = 1.
Proof.
  intros Hb Hle Hnot.
  unfold bounded in Hb. apply andb_true_iff in Hb. destruct Hb as [Hcan _].
  destruct (canonical_digits prec emax ma ea Hcan) as (Hd & He & Hnorm).
  pose proof (digits2_pos_bounds ma) as [Hm_lo Hm_hi].
  pose proof (pow2_pos (prec - 1) ltac:(lia)) as Hpp1.
  pose proof (pow2_pred prec ltac:(lia)) as H2.
  assert (Hma : Z.pos ma < 2 ^ prec).
  { apply Z.lt_le_trans with (1 := Hm_hi). apply Z.pow_le_mono_r; lia. }
  destruct (Z_le_gt_dec ea 0) as [Hlow | Hhigh].
  - exfalso. apply Hnot.
    apply (dyadic_le_from _ _ _ _ ea); try lia.
    rewrite Z.sub_diag, Z.mul_1_r.
    pose proof (pow2_ge_1 (0 - ea) ltac:(lia)). nia.
  - assert (Hmin : emin < ea) by (unfold SpecFloat.emin; lia).
    rewrite (Hnorm Hmin) in Hm_lo.
    apply (dyadic_le_to _ _ _ _ 0) in Hle; try lia.
    rewrite Z.sub_diag, Z.mul_1_r, Z.sub_0_r in Hle.
    destruct (Z.eq_dec ea 1) as [-> | Hne].
    + change (2 ^ 1) with 2 in Hle. split; [lia | reflexivity].
    + exfalso. replace ea with (2 + (ea - 2)) in Hle by lia.
      rewrite pow2_split in Hle by lia. change (2 ^ 2) with 4 in Hle.
      pose proof (pow2_ge_1 (ea - 2) ltac:(lia)). nia.
Qed.

(** A float of the format that is at most one has a small exponent. *)
Lemma small_float mb eb :
  bounded prec emax mb eb = true ->
  dyadic_le (Z.pos mb) eb 1 0 ->
  eb <= 1 - prec /\ Z.pos mb <= 2 ^ (- eb).
Proof.
  intros Hb Hle.
  unfold bounded in Hb. apply andb_true_iff in Hb. destruct Hb as [Hcan _].
  destruct (canonical_digits prec emax mb eb Hcan) as (Hd & He & Hnorm).
  pose proof (digits2_pos_bounds mb) as [Hm_lo _].
  pose proof (pow2_pos (prec - 1) ltac:(lia)) as Hpp1.
  assert (Hexp : eb <= 1 - prec).
  { destruct (Z_le_gt_dec eb (1 - prec)) as [H | H]; [exact H | exfalso].
    assert (Hmin : emin < eb) by (unfold SpecFloat.emin; lia).
    rewrite (Hnorm Hmin) in Hm_lo.
    set (b := Z.min eb 0).
    apply (dyadic_le_to _ _ _ _ b) in Hle; try (unfold b; lia).
    rewrite Z.mul_1_l in Hle.
    destruct (Z_le_gt_dec 0 eb) as [Hpos | Hneg].
    - replace b with 0 in Hle by (unfold b; lia).
      rewrite Z.sub_diag, Z.sub_0_r in Hle. change (2 ^ 0) with 1 in Hle.
      pose proof (pow2_ge_1 eb Hpos).
      pose proof (pow2_ge_2 (prec - 1) ltac:(lia)). nia.
    - replace b with eb in Hle by (unfold b; lia).
      rewrite Z.sub_diag, Z.mul_1_r in Hle.
      assert (2 * 2 ^ (0 - eb) <= 2 ^ (prec - 1)).
      { replace (prec - 1) with (1 + (prec - 2)) by lia.
        rewrite pow2_split by lia. change (2 ^ 1) with 2.
        assert (2 ^ (0 - eb) <= 2 ^ (prec - 2))
          by (apply Z.pow_le_mono_r; lia).
        lia. }
      pose proof (pow2_pos (0 - eb) ltac:(lia)). lia. }
  split; [exact Hexp |].
  apply (dyadic_le_to _ _ _ _ eb) in Hle; try lia.
  rewrite Z.sub_diag, Z.mul_1_r, Z.mul_1_l in Hle.
  replace (- eb) with (0 - eb) by lia. exact Hle.
Qed.

(** Adding at most one to [2 ^ prec] rounds back to [2 ^ prec]: the sum
    is at most half way to the next float, and the mantissa of
    [2 ^ prec] is even. *)
Lemma SFadd_top ma mb eb :
  Z.pos ma = 2 ^ (prec - 1) ->
  eb <= 1 - prec ->
  Z.pos mb <= 2 ^ (- eb) ->
  in_range prec emax
    (SFadd prec emax (S754_finite false ma 1) (S754_finite false mb eb))
    (2 ^ prec).
Proof.
  intros Hma Heb Hmb.
  set (k := - eb).
  assert (Hk : prec - 1 <= k) by (unfold k; lia).
  pose proof (pow2_pos k ltac:(lia)) as Hpk.
  pose proof (pow2_pos prec ltac:(lia)) as Hpp.
  pose proof (pow2_pos (prec - 1) ltac:(lia)) as Hpp1.
  pose proof (pow2_pred prec ltac:(lia)) as H2.
  assert (Hk1 : 2 ^ (k + 1) = 2 * 2 ^ k)
    by (rewrite pow2_split by lia; change (2 ^ 1) with 2; lia).
  unfold SFadd. replace (Z.min 1 eb) with eb by lia.
  cbn [cond_Zopp]. rewrite !shl_align_fst by lia.
  rewrite Z.sub_diag. change (2 ^ 0) with 1. rewrite Z.mul_1_r, Hma.
  replace (1 - eb) with (k + 1) by (unfold k; lia).
  assert (HM : 2 ^ (prec - 1) * 2 ^ (k + 1) + Z.pos mb
               = 2 ^ prec * 2 ^ k + Z.pos mb)
    by (rewrite Hk1, H2; ring).
  rewrite HM.
  set (M := 2 ^ prec * 2 ^ k + Z.pos mb) in *.
  assert (HMpos : 0 < M) by (unfold M; nia).
  assert (HMd : Zdigits2 M = prec + k + 1).
  { apply Zdigits2_unique; [exact HMpos |].
    replace (prec + k + 1 - 1) with (prec + k) by lia.
    rewrite (pow2_split (prec + k) 1), (pow2_split prec k) by lia.
    change (2 ^ 1) with 2. unfold M, k in *. nia. }
  destruct M as [| p | p] eqn:HMp; try lia.
  cbn [binary_normalize]. unfold binary_round.
  change (Z.pos (digits2_pos p)) with (Zdigits2 (Z.pos p)).
  assert (Hfexp : fexp (Zdigits2 (Z.pos p) + eb) = 1).
  { rewrite HMd. unfold SpecFloat.fexp, SpecFloat.emin, k. lia. }
  rewrite Hfexp.
  assert (Halign : shl_align p eb 1 = (p, eb)).
  { unfold shl_align. destruct (1 - eb) as [| q | q] eqn:Hq; try lia; reflexivity. }
  rewrite Halign.
  assert (Hn : fexp (Zdigits2 (Z.pos p) + eb) - eb = k + 1)
    by (rewrite Hfexp; unfold k; lia).
  destruct (binary_round_aux_spec prec emax ltac:(lia) false (Z.pos p) eb
              loc_Exact ltac:(lia) ltac:(rewrite Hn; lia))
    as (r1 & s1 & _ & Hloc & ->).
  rewrite Hn in Hloc |- *.
  destruct (Hloc eq_refl ltac:(lia)) as [Hr1 Hs1].
  replace (k + 1 - 1) with k in Hr1, Hs1 by lia.
  replace (eb + (k + 1)) with 1 by (unfold k; lia).
  assert (Hm1 : Z.pos p / 2 ^ (k + 1) = 2 ^ (prec - 1)).
  { rewrite <- HMp. unfold M. rewrite H2, Hk1.
    replace (2 * 2 ^ (prec - 1) * 2 ^ k + Z.pos mb)
      with (2 ^ (prec - 1) * (2 * 2 ^ k) + Z.pos mb) by ring.
    rewrite Z.div_add_l by lia.
    rewrite Z.div_small by (unfold k in *; lia). lia. }
  rewrite Hm1.
  assert (Hup : rounds_up r1 s1 (2 ^ (prec - 1)) = false).
  { unfold rounds_up.
    rewrite Z.odd_pow by lia. change (Z.odd 2) with false.
    rewrite orb_false_r.
    destruct (Z.eq_dec (Z.pos mb) (2 ^ k)) as [Heq | Hne].
    - (* exactly half way: nothing below the round bit *)
      assert (Hs : s1 = false).
      { rewrite Hs1, <- HMp. unfold M. rewrite Heq.
        replace (2 ^ prec * 2 ^ k + 2 ^ k) with ((2 ^ prec + 1) * 2 ^ k) by ring.
        rewrite Z.mod_mul by lia. reflexivity. }
      rewrite Hs. apply andb_false_r.
    - (* less than half way: the round bit is clear *)
      assert (Hr : r1 = false).
      { rewrite Hr1.
        pose proof (Z.testbit_spec' (Z.pos p) k ltac:(lia)) as Hbit.
        assert (Hdivk : Z.pos p / 2 ^ k = 2 ^ prec).
        { rewrite <- HMp. unfold M.
          rewrite Z.div_add_l by lia.
          rewrite Z.div_small by (unfold k in *; lia). lia. }
        assert (Hmod : 2 ^ prec mod 2 = 0).
        { rewrite H2, Z.mul_comm. apply Z.mod_mul. lia. }
        rewrite Hdivk, Hmod in Hbit.
        destruct (Z.testbit (Z.pos p) k); [discriminate Hbit | reflexivity]. }
      rewrite Hr. reflexivity. }
  rewrite Hup.
  apply (below_top prec emax ltac:(lia)).
  apply (finish_below prec emax ltac:(lia) Hemax); try lia.
  - unfold SpecFloat.emin. lia.
  - apply dyadic_le_refl.
Qed.

Lemma SFadd_saturates acc x :
  in_range prec emax acc (2 ^ prec) ->
  in_range prec emax x 1 ->
  in_range prec emax (SFadd prec emax acc x) (2 ^ prec).
Proof.
  intros Hacc Hx.
  pose proof (pow2_pos prec ltac:(lia)) as Hpp.
  destruct acc as [sa | sa | | [|] ma ea]; try contradiction;
    destruct x as [sb | sb | | [|] mb eb]; try contradiction.
  - destruct sa, sb; exact I.
  - apply in_range_mono with (2 := Hx). lia.
  - exact Hacc.
  - destruct (Z_le_gt_dec (Z.pos ma * 2 ^ (ea - Z.min ea 0))
                          ((2 ^ prec - 1) * 2 ^ (0 - Z.min ea 0)))
      as [Hbelow | Htop].
    + (* below the top: the sum is at most an integer of the format *)
      replace (2 ^ prec) with ((2 ^ prec - 1) + 1) by lia.
      apply (SFadd_in_range prec emax ltac:(lia) Hemax); try lia.
      * destruct Hacc as [Hb _]. split; [exact Hb | exact Hbelow].
      * exact Hx.
    + (* at the top *)
      destruct Hacc as [Hb Hle]. destruct Hx as [Hbx Hlex].
      destruct (top_float ma ea Hb Hle) as [Hma ->].
      * unfold dyadic_le. lia.
      * destruct (small_float mb eb Hbx Hlex) as [Heb Hmb].
        apply SFadd_top; assumption.
Qed.

End Saturation.

(** ** [lsHandler] *)

Lemma lsHandler_retFiles_map unrepresentable Get_piece_progress cfg files :
  LsInfo.Files (lsHandler_retFiles unrepresentable Get_piece_progress cfg files)
  = map (fileStatusInfo unrepresentable Get_piece_progress cfg) files.
Proof.
  unfold lsHandler_retFiles.
  assert (H : forall acc,
             LsInfo.Files
               (fold_left
                  (fun retFiles file =>
                     {| LsInfo.Files :=
                          LsInfo.Files retFiles
                          ++ [ fileStatusInfo unrepresentable
                                 Get_piece_progress cfg file ] |})
                  files acc)
             = LsInfo.Files acc
               ++ map (fileStatusInfo unrepresentable Get_piece_progress cfg)
                      files).
  { induction files as [|file files IH]; intros acc; simpl.
    - rewrite app_nil_r. reflexivity.
    - rewrite IH. simpl. rewrite <- app_assoc. reflexivity. }
  rewrite H. reflexivity.
Qed.

Lemma buffer_pieces_ge_1 unrepresentable cfg startPiece endPiece :
  1 <= buffer_pieces unrepresentable cfg startPiece endPiece.
Proof.
  unfold buffer_pieces.
  match goal with |- context [?x <? 1] => destruct (Z.ltb_spec x 1) end; lia.
Qed.

(** *** The buffer is within the unit interval *)

Lemma Float64_prec : 0 < Float64.prec.
Proof. reflexivity. Qed.

Lemma Float64_emax : Float64.prec < Float64.emax.
Proof. reflexivity. Qed.

Lemma of_float32_in_range x :
  unit_interval Float32.prec Float32.emax x ->
  in_range Float64.prec Float64.emax (Float64.of_float32 x) 1.
Proof.
  intros Hx.
  apply (unit_interval_in_range Float32.prec Float32.emax
           ltac:(reflexivity) ltac:(reflexivity)) in Hx.
  destruct x as [s | s | | [|] m e]; try contradiction.
  - exact I.
  - destruct Hx as [_ Hle]. unfold Float64.of_float32.
    apply (binary_round_in_range _ _ Float64_prec Float64_emax).
    + unfold Float64.prec. lia.
    + exact Hle.
Qed.

Lemma Float64_prec_gt_1 : 1 < Float64.prec.
Proof. reflexivity. Qed.

(** After [k] fractions the sum is at most [k], and at most [2 ^ 53] from
    there on. *)
Lemma buffer_loop_in_range Get_piece_progress todo :
  (forall piece,
      unit_interval Float32.prec Float32.emax (Get_piece_progress piece)) ->
  forall piece acc k,
    0 <= k ->
    in_range Float64.prec Float64.emax acc (Z.min k (2 ^ Float64.prec)) ->
    in_range Float64.prec Float64.emax
      (buffer_loop Get_piece_progress todo piece acc)
      (Z.min (k + Z.of_nat todo) (2 ^ Float64.prec)).
Proof.
  intros Hprogress.
  induction todo as [|todo IH]; intros piece acc k Hk Hacc.
  - simpl. rewrite Z.add_0_r. exact Hacc.
  - cbn [buffer_loop].
    replace (k + Z.of_nat (S todo)) with ((k + 1) + Z.of_nat todo) by lia.
    apply IH; try lia.
    pose proof (of_float32_in_range _ (Hprogress piece)) as Hx.
    destruct (Z_lt_ge_dec k (2 ^ Float64.prec)) as [Hlt | Hge].
    + rewrite Z.min_l in Hacc by lia.
      rewrite Z.min_l by lia.
      apply (SFadd_in_range _ _ Float64_prec Float64_emax); try lia;
        assumption.
    + rewrite Z.min_r in Hacc by lia.
      rewrite Z.min_r by lia.
      apply (SFadd_saturates _ _ Float64_prec_gt_1 Float64_emax); assumption.
Qed.

Section OfInt.

Variables prec emax : Z.
Hypothesis Hprec : 0 < prec.
Hypothesis Hemax : prec < emax.

(** An integer of at most [prec] digits converts to itself. *)
Lemma of_int_exact n :
  0 < n < 2 ^ prec ->
  exists mz,
    binary_normalize prec emax n 0 false
    = S754_finite false mz (Zdigits2 n - prec)
    /\ Z.pos mz = n * 2 ^ (prec - Zdigits2 n)
    /\ 0 < Zdigits2 n <= prec.
Proof.
  intros [Hn Hlt].
  pose proof (Zdigits2_le_prec prec Hprec n ltac:(lia)) as Hd.
  destruct n as [| p | p]; try lia.
  simpl Zdigits2 in *.
  destruct (binary_round_exact prec emax false p 0) as (mz & Hmz & _ & Hr).
  - exact Hd.
  - unfold emin. lia.
  - exists mz. cbn [binary_normalize]. rewrite Hr.
    split; [f_equal; lia |]. split; [exact Hmz | lia].
Qed.

(** A rounding keeps the sign it is given. *)
Lemma finish_sign sx m e :
  finish prec emax sx m e = S754_zero sx
  \/ (exists m' e', finish prec emax sx m e = S754_finite sx m' e')
  \/ finish prec emax sx m e = S754_infinity sx.
Proof.
  unfold finish.
  destruct (m =? 0); [left; reflexivity |].
  destruct (m =? 2 ^ prec).
  - destruct (e + 1 <=? emax - prec); [right; left; eauto | right; right; reflexivity].
  - destruct (e <=? emax - prec); [right; left; eauto | right; right; reflexivity].
Qed.

Lemma binary_round_sign sx m e :
  binary_round prec emax sx m e = S754_zero sx
  \/ (exists m' e', binary_round prec emax sx m e = S754_finite sx m' e')
  \/ binary_round prec emax sx m e = S754_infinity sx.
Proof.
  unfold binary_round.
  destruct (shl_align_spec prec emax m e) as (mz & ez & -> & _ & _ & Hn).
  destruct (binary_round_aux_spec prec emax Hprec sx (Z.pos mz) ez loc_Exact
              ltac:(lia) Hn) as (r1 & s1 & _ & _ & ->).
  apply finish_sign.
Qed.

End OfInt.

(** The sum of [n] fractions divided by [float64(n)] is at most one,
    whether [n] converts exactly or not. *)
Lemma div_mean_in_range acc n :
  0 < n ->
  in_range Float64.prec Float64.emax acc (Z.min n (2 ^ Float64.prec)) ->
  in_range Float64.prec Float64.emax (Float64.div acc (Float64.of_int n)) 1.
Proof.
  intros Hn Hacc.
  destruct (Z_lt_ge_dec n (2 ^ Float64.prec)) as [Hlt | Hge].
  - (* the count converts to itself *)
    rewrite Z.min_l in Hacc by lia.
    destruct (of_int_exact _ _ Float64_prec Float64_emax n ltac:(lia))
      as (mz & Hof & Hmz & Hd).
    unfold Float64.div, Float64.of_int. rewrite Hof.
    destruct acc as [s | s | | [|] m e]; try contradiction.
    + destruct s; exact I.
    + destruct Hacc as [_ Hle].
      apply (SFdiv_le_one _ _ Float64_prec Float64_emax).
      set (ez := Zdigits2 n - Float64.prec) in *.
      set (b := Z.min e ez).
      assert (Hez : ez <= 0) by (unfold ez; lia).
      apply (dyadic_le_to _ _ _ _ b) in Hle; try (unfold b; lia).
      apply (dyadic_le_from _ _ _ _ b); try (unfold b; lia).
      rewrite Hmz, <- Z.mul_assoc, <- pow2_split by (unfold b, ez; lia).
      replace (Float64.prec - Zdigits2 n + (ez - b)) with (0 - b)
        by (unfold ez; lia).
      exact Hle.
  - (* the count is rounded, to no less than [2 ^ 53] *)
    rewrite Z.min_r in Hacc by lia.
    assert (Hof : above Float64.prec Float64.emax (Float64.of_int n)
                    (2 ^ (Float64.prec - 1)) 1).
    { unfold Float64.of_int. destruct n as [| p | p]; try lia.
      cbn [binary_normalize].
      apply (binary_round_above Float64.prec Float64.emax Float64_prec).
      - unfold Float64.prec. lia.
      - unfold emin, Float64.prec, Float64.emax. lia.
      - apply (dyadic_le_from _ _ _ _ 0); try lia.
        unfold Float64.prec in *. simpl. lia. }
    unfold Float64.div.
    destruct (Float64.of_int n) as [sb | [|] | | [|] mb eb];
      try contradiction.
    + destruct acc as [s | s | | [|] m e]; try contradiction;
        try destruct s; exact I.
    + destruct Hof as [_ Hof].
      destruct acc as [s | s | | [|] m e]; try contradiction.
      * destruct s; exact I.
      * destruct Hacc as [_ Hle].
        apply (SFdiv_le_one _ _ Float64_prec Float64_emax).
        apply dyadic_le_trans with (2 := Hof).
        apply (dyadic_le_top _ Float64_prec). exact Hle.
Qed.

Lemma fileStatusInfo_Buffer unrepresentable Get_piece_progress cfg file :
  FileStatusInfo.Buffer
    (fileStatusInfo unrepresentable Get_piece_progress cfg file)
  = let pieces :=
      buffer_pieces unrepresentable cfg (fst (TorrentFile.Pieces file))
                    (snd (TorrentFile.Pieces file)) in
    Float64.div (buffer_loop Get_piece_progress (Z.to_nat pieces) 0 Float64.zero)
                (Float64.of_int pieces).
Proof.
  unfold fileStatusInfo. destruct (TorrentFile.Pieces file) as [s e].
  reflexivity.
Qed.

Lemma fileStatusInfo_unit_interval unrepresentable Get_piece_progress cfg file :
  (forall piece,
      unit_interval Float32.prec Float32.emax (Get_piece_progress piece)) ->
  unit_interval Float64.prec Float64.emax
    (FileStatusInfo.Buffer
       (fileStatusInfo unrepresentable Get_piece_progress cfg file)).
Proof.
  intros Hprogress.
  rewrite fileStatusInfo_Buffer. cbv zeta.
  set (pieces := buffer_pieces unrepresentable cfg _ _) in *.
  pose proof (buffer_pieces_ge_1 unrepresentable cfg
                (fst (TorrentFile.Pieces file))
                (snd (TorrentFile.Pieces file))) as Hge.
  fold pieces in Hge.
  apply (in_range_unit_interval _ _ Float64_prec Float64_emax).
  apply div_mean_in_range; [lia |].
  replace pieces with (0 + Z.of_nat (Z.to_nat pieces)) at 2 by lia.
  apply buffer_loop_in_range; try assumption; try lia.
  exact I.
Qed.

(** *** The number of pieces reported *)

Lemma Float64_one : Float64.one = S754_finite false 4503599627370496 (-52).
Proof. vm_compute. reflexivity. Qed.

Lemma Max_nonpositive_one x :
  (exists s, x = S754_zero s)
  \/ (exists m e, x = S754_finite true m e)
  \/ x = S754_infinity true ->
  Float64.Max x Float64.one = Float64.one.
Proof.
  rewrite Float64_one.
  intros [(s & ->) | [(m & e & ->) | ->]]; [destruct s | |]; reflexivity.
Qed.

Lemma int_of_float64_one unrepresentable :
  int_of_float64 unrepresentable Float64.one = 1.
Proof. rewrite Float64_one. vm_compute. reflexivity. Qed.

Lemma Zdigits2_ge_2 d : 2 <= d -> 2 <= Zdigits2 d.
Proof.
  intros Hd. pose proof (Zdigits2_bounds d ltac:(lia)) as [_ Hhi].
  destruct (Z_le_gt_dec 2 (Zdigits2 d)) as [H | H]; [exact H | exfalso].
  assert (Hdd : 0 <= Zdigits2 d) by (destruct d; simpl; lia).
  assert (2 ^ Zdigits2 d <= 2 ^ 1) by (apply Z.pow_le_mono_r; lia).
  change (2 ^ 1) with 2 in *. lia.
Qed.

(** [int(math.Max(float64(d), 1))] is [max d 1] for a difference [d] that
    converts without rounding. *)
Lemma TotalPieces_spec unrepresentable d :
  - 2 ^ 63 <= d < 2 ^ 53 ->
  int_of_float64 unrepresentable
    (Float64.Max (Float64.of_int (wrap64 d)) Float64.one)
  = Z.max d 1.
Proof.
  intros Hd. rewrite wrap64_small by lia.
  destruct (Z_le_gt_dec d 0) as [Hneg | Hpos].
  - (* zero or negative: the larger is one *)
    rewrite Z.max_r by lia.
    rewrite Max_nonpositive_one; [apply int_of_float64_one |].
    destruct d as [| p | p]; try lia.
    + left. exists false. reflexivity.
    + unfold Float64.of_int. cbn [binary_normalize].
      destruct (binary_round_sign Float64.prec Float64.emax Float64_prec true p 0)
        as [-> | [(m & e & ->) | ->]]; eauto 6.
  - destruct (Z.eq_dec d 1) as [-> | Hne].
    + vm_compute. reflexivity.
    + (* two or more: the conversion is exact and is the larger *)
      rewrite Z.max_l by lia.
      destruct (of_int_exact _ _ Float64_prec Float64_emax d
                  ltac:(unfold Float64.prec; lia)) as (mz & Hof & Hmz & Hdd).
      pose proof (Zdigits2_ge_2 d ltac:(lia)) as Hd2.
      unfold Float64.of_int. rewrite Hof, Float64_one.
      set (ez := Zdigits2 d - Float64.prec) in *.
      assert (Hez : - 52 < ez <= 0) by (unfold ez, Float64.prec in *; lia).
      assert (Hmax : Float64.Max (S754_finite false mz ez)
                       (S754_finite false 4503599627370496 (-52))
                     = S754_finite false mz ez).
      { unfold Float64.Max, SFltb, SFcompare. cbn [is_pinf is_nan is_zero orb andb].
        destruct (Z.compare_spec (-52) ez) as [E | E | E]; try lia.
        reflexivity. }
      rewrite Hmax. unfold int_of_float64, trunc. cbn [cond_Zopp].
      assert (Hval : (if 0 <=? ez then Z.pos mz * 2 ^ ez
                      else Z.pos mz / 2 ^ (- ez)) = d).
      { rewrite Hmz. fold ez.
        replace (Float64.prec - Zdigits2 d) with (- ez) by (unfold ez; lia).
        destruct (Z.leb_spec 0 ez) as [H0 | H0].
        - replace ez with 0 by lia. simpl. lia.
        - apply Z.div_mul. pose proof (pow2_pos (- ez) ltac:(lia)). lia. }
      rewrite Hval.
      destruct (Z.leb_spec (- 2 ^ 63) d); [| lia].
      destruct (Z.ltb_spec d (2 ^ 63)); [| lia].
      reflexivity.
Qed.

(** C7.  For every file of the listing whose piece range has a length
    that [float64] holds exactly (below [2 ^ 53]; the engine counts pieces
    on 32 bits), the [total_pieces] reported is
    [max(endPiece - startPiece, 1)], so never less than 1. *)
Theorem lsHandler_total_pieces unrepresentable Get_piece_progress cfg files :
  Forall (fun file =>
            - 2 ^ 63 <= snd (TorrentFile.Pieces file)
                        - fst (TorrentFile.Pieces file) < 2 ^ 53) files ->
  Forall2 (fun file fi =>
             FileStatusInfo.TotalPieces fi
             = Z.max (snd (TorrentFile.Pieces file)
                      - fst (TorrentFile.Pieces file)) 1
             /\ 1 <= FileStatusInfo.TotalPieces fi)
          files
          (LsInfo.Files
             (lsHandler_retFiles unrepresentable Get_piece_progress cfg files)).
Proof.
  intros Hfiles. rewrite lsHandler_retFiles_map.
  induction Hfiles as [|file files Hfile _ IH]; simpl; constructor.
  - assert (Htotal : FileStatusInfo.TotalPieces
                       (fileStatusInfo unrepresentable Get_piece_progress
                          cfg file)
                     = Z.max (snd (TorrentFile.Pieces file)
                              - fst (TorrentFile.Pieces file)) 1).
    { unfold fileStatusInfo.
      destruct (TorrentFile.Pieces file) as [startPiece endPiece].
      cbn [FileStatusInfo.TotalPieces fst snd] in *.
      apply TotalPieces_spec. exact Hfile. }
    split; [exact Htotal | rewrite Htotal; lia].
  - exact IH.
Qed.

Lemma lsHandler_total_pieces_witness :
  Forall2 (fun file fi =>
             FileStatusInfo.TotalPieces fi
             = Z.max (snd (TorrentFile.Pieces file)
                      - fst (TorrentFile.Pieces file)) 1
             /\ 1 <= FileStatusInfo.TotalPieces fi)
          example_files
          (LsInfo.Files
             (lsHandler_retFiles example_unrepresentable example_progress
                (example_config false (-1) buffer_0_01) example_files)).
Proof.
  apply (lsHandler_total_pieces example_unrepresentable example_progress
           (example_config false (-1) buffer_0_01) example_files).
  repeat constructor; simpl; lia.
Defined.

(** C8.  When every completion fraction the engine reports is a [float32]
    within [0, 1], the buffer readiness reported for every file of the
    listing is a [float64] within [0, 1], whatever the configured fraction
    and the piece ranges. *)
Theorem lsHandler_buffer_unit_interval unrepresentable Get_piece_progress
  cfg files :
  (forall piece,
      unit_interval Float32.prec Float32.emax (Get_piece_progress piece)) ->
  Forall (fun fi =>
            unit_interval Float64.prec Float64.emax (FileStatusInfo.Buffer fi))
         (LsInfo.Files
            (lsHandler_retFiles unrepresentable Get_piece_progress cfg files)).
Proof.
  intros Hprogress. rewrite lsHandler_retFiles_map.
  induction files as [|file files IH]; simpl; constructor.
  - apply fileStatusInfo_unit_interval; assumption.
  - exact IH.
Qed.

Lemma example_progress_unit_interval piece :
  unit_interval Float32.prec Float32.emax (example_progress piece).
Proof.
  unfold example_progress. destruct (piece <? 100); repeat split.
Qed.

Lemma lsHandler_buffer_unit_interval_witness :
  Forall (fun fi =>
            unit_interval Float64.prec Float64.emax (FileStatusInfo.Buffer fi))
         (LsInfo.Files
            (lsHandler_retFiles example_unrepresentable example_progress
               (example_config false (-1) buffer_0_01) example_files)).
Proof.
  apply (lsHandler_buffer_unit_interval example_unrepresentable
           example_progress (example_config false (-1) buffer_0_01)
           example_files).
  exact example_progress_unit_interval.
Defined.

(** The buffer of a file does not depend on where its range starts, only
    on how long it is. *)
Lemma fileStatusInfo_Buffer_ignores_startPiece unrepresentable
  Get_piece_progress cfg file shift :
  let file' :=
    {| TorrentFile.Name := TorrentFile.Name file;
       TorrentFile.Size := TorrentFile.Size file;
       TorrentFile.Offset := TorrentFile.Offset file;
       TorrentFile.Pieces := (fst (TorrentFile.Pieces file) + shift,
                              snd (TorrentFile.Pieces file) + shift) |} in
  FileStatusInfo.Buffer
    (fileStatusInfo unrepresentable Get_piece_progress cfg file')
  = FileStatusInfo.Buffer
      (fileStatusInfo unrepresentable Get_piece_progress cfg file).
Proof.
  intros file'. rewrite !fileStatusInfo_Buffer. cbv zeta.
  unfold file', buffer_pieces. cbn [TorrentFile.Pieces fst snd].
  replace (snd (TorrentFile.Pieces file) + shift
           - (fst (TorrentFile.Pieces file) + shift))
    with (snd (TorrentFile.Pieces file) - fst (TorrentFile.Pieces file))
    by lia.
  reflexivity.
Qed.

(** The answer to [GET /ls] on the example: both files at a buffer of 1.0,
    though no piece of the second is there. *)
Example lsHandler_example :
  lsHandler example_unrepresentable example_progress
    (example_config false (-1) buffer_0_01) example_files
  = {| Header := [ ("Content-Type", "application/json") ];
       StatusCode := 200;
       Body :=
         Some (JObject
                 [ ("files",
                    JArray
                      [ JObject
                          [ ("name", JString "a.mkv"); ("size", JInt 1000);
                            ("offset", JInt 0); ("total_pieces", JInt 100);
                            ("buffer", JFloat Float64.one) ];
                        JObject
                          [ ("name", JString "b.mkv"); ("size", JInt 1000);
                            ("offset", JInt 1000); ("total_pieces", JInt 100);
                            ("buffer", JFloat Float64.one) ] ]) ]) |}.
Proof. vm_compute. reflexivity. Qed.

(** C1.  The buffer reported for a file is the mean over the pieces
    [0 .. pieces-1] of the torrent, whatever the file's [startPiece]: for
    the second of two files of a hundred pieces, the first complete and the
    second not begun, [lsHandler] reports 1.0 (piece 0 alone), where the
    mean over the leading piece of the file's own range, piece 100, is 0. *)
Theorem lsHandler_buffer_counts_from_piece_zero :
  (forall unrepresentable Get_piece_progress cfg file,
      FileStatusInfo.Buffer
        (fileStatusInfo unrepresentable Get_piece_progress cfg file)
      = let pieces :=
          buffer_pieces unrepresentable cfg (fst (TorrentFile.Pieces file))
                        (snd (TorrentFile.Pieces file)) in
        Float64.div
          (buffer_loop Get_piece_progress (Z.to_nat pieces) 0 Float64.zero)
          (Float64.of_int pieces))
  /\ map FileStatusInfo.Buffer
        (LsInfo.Files
           (lsHandler_retFiles example_unrepresentable example_progress
              (example_config false (-1) buffer_0_01) example_files))
     = [ Float64.one; Float64.one ]
  /\ map (spec_buffer_readiness example_unrepresentable example_progress
             (example_config false (-1) buffer_0_01)) example_files
     = [ Float64.one; Float64.zero ]
  /\ map (fun file =>
             buffer_pieces example_unrepresentable
               (example_config false (-1) buffer_0_01)
               (fst (TorrentFile.Pieces file)) (snd (TorrentFile.Pieces file)))
          example_files
     = [ 1; 1 ].
Proof.
  split; [intros; apply fileStatusInfo_Buffer |].
  repeat split; vm_compute; reflexivity.
Qed.

(** * Properties of the start-up and the tasks *)

(** ** The parent watcher *)

Lemma events_of_after pre t : events_of (after pre t) = pre ++ events_of t.
Proof. destruct t; reflexivity. Qed.

Lemma started_by_app tr1 tr2 :
  started_by (tr1 ++ tr2) = started_by tr1 ++ started_by tr2.
Proof. unfold started_by. apply flat_map_app. Qed.

Lemma started_by_parent_polls k : started_by (parent_polls k) = [].
Proof. induction k as [|k IH]; [reflexivity | exact IH]. Qed.

Lemma watchParent_returns ppids k :
  forall n fuel,
    (k < fuel)%nat ->
    (forall j, (j < k)%nat -> ppids (n + j)%nat <> 1) ->
    ppids (n + k)%nat = 1 ->
    watchParent fuel ppids n
    = Returned (parent_polls k ++ [ Getppid; Go Program.shutdown ]).
Proof.
  induction k as [|k IH]; intros n fuel Hfuel Hbefore Hnow.
  - destruct fuel as [|fuel]; [lia |].
    rewrite Nat.add_0_r in Hnow. cbn [watchParent].
    rewrite Hnow. reflexivity.
  - destruct fuel as [|fuel]; [lia |].
    pose proof (Hbefore 0%nat ltac:(lia)) as H0.
    rewrite Nat.add_0_r in H0. apply Z.eqb_neq in H0.
    cbn [watchParent]. rewrite H0.
    rewrite (IH (S n) fuel).
    + reflexivity.
    + lia.
    + intros j Hj. replace (S n + j)%nat with (n + S j)%nat by lia.
      apply Hbefore. lia.
    + replace (S n + k)%nat with (n + S k)%nat by lia. exact Hnow.
Qed.

Lemma watchParent_loops ppids fuel :
  forall n,
    (forall j, (j < fuel)%nat -> ppids (n + j)%nat <> 1) ->
    watchParent fuel ppids n = Looping (parent_polls fuel).
Proof.
  induction fuel as [|fuel IH]; intros n Halive; [reflexivity |].
  pose proof (Halive 0%nat ltac:(lia)) as H0.
  rewrite Nat.add_0_r in H0. apply Z.eqb_neq in H0.
  cbn [watchParent]. rewrite H0.
  rewrite (IH (S n)).
  - reflexivity.
  - intros j Hj. replace (S n + j)%nat with (n + S j)%nat by lia.
    apply Halive. lia.
Qed.

(** X1.  [watchParent] asks for the parent's process id every two
    seconds; at the first answer that is 1, its poll number [k], it
    starts [shutdown] as a task, once, and returns without sleeping
    again: its events are [k] polls each followed by a sleep of two
    seconds, the last poll, and the one [go shutdown()]. *)
Theorem watchParent_starts_shutdown_once ppids k fuel :
  (forall j, (j < k)%nat -> ppids j <> 1) ->
  ppids k = 1 ->
  (k < fuel)%nat ->
  watchParent fuel ppids 0
  = Returned (parent_polls k ++ [ Getppid; Go Program.shutdown ])
  /\ started_by (events_of (watchParent fuel ppids 0)) = [ Program.shutdown ].
Proof.
  intros Hbefore Hnow Hfuel.
  assert (Hrun : watchParent fuel ppids 0
                 = Returned (parent_polls k
                             ++ [ Getppid; Go Program.shutdown ]))
    by (apply watchParent_returns; assumption).
  split; [exact Hrun |].
  rewrite Hrun. cbn [events_of].
  rewrite started_by_app, started_by_parent_polls. reflexivity.
Qed.

Lemma watchParent_starts_shutdown_once_witness :
  watchParent 5 (fun k => if (k <? 2)%nat then 4242 else 1) 0
  = Returned [ Getppid; Eff (Sleep 2000000000);
               Getppid; Eff (Sleep 2000000000);
               Getppid; Go Program.shutdown ]
  /\ started_by
       (events_of
          (watchParent 5 (fun k => if (k <? 2)%nat then 4242 else 1) 0))
     = [ Program.shutdown ].
Proof.
  apply (watchParent_starts_shutdown_once
           (fun k => if (k <? 2)%nat then 4242 else 1) 2 5).
  - intros j Hj. destruct j as [|[|j]]; [discriminate | discriminate | lia].
  - reflexivity.
  - lia.
Defined.

(** X2.  While every answer of [os.Getppid()] differs from 1,
    [watchParent] stays in its loop: after any number of iterations it
    has only polled and slept, has started no task and has not
    returned. *)
Theorem watchParent_keeps_watching ppids fuel :
  (forall k, ppids k <> 1) ->
  watchParent fuel ppids 0 = Looping (parent_polls fuel)
  /\ started_by (events_of (watchParent fuel ppids 0)) = [].
Proof.
  intros Halive.
  assert (Hrun : watchParent fuel ppids 0 = Looping (parent_polls fuel))
    by (apply watchParent_loops; intros j _; apply Halive).
  split; [exact Hrun |].
  rewrite Hrun. apply started_by_parent_polls.
Qed.

Lemma watchParent_keeps_watching_witness :
  watchParent 3 (fun _ => 4242) 0
  = Looping [ Getppid; Eff (Sleep 2000000000);
              Getppid; Eff (Sleep 2000000000);
              Getppid; Eff (Sleep 2000000000) ]
  /\ started_by (events_of (watchParent 3 (fun _ => 4242) 0)) = [].
Proof.
  apply (watchParent_keeps_watching (fun _ => 4242) 3).
  intros k. discriminate.
Defined.

(** ** The signal handler *)

Lemma relay_length (c : chan signal) sig :
  cap c = 1%nat ->
  (List.length (queue c) <= 1)%nat ->
  cap (relay c sig) = 1%nat /\ (List.length (queue (relay c sig)) <= 1)%nat.
Proof.
  intros Hcap Hlen. unfold relay, buffered_send.
  destruct (List.length (queue c) <? cap c)%nat eqn:Hroom.
  - apply Nat.ltb_lt in Hroom. cbn [cap queue].
    rewrite length_app. cbn [List.length]. split; [exact Hcap | lia].
  - split; assumption.
Qed.

(** What holds of [handleSignals] and its channel at every moment. *)
Lemma signals_inv s :
  signals_steps handleSignals_start s ->
  cap (signalChan s) = 1%nat
  /\ (List.length (queue (signalChan s)) <= 1)%nat
  /\ match handleSignals_at s with
     | before_Notify => signal_shutdowns s = 0%nat /\ queue (signalChan s) = []
     | at_signalChan => signal_shutdowns s = 0%nat /\ killed s = false
     | handleSignals_returned => signal_shutdowns s = 1%nat /\ killed s = false
     end.
Proof.
  remember handleSignals_start as s0 eqn:Hs0.
  induction 1 as [s | s1 s2 s3 _ IH Hstep].
  - subst s. cbn. repeat split; lia.
  - specialize (IH Hs0). destruct IH as (Hcap & Hlen & Hat).
    inversion Hstep as [s Hk Hp | s sig Hk Hp | s sig Hk Hp
                       | s sig c Hk Hp Hrecv]; subst;
      cbn [signalChan handleSignals_at signal_shutdowns killed].
    + rewrite Hp in Hat. repeat split; try tauto; lia.
    + rewrite Hp in Hat. repeat split; try tauto; lia.
    + destruct (relay_length (signalChan s2) sig Hcap Hlen) as [Hc Hl].
      split; [exact Hc |]. split; [exact Hl |].
      destruct (handleSignals_at s2); [contradiction | tauto | tauto].
    + rewrite Hp in Hat. unfold buffered_recv in Hrecv.
      destruct (queue (signalChan s2)) as [|v q] eqn:Hq; [discriminate |].
      injection Hrecv as _ <-. cbn [cap queue].
      cbn [List.length] in Hlen.
      repeat split; try tauto; try lia.
Qed.

(** X3.  However many interrupt and termination signals arrive,
    [handleSignals] starts [shutdown] at most once: it has started it
    exactly when it has returned, which takes one signal relayed to
    [signalChan]; the channel never holds more than one signal, later
    ones being dropped; and a signal ends the process by itself only
    before [signal.Notify] has run, when no shutdown was started. *)
Theorem handleSignals_starts_shutdown_at_most_once s :
  signals_steps handleSignals_start s ->
  (signal_shutdowns s <= 1)%nat
  /\ (signal_shutdowns s = 1%nat
      <-> handleSignals_at s = handleSignals_returned)
  /\ (List.length (queue (signalChan s)) <= 1)%nat
  /\ (killed s = true
      -> handleSignals_at s = before_Notify /\ signal_shutdowns s = 0%nat).
Proof.
  intros Hsteps.
  destruct (signals_inv s Hsteps) as (_ & Hlen & Hat).
  destruct (handleSignals_at s); destruct Hat as [Hn Hrest].
  - rewrite Hn. repeat split; intros; solve [lia | discriminate | reflexivity].
  - rewrite Hn, Hrest.
    repeat split; intros; solve [lia | discriminate | reflexivity].
  - rewrite Hn, Hrest.
    repeat split; intros; solve [lia | discriminate | reflexivity].
Qed.

(** Three signals after the registration: the first is received and
    starts the shutdown, the second stays in the channel, the third is
    dropped. *)
Lemma handleSignals_three_signals :
  signals_steps handleSignals_start example_signals.
Proof.
  eapply signals_steps_step.
  - eapply signals_steps_step.
    + eapply signals_steps_step.
      * eapply signals_steps_step.
        -- eapply signals_steps_step; [apply signals_steps_refl |].
           apply step_Notify; reflexivity.
        -- apply step_relay with (sig := os_Interrupt);
             [reflexivity | discriminate].
      * eapply step_go_shutdown; reflexivity.
    + apply step_relay with (sig := syscall_SIGTERM);
        [reflexivity | discriminate].
  - apply step_relay with (sig := os_Interrupt);
      [reflexivity | discriminate].
Qed.

Lemma handleSignals_starts_shutdown_at_most_once_witness :
  (signal_shutdowns example_signals <= 1)%nat
  /\ (signal_shutdowns example_signals = 1%nat
      <-> handleSignals_at example_signals = handleSignals_returned)
  /\ (List.length (queue (signalChan example_signals)) <= 1)%nat
  /\ (killed example_signals = true
      -> handleSignals_at example_signals = before_Notify
         /\ signal_shutdowns example_signals = 0%nat).
Proof.
  exact (handleSignals_starts_shutdown_at_most_once example_signals
           handleSignals_three_signals).
Defined.

(** ** A teardown that does not end *)

Lemma wait_loop_pending eng fuel :
  forall n,
    (forall j, (j < fuel)%nat ->
               exists what, alerts eng (n + j)%nat = Some what
                            /\ what <> "cache_flushed_alert") ->
    wait_loop fuel eng n = Pending (polls fuel).
Proof.
  induction fuel as [|fuel IH]; intros n Hbusy; [reflexivity |].
  destruct (Hbusy 0%nat ltac:(lia)) as (what & Hw & Hne).
  rewrite Nat.add_0_r in Hw.
  cbn [wait_loop]. rewrite Hw.
  destruct (String.eqb_spec what "cache_flushed_alert") as [E | _];
    [contradiction |].
  rewrite (IH (S n)).
  - reflexivity.
  - intros j Hj. replace (S n + j)%nat with (n + S j)%nat by lia.
    apply Hbusy. lia.
Qed.

Lemma polls_no_exit k e : In e (polls k) -> e = Wait_for_alert 30 \/ e = Pop_alert2.
Proof.
  induction k as [|k IH]; cbn [polls In]; [tauto |].
  intros [<- | [<- | Hin]]; [left | right | apply IH]; auto.
Qed.

(** X4.  With keep-files off, [shutdown] leaves its wait loop only on a
    poll that finds no alert or on a [cache_flushed_alert].  While the
    engine answers every poll with some other alert, [shutdown] stays in
    the loop whatever the number of polls: it has stopped the services
    and asked for the removal, then only waited and popped, and has
    neither deleted a file nor reached [os.Exit]. *)
Theorem shutdown_waits_while_other_alerts_come path_Join cfg eng fuel :
  keepFiles cfg = false ->
  (forall k, exists what, alerts eng k = Some what
                          /\ what <> "cache_flushed_alert") ->
  shutdown path_Join fuel cfg eng
  = Pending (Println "Stopping torrent2http..." :: stopServices
             ++ [ Println "Removing torrent...";
                  Set_alert_mask AlertStorage_notification;
                  Remove_torrent 1;
                  Println "Waiting for files to be removed..." ]
             ++ polls fuel)
  /\ (forall code, ~ In (Exit code)
                     (trace_of (shutdown path_Join fuel cfg eng)))
  /\ (forall path, ~ In (RemoveAll path)
                     (trace_of (shutdown path_Join fuel cfg eng))).
Proof.
  intros Hkeep Hbusy.
  assert (Hrun : shutdown path_Join fuel cfg eng
                 = Pending (Println "Stopping torrent2http..." :: stopServices
                            ++ [ Println "Removing torrent...";
                                 Set_alert_mask AlertStorage_notification;
                                 Remove_torrent 1;
                                 Println "Waiting for files to be removed..." ]
                            ++ polls fuel)).
  { unfold shutdown. rewrite Hkeep. cbn [Bool.eqb].
    rewrite (wait_loop_pending eng fuel 0) by (intros j _; apply Hbusy).
    reflexivity. }
  split; [exact Hrun |].
  rewrite Hrun. cbn [trace_of].
  split.
  - intros code Hin.
    change (In (Exit code)
              ([ Println "Stopping torrent2http..." ] ++ stopServices
               ++ [ Println "Removing torrent...";
                    Set_alert_mask AlertStorage_notification;
                    Remove_torrent 1;
                    Println "Waiting for files to be removed..." ]
               ++ polls fuel)) in Hin.
    rewrite !in_app_iff in Hin.
    destruct Hin as [Hin | [Hin | [Hin | Hin]]];
      try (cbn in Hin; intuition discriminate).
    destruct (polls_no_exit _ _ Hin); discriminate.
  - intros path Hin.
    change (In (RemoveAll path)
              ([ Println "Stopping torrent2http..." ] ++ stopServices
               ++ [ Println "Removing torrent...";
                    Set_alert_mask AlertStorage_notification;
                    Remove_torrent 1;
                    Println "Waiting for files to be removed..." ]
               ++ polls fuel)) in Hin.
    rewrite !in_app_iff in Hin.
    destruct Hin as [Hin | [Hin | [Hin | Hin]]];
      try (cbn in Hin; intuition discriminate).
    destruct (polls_no_exit _ _ Hin); discriminate.
Qed.

Lemma shutdown_waits_while_other_alerts_come_witness :
  shutdown join_slash 2 (example_config false 5 (S754_zero false))
    {| alerts := fun _ => Some "torrent_deleted_alert";
       torrentHandle := example_handle true |}
  = Pending [ Println "Stopping torrent2http...";
              Println "Stopping DHT..."; Stop_dht;
              Println "Stopping LSD..."; Stop_lsd;
              Println "Stopping UPNP..."; Stop_upnp;
              Println "Stopping NATPMP..."; Stop_natpmp;
              Println "Removing torrent...";
              Set_alert_mask AlertStorage_notification;
              Remove_torrent 1;
              Println "Waiting for files to be removed...";
              Wait_for_alert 30; Pop_alert2;
              Wait_for_alert 30; Pop_alert2 ].
Proof.
  apply (shutdown_waits_while_other_alerts_come join_slash
           (example_config false 5 (S754_zero false))
           {| alerts := fun _ => Some "torrent_deleted_alert";
              torrentHandle := example_handle true |} 2).
  - reflexivity.
  - intros k. exists "torrent_deleted_alert". split; [reflexivity | discriminate].
Defined.

(** ** An idle timeout that overflows *)

(** X5.  [time.Duration(idleTimeout) * time.Second] is computed on 64
    bits.  For an idle timeout above 9223372036 seconds, up to
    18446744073, the product wraps to a negative duration, whose timer
    fires at once: with no request at all the monitor starts a shutdown
    at time 0, and again on every iteration, without waiting, for as
    long as the process is there. *)
Theorem idle_timeout_overflow cfg teardown :
  9223372036 < idleTimeout cfg <= 18446744073 ->
  0 < teardown ->
  idle_duration cfg = idleTimeout cfg * time_Second - 2 ^ 64
  /\ idle_duration cfg < 0
  /\ forall n,
       monitor_steps (idle_duration cfg) teardown
         (inactiveAutoShutdown_start, [])
         ({| activeConnections := 0; clock := 0; shutdowns := repeat 0 n |},
          []).
Proof.
  intros Hidle Hteardown.
  assert (Hd : idle_duration cfg = idleTimeout cfg * time_Second - 2 ^ 64).
  { unfold idle_duration, wrap64, time_Second.
    replace (idleTimeout cfg * 1000000000 + 2 ^ 63)
      with ((idleTimeout cfg * 1000000000 - 2 ^ 63) + 1 * 2 ^ 64) by lia.
    rewrite Z.mod_add by lia. rewrite Z.mod_small by lia. lia. }
  assert (Hneg : idle_duration cfg < 0)
    by (rewrite Hd; unfold time_Second; lia).
  split; [exact Hd |]. split; [exact Hneg |].
  assert (Hexp : timer_expiry 0 (idle_duration cfg) = 0)
    by (unfold timer_expiry; lia).
  induction n as [|n IH]; [apply monitor_steps_refl |].
  eapply monitor_steps_step; [exact IH |].
  pose proof (select_timer (idle_duration cfg) teardown
                {| activeConnections := 0; clock := 0;
                   shutdowns := repeat 0 n |} []) as Hstep.
  cbn [activeConnections clock shutdowns] in Hstep.
  rewrite Hexp in Hstep. apply Hstep.
  - reflexivity.
  - intros t inc q' Hq. discriminate Hq.
  - intros t0 Hin. apply repeat_spec in Hin. lia.
Qed.

Lemma idle_timeout_overflow_witness :
  idle_duration (example_config false 9223372037 (S754_zero false))
  = 9223372037 * time_Second - 2 ^ 64
  /\ idle_duration (example_config false 9223372037 (S754_zero false)) < 0
  /\ forall n,
       monitor_steps
         (idle_duration (example_config false 9223372037 (S754_zero false)))
         (30 * time_Second)
         (inactiveAutoShutdown_start, [])
         ({| activeConnections := 0; clock := 0; shutdowns := repeat 0 n |},
          []).
Proof.
  apply (idle_timeout_overflow
           (example_config false 9223372037 (S754_zero false))
           (30 * time_Second)).
  - split; [reflexivity | discriminate].
  - reflexivity.
Defined.

(** ** The counted server *)

Lemma counts_within_mono c q n n' :
  n <= n' -> counts_within c q n -> counts_within c q n'.
Proof.
  intros Hn. revert c. induction q as [|v q IH]; intros c [Hc Hq].
  - split; [lia | exact I].
  - split; [lia | apply IH; exact Hq].
Qed.

Lemma counts_within_total c q n :
  counts_within c q n -> 0 <= c + pending_sum q <= n.
Proof.
  revert c. induction q as [|v q IH]; intros c [Hc Hq].
  - cbn [pending_sum fold_right]. lia.
  - specialize (IH _ Hq). cbn [pending_sum fold_right] in *.
    unfold pending_sum in IH. lia.
Qed.

Lemma counts_within_snoc c q v n :
  counts_within c q n ->
  0 <= c + pending_sum q + v <= n ->
  counts_within c (q ++ [ v ]) n.
Proof.
  revert c. induction q as [|w q IH]; intros c [Hc Hq] Hv.
  - cbn [pending_sum fold_right] in Hv.
    split; [exact Hc |]. split; [lia | exact I].
  - split; [exact Hc |]. apply IH; [exact Hq |].
    cbn [pending_sum fold_right] in Hv. unfold pending_sum. lia.
Qed.

Lemma pending_sum_snoc q v : pending_sum (q ++ [ v ]) = pending_sum q + v.
Proof.
  induction q as [|w q IH]; cbn [app pending_sum fold_right]; [lia |].
  unfold pending_sum in IH. rewrite IH. lia.
Qed.

Lemma buffered_send_queue {A : Type} (c c' : chan A) v :
  buffered_send c v = Some c' ->
  cap c' = cap c /\ queue c' = queue c ++ [ v ]
  /\ (List.length (queue c') <= cap c)%nat.
Proof.
  unfold buffered_send.
  destruct (List.length (queue c) <? cap c)%nat eqn:Hroom; [| discriminate].
  intros [= <-]. apply Nat.ltb_lt in Hroom. cbn [cap queue].
  rewrite length_app. cbn [List.length]. repeat split. lia.
Qed.

Lemma buffered_recv_queue {A : Type} (c c' : chan A) v :
  buffered_recv c = Some (v, c') ->
  cap c' = cap c /\ queue c = v :: queue c'.
Proof.
  unfold buffered_recv. destruct (queue c) as [|w q]; [discriminate |].
  intros [= <- <-]. split; reflexivity.
Qed.

Lemma received_body c inc :
  inactiveAutoShutdown_body c (received inc) = Some (wrap64 (c + inc), false).
Proof.
  unfold inactiveAutoShutdown_body. destruct (c =? 0); reflexivity.
Qed.

Lemma timer_body c c' started :
  inactiveAutoShutdown_body c timer_fired = Some (c', started) ->
  c = 0 /\ c' = 0 /\ started = true.
Proof.
  unfold inactiveAutoShutdown_body.
  destruct (c =? 0) eqn:Hc; [| discriminate].
  apply Z.eqb_eq in Hc. intros [= <- <-]. auto.
Qed.

Lemma server_step_arrived s s' :
  server_step s s' -> (arrived s <= arrived s')%nat.
Proof. intros Hstep; inversion Hstep; subst; cbn [arrived]; lia. Qed.

Lemma server_steps_arrived s s' :
  server_steps s s' -> (arrived s <= arrived s')%nat.
Proof.
  induction 1 as [s | s1 s2 s3 _ IH Hstep]; [lia |].
  pose proof (server_step_arrived _ _ Hstep). lia.
Qed.

Lemma server_steps_trans s1 s2 s3 :
  server_steps s1 s2 -> server_steps s2 s3 -> server_steps s1 s3.
Proof.
  intros H12 H23. induction H23 as [s | s2 s3 s4 _ IH Hstep]; [exact H12 |].
  eapply server_steps_step; [apply IH; exact H12 | exact Hstep].
Qed.

Lemma server_inv_step s s' :
  server_inv s -> Z.of_nat (arrived s') < 2 ^ 63 ->
  server_step s s' -> server_inv s'.
Proof.
  intros (Hcap & Hlen & Hcount & Hsum) Hbound Hstep.
  pose proof (counts_within_total _ _ _ Hcount) as Htotal.
  inversion Hstep as [s0 c Hsend | s0 n c Hprog Hsend | s0 n Hprog
                     | s0 inc c c' started Hrecv Hbody
                     | s0 c' started Hempty Hbody]; subst;
    unfold server_inv;
    cbn [connTrackChannel counter in_progress panicked arrived
         idle_shutdowns_started] in *.
  - destruct (buffered_send_queue _ _ _ Hsend) as (Hc & Hq & Hl).
    rewrite Hc, Hq, pending_sum_snoc. rewrite Hq in Hl.
    split; [exact Hcap |]. split; [rewrite <- Hcap; exact Hl |].
    split.
    + apply counts_within_snoc.
      * apply (counts_within_mono _ _ (Z.of_nat (arrived s))); [lia | exact Hcount].
      * lia.
    + lia.
  - destruct (buffered_send_queue _ _ _ Hsend) as (Hc & Hq & Hl).
    rewrite Hc, Hq, pending_sum_snoc. rewrite Hq in Hl.
    split; [exact Hcap |]. split; [rewrite <- Hcap; exact Hl |].
    split.
    + apply counts_within_snoc; [exact Hcount | lia].
    + lia.
  - repeat split; try assumption. lia.
  - destruct (buffered_recv_queue _ _ _ Hrecv) as (Hc & Hq).
    rewrite received_body in Hbody. injection Hbody as <- <-.
    rewrite Hq in Hcount, Hsum, Hlen.
    destruct Hcount as [Hc0 Hrest].
    assert (Hhead : 0 <= counter s + inc <= Z.of_nat (arrived s))
      by (destruct (queue c); [exact (proj1 Hrest) | exact (proj1 Hrest)]).
    rewrite wrap64_small by lia.
    rewrite Hc. cbn [List.length] in Hlen.
    split; [exact Hcap |]. split; [lia |].
    split; [exact Hrest |].
    cbn [pending_sum fold_right] in Hsum. unfold pending_sum. lia.
  - destruct (timer_body _ _ _ Hbody) as (Hc0 & -> & ->).
    rewrite Hc0 in *. repeat split; assumption.
Qed.

Lemma server_inv_steps s s' :
  server_inv s -> server_steps s s' -> Z.of_nat (arrived s') < 2 ^ 63 ->
  server_inv s'.
Proof.
  intros Hinv Hsteps. induction Hsteps as [s | s1 s2 s3 _ IH Hstep];
    intros Hbound; [exact Hinv |].
  pose proof (server_step_arrived _ _ Hstep).
  apply (server_inv_step s2); [apply IH; [exact Hinv | lia] | exact Hbound
                              | exact Hstep].
Qed.

Lemma server_inv_start : server_inv server_start.
Proof.
  unfold server_inv, server_start, connTrackChannel_cap, make_chan.
  cbn. repeat split; lia.
Qed.

(** X6.  In the server that counts connections, the counter of
    [inactiveAutoShutdown] is never negative, and together with the
    values still waiting in [connTrackChannel] it is the number of
    requests between their two sends, those whose handler panicked
    included; so once the channel is drained the counter is that number,
    and it is back at zero when every request has left and none
    panicked.  The channel never holds more than its ten values.  (For
    fewer than [2 ^ 63] requests, beyond which the counter could wrap.) *)
Theorem activeConnections_counts_requests_in_progress s :
  server_steps server_start s ->
  Z.of_nat (arrived s) < 2 ^ 63 ->
  0 <= counter s
  /\ counter s + pending_sum (queue (connTrackChannel s))
     = Z.of_nat (in_progress s + panicked s)
  /\ (queue (connTrackChannel s) = []
      -> counter s = Z.of_nat (in_progress s + panicked s))
  /\ (List.length (queue (connTrackChannel s)) <= 10)%nat.
Proof.
  intros Hsteps Hbound.
  destruct (server_inv_steps _ _ server_inv_start Hsteps Hbound)
    as (_ & Hlen & Hcount & Hsum).
  split; [destruct (queue (connTrackChannel s)); apply Hcount |].
  split; [exact Hsum |].
  split; [| exact Hlen].
  intros Hq. rewrite Hq in Hsum. cbn [pending_sum fold_right] in Hsum. lia.
Qed.

Lemma example_server_busy_reachable :
  server_steps server_start example_server_busy.
Proof.
  set (s1 := {| connTrackChannel := {| cap := 10; queue := [ 1 ] |};
                counter := 0; in_progress := 1; panicked := 0; arrived := 1;
                idle_shutdowns_started := 0 |}).
  set (s2 := {| connTrackChannel := {| cap := 10; queue := [ 1; 1 ] |};
                counter := 0; in_progress := 2; panicked := 0; arrived := 2;
                idle_shutdowns_started := 0 |}).
  apply (server_steps_step _ s2).
  - apply (server_steps_step _ s1).
    + apply (server_steps_step _ server_start); [apply server_steps_refl |].
      exact (request_counted server_start _ eq_refl).
    + exact (request_counted s1 _ eq_refl).
  - exact (monitor_receives s2 1 {| cap := 10; queue := [ 1 ] |} 1 false
             eq_refl eq_refl).
Qed.

Lemma activeConnections_counts_requests_in_progress_witness :
  0 <= counter example_server_busy
  /\ counter example_server_busy
     + pending_sum (queue (connTrackChannel example_server_busy))
     = Z.of_nat (in_progress example_server_busy
                 + panicked example_server_busy)
  /\ (queue (connTrackChannel example_server_busy) = []
      -> counter example_server_busy
         = Z.of_nat (in_progress example_server_busy
                     + panicked example_server_busy))
  /\ (List.length (queue (connTrackChannel example_server_busy)) <= 10)%nat.
Proof.
  apply (activeConnections_counts_requests_in_progress example_server_busy).
  - exact example_server_busy_reachable.
  - reflexivity.
Defined.

(** X7.  The monitor starts a shutdown for idleness only when no
    request is between its two sends: at the step that starts one,
    the counter is zero, the channel is empty, no request is in progress
    and none has panicked. *)
Theorem idle_shutdown_only_when_no_request_in_progress s s' :
  server_steps server_start s ->
  Z.of_nat (arrived s) < 2 ^ 63 ->
  server_step s s' ->
  idle_shutdowns_started s' <> idle_shutdowns_started s ->
  idle_shutdowns_started s' = S (idle_shutdowns_started s)
  /\ counter s = 0
  /\ queue (connTrackChannel s) = []
  /\ in_progress s = 0%nat
  /\ panicked s = 0%nat.
Proof.
  intros Hsteps Hbound Hstep Hstarted.
  destruct (server_inv_steps _ _ server_inv_start Hsteps Hbound)
    as (_ & _ & _ & Hsum).
  inversion Hstep as [s0 c Hsend | s0 n c Hprog Hsend | s0 n Hprog
                     | s0 inc c c' started Hrecv Hbody
                     | s0 c' started Hempty Hbody]; subst;
    cbn [idle_shutdowns_started] in Hstarted |- *;
    try (exfalso; apply Hstarted; reflexivity).
  - rewrite received_body in Hbody. injection Hbody as _ <-.
    exfalso; apply Hstarted; reflexivity.
  - destruct (timer_body _ _ _ Hbody) as (Hc0 & _ & ->).
    rewrite Hempty, Hc0 in Hsum. cbn [pending_sum fold_right] in Hsum.
    repeat split; try assumption; lia.
Qed.

Lemma idle_shutdown_only_when_no_request_in_progress_witness :
  idle_shutdowns_started example_server_idle
  = S (idle_shutdowns_started server_start)
  /\ counter server_start = 0
  /\ queue (connTrackChannel server_start) = []
  /\ in_progress server_start = 0%nat
  /\ panicked server_start = 0%nat.
Proof.
  apply (idle_shutdown_only_when_no_request_in_progress
           server_start example_server_idle).
  - apply server_steps_refl.
  - reflexivity.
  - apply (monitor_timer server_start 0 true); reflexivity.
  - discriminate.
Defined.

(** X8.  A request whose handler panics never sends its decrement: from
    then on the counter and the channel always hold it, and the monitor
    never again starts a shutdown for idleness, whatever requests come
    and go afterwards. *)
Theorem panicked_request_disables_idle_shutdown s s' :
  server_steps server_start s ->
  (0 < panicked s)%nat ->
  server_steps s s' ->
  Z.of_nat (arrived s') < 2 ^ 63 ->
  idle_shutdowns_started s' = idle_shutdowns_started s
  /\ (0 < panicked s')%nat
  /\ 0 < counter s' + pending_sum (queue (connTrackChannel s')).
Proof.
  intros Hreach Hpanic Hsteps.
  induction Hsteps as [s | s1 s2 s3 Hsteps IH Hstep]; intros Hbound.
  - split; [reflexivity |]. split; [exact Hpanic |].
    destruct (server_inv_steps _ _ server_inv_start Hreach Hbound)
      as (_ & _ & _ & Hsum).
    lia.
  - pose proof (server_step_arrived _ _ Hstep) as Harr.
    destruct (IH Hreach Hpanic ltac:(lia)) as (Hsame & Hp2 & _).
    assert (Hreach2 : server_steps server_start s2)
      by (apply (server_steps_trans _ s1); assumption).
    assert (Hreach3 : server_steps server_start s3)
      by (eapply server_steps_step; eassumption).
    destruct (server_inv_steps _ _ server_inv_start Hreach3 Hbound)
      as (_ & _ & _ & Hsum3).
    assert (Hp3 : (0 < panicked s3)%nat)
      by (inversion Hstep; subst; cbn [panicked]; lia).
    split; [| split; [exact Hp3 | lia]].
    rewrite <- Hsame.
    destruct (Nat.eq_dec (idle_shutdowns_started s3)
                         (idle_shutdowns_started s2)) as [E | NE];
      [exact E | exfalso].
    destruct (idle_shutdown_only_when_no_request_in_progress
                s2 s3 Hreach2 ltac:(lia) Hstep NE) as (_ & _ & _ & _ & H0).
    lia.
Qed.

Lemma example_server_panicked_reachable :
  server_steps server_start example_server_panicked.
Proof.
  set (s1 := {| connTrackChannel := {| cap := 10; queue := [ 1 ] |};
                counter := 0; in_progress := 1; panicked := 0; arrived := 1;
                idle_shutdowns_started := 0 |}).
  set (s2 := {| connTrackChannel := {| cap := 10; queue := [ 1 ] |};
                counter := 0; in_progress := 0; panicked := 1; arrived := 1;
                idle_shutdowns_started := 0 |}).
  apply (server_steps_step _ s2).
  - apply (server_steps_step _ s1).
    + apply (server_steps_step _ server_start); [apply server_steps_refl |].
      exact (request_counted server_start _ eq_refl).
    + exact (request_panics s1 0 eq_refl).
  - exact (monitor_receives s2 1 {| cap := 10; queue := [] |} 1 false
             eq_refl eq_refl).
Qed.

Lemma example_server_later_reachable :
  server_steps example_server_panicked example_server_later.
Proof.
  set (s1 := {| connTrackChannel := {| cap := 10; queue := [ 1 ] |};
                counter := 1; in_progress := 1; panicked := 1; arrived := 2;
                idle_shutdowns_started := 0 |}).
  set (s2 := {| connTrackChannel := {| cap := 10; queue := [] |};
                counter := 2; in_progress := 1; panicked := 1; arrived := 2;
                idle_shutdowns_started := 0 |}).
  set (s3 := {| connTrackChannel := {| cap := 10; queue := [ -1 ] |};
                counter := 2; in_progress := 0; panicked := 1; arrived := 2;
                idle_shutdowns_started := 0 |}).
  apply (server_steps_step _ s3).
  - apply (server_steps_step _ s2).
    + apply (server_steps_step _ s1).
      * apply (server_steps_step _ example_server_panicked);
          [apply server_steps_refl |].
        exact (request_counted example_server_panicked _ eq_refl).
      * exact (monitor_receives s1 1 {| cap := 10; queue := [] |} 2 false
                 eq_refl eq_refl).
    + exact (request_uncounted s2 0 _ eq_refl eq_refl).
  - exact (monitor_receives s3 (-1) {| cap := 10; queue := [] |} 1 false
             eq_refl eq_refl).
Qed.

Lemma panicked_request_disables_idle_shutdown_witness :
  idle_shutdowns_started example_server_later
  = idle_shutdowns_started example_server_panicked
  /\ (0 < panicked example_server_later)%nat
  /\ 0 < counter example_server_later
         + pending_sum (queue (connTrackChannel example_server_later)).
Proof.
  apply (panicked_request_disables_idle_shutdown
           example_server_panicked example_server_later).
  - exact example_server_panicked_reachable.
  - apply Nat.lt_0_1.
  - exact example_server_later_reachable.
  - reflexivity.
Defined.

(** X20.  Once every request has sent both of its values, none has
    panicked and the monitor has emptied [connTrackChannel], the counter
    is back at zero and the monitor is in its [select] again: the step
    that starts a shutdown for idleness is open to it. *)
Theorem idle_shutdown_possible_after_the_last_request s :
  server_steps server_start s ->
  Z.of_nat (arrived s) < 2 ^ 63 ->
  in_progress s = 0%nat ->
  panicked s = 0%nat ->
  queue (connTrackChannel s) = [] ->
  counter s = 0
  /\ exists s',
       server_step s s'
       /\ idle_shutdowns_started s' = S (idle_shutdowns_started s)
       /\ counter s' = 0.
Proof.
  intros Hsteps Hbound Hprog Hpanic Hq.
  destruct (server_inv_steps _ _ server_inv_start Hsteps Hbound)
    as (_ & _ & _ & Hsum).
  rewrite Hq, Hprog, Hpanic in Hsum. cbn [pending_sum fold_right] in Hsum.
  assert (Hc : counter s = 0) by lia.
  split; [exact Hc |].
  exists {| connTrackChannel := connTrackChannel s; counter := 0;
            in_progress := in_progress s; panicked := panicked s;
            arrived := arrived s;
            idle_shutdowns_started := S (idle_shutdowns_started s) |}.
  split; [| split; reflexivity].
  apply (monitor_timer s 0 true Hq).
  rewrite Hc. reflexivity.
Qed.

Lemma example_server_drained_reachable :
  server_steps server_start example_server_drained.
Proof.
  set (s1 := {| connTrackChannel := {| cap := 10; queue := [ 1 ] |};
                counter := 0; in_progress := 1; panicked := 0; arrived := 1;
                idle_shutdowns_started := 0 |}).
  set (s2 := {| connTrackChannel := {| cap := 10; queue := [] |};
                counter := 1; in_progress := 1; panicked := 0; arrived := 1;
                idle_shutdowns_started := 0 |}).
  set (s3 := {| connTrackChannel := {| cap := 10; queue := [ -1 ] |};
                counter := 1; in_progress := 0; panicked := 0; arrived := 1;
                idle_shutdowns_started := 0 |}).
  apply (server_steps_step _ s3).
  - apply (server_steps_step _ s2).
    + apply (server_steps_step _ s1).
      * apply (server_steps_step _ server_start); [apply server_steps_refl |].
        exact (request_counted server_start _ eq_refl).
      * exact (monitor_receives s1 1 {| cap := 10; queue := [] |} 1 false
                 eq_refl eq_refl).
    + exact (request_uncounted s2 0 _ eq_refl eq_refl).
  - exact (monitor_receives s3 (-1) {| cap := 10; queue := [] |} 0 false
             eq_refl eq_refl).
Qed.

Lemma idle_shutdown_possible_after_the_last_request_witness :
  counter example_server_drained = 0
  /\ exists s',
       server_step example_server_drained s'
       /\ idle_shutdowns_started s'
          = S (idle_shutdowns_started example_server_drained)
       /\ counter s' = 0.
Proof.
  apply (idle_shutdown_possible_after_the_last_request
           example_server_drained).
  - exact example_server_drained_reachable.
  - reflexivity.
  - reflexivity.
  - reflexivity.
  - reflexivity.
Defined.

(** ** The command line *)

Lemma flag_Set_uri_empty args :
  forall config,
    uri config = "" ->
    (forall v, In (flag_uri v) args -> v = "") ->
    uri (fold_left flag_Set args config) = "".
Proof.
  induction args as [|s args IH]; intros config Hc Hall; [exact Hc |].
  cbn [fold_left]. apply IH.
  - destruct s; cbn [flag_Set uri]; try exact Hc.
    apply Hall. left. reflexivity.
  - intros v Hin. apply Hall. right. exact Hin.
Qed.

Lemma flag_Set_idleTimeout_kept args :
  forall config,
    (forall v, ~ In (flag_max_idle v) args) ->
    idleTimeout (fold_left flag_Set args config) = idleTimeout config.
Proof.
  induction args as [|s args IH]; intros config Hnone; [reflexivity |].
  cbn [fold_left]. rewrite IH.
  - destruct s; cbn [flag_Set idleTimeout]; try reflexivity.
    exfalso. apply (Hnone v). left. reflexivity.
  - intros v Hin. apply (Hnone v). right. exact Hin.
Qed.

Lemma flag_Parse_last args s :
  flag_Parse (args ++ [ s ]) = flag_Set (flag_Parse args) s.
Proof. unfold flag_Parse. rewrite fold_left_app. reflexivity. Qed.

(** X9.  [parseFlags] refuses a command line without an address: when
    no [-uri] flag is given, or only empty ones, whatever the other
    flags, it prints the usage and exits with status 1, and
    [instance.config] is not assigned; and a command line that ends on a
    [-uri] that is not empty is accepted, with that address in the
    configuration and no event. *)
Theorem parseFlags_requires_uri args :
  ((forall v, In (flag_uri v) args -> v = "") ->
   parseFlags args = ([ Usage; Eff (Exit 1) ], None))
  /\ (forall v, v <> "" ->
        parseFlags (args ++ [ flag_uri v ])
        = ([], Some (flag_Set (flag_Parse args) (flag_uri v)))
        /\ uri (flag_Set (flag_Parse args) (flag_uri v)) = v).
Proof.
  split.
  - intros Hall. unfold parseFlags, flag_Parse.
    rewrite (flag_Set_uri_empty args parseFlags_defaults eq_refl Hall).
    reflexivity.
  - intros v Hv. unfold parseFlags. rewrite flag_Parse_last.
    cbn [flag_Set uri].
    destruct (String.eqb_spec v "") as [E | _]; [contradiction |].
    split; reflexivity.
Qed.

(** ** The start-up *)

Ltac in_order_search :=
  repeat first [ apply in_order_nil | apply in_order_here
               | apply in_order_later ].

Lemma parseFlags_accepts args :
  uri (flag_Parse args) <> "" ->
  parseFlags args = ([], Some (flag_Parse args)).
Proof.
  intros Huri. unfold parseFlags.
  destruct (String.eqb_spec (uri (flag_Parse args)) "") as [E | _];
    [contradiction | reflexivity].
Qed.

Lemma forallb_app {A : Type} (f : A -> bool) l1 l2 :
  forallb f (l1 ++ l2) = forallb f l1 && forallb f l2.
Proof.
  induction l1 as [|a l1 IH]; [reflexivity |].
  cbn [app forallb]. rewrite IH. apply andb_assoc.
Qed.



Lemma main_started url_Parse args eng fileUri :
  uri (flag_Parse args) <> "" ->
  url_Parse (uri (flag_Parse args)) = inl fileUri ->
  main url_Parse args eng
  = let config := flag_Parse args in
    GOMAXPROCS_NumCPU :: NewAdd_torrent_params
    :: (if String.eqb (Scheme fileUri) "file"
        then [ Eff (Println (String.append "Opening local file "
                               (Path fileUri)));
               NewTorrent_info (Path fileUri) ]
        else [ Eff (Println "Fetching link") ])
    ++ [ Eff (Println "Setting save path") ]
    ++ (if noSparseFile config
        then [ Eff (Println "Disabling sparse file support...") ]
        else [])
    ++ [ Eff (Println "Starting BT engine...");
         NewSession;
         Listen_on (portLower config) (portUpper config) ]
    ++ configureSession config (answer_Settings eng)
         (answer_NewPe_settings eng)
    ++ startServices
    ++ [ Eff (Println "Adding torrent");
         Add_torrent
           (main_torrentParams config fileUri
              (answer_NewAdd_torrent_params eng));
         Eff (Println "Enabling sequential download");
         Set_sequential_download true;
         Torrent_Name;
         Eff (Println (String.append "Downloading: " (answer_Name eng)));
         NewTorrentFS;
         Go Program.handleSignals;
         Go Program.watchParent ]
    ++ startHTTP config.
Proof.
  intros Hgiven Hurl. unfold main.
  rewrite (parseFlags_accepts args Hgiven), Hurl. reflexivity.
Qed.

(** X11.  On a command line with an address that parses, whatever the
    other flags, [main] creates the session and sets its listen ports,
    hands it the session settings and the encryption settings, starts
    DHT, LSD, UPNP and NATPMP, and only then adds the torrent; it turns
    sequential download on, builds the torrent file system and starts the
    signal handler and the parent watcher before it starts the HTTP
    server, which is its last event: no request is served before
    [instance.torrentHandle] and [instance.torrentFS] are assigned. *)
Theorem main_serves_after_the_torrent_is_added url_Parse args eng fileUri :
  uri (flag_Parse args) <> "" ->
  url_Parse (uri (flag_Parse args)) = inl fileUri ->
  let config := flag_Parse args in
  let handler :=
    if idleTimeout config >? 0
    then NewConnectionCounterHandler connTrackChannel_cap startHTTP_mux
    else startHTTP_mux in
  in_order
    [ NewSession;
      Listen_on (portLower config) (portUpper config);
      Set_settings (configureSession_settings config (answer_Settings eng));
      Set_pe_settings
        (configureSession_encryptionSettings config
           (answer_NewPe_settings eng));
      Start_dht; Start_lsd; Start_upnp; Start_natpmp;
      Add_torrent
        (main_torrentParams config fileUri
           (answer_NewAdd_torrent_params eng));
      Set_sequential_download true;
      NewTorrentFS;
      Go Program.handleSignals;
      Go Program.watchParent;
      ListenAndServe (bindAddress config) handler ]
    (main url_Parse args eng)
  /\ exists pre,
       main url_Parse args eng
       = pre ++ [ ListenAndServe (bindAddress config) handler ]
       /\ forallb (fun e => match e with
                            | ListenAndServe _ _ => false
                            | _ => true
                            end) pre = true.
Proof.
  intros Hgiven Hurl config handler.
  rewrite (main_started url_Parse args eng fileUri Hgiven Hurl).
  fold config. subst handler.
  unfold startHTTP, configureSession, startServices.
  destruct (String.eqb (Scheme fileUri) "file");
    destruct (noSparseFile config);
    destruct (idleTimeout config >? 0);
    cbn [app]; (split; [in_order_search |]);
    match goal with
    | |- exists pre, ?tr = _ /\ _ => exists (removelast tr)
    end; split; reflexivity.
Qed.

Lemma main_serves_after_the_torrent_is_added_witness :
  let config := flag_Parse example_args in
  let handler := NewConnectionCounterHandler 10 startHTTP_mux in
  in_order
    [ NewSession;
      Listen_on 6900 6999;
      Set_settings
        (configureSession_settings config (answer_Settings example_answers));
      Set_pe_settings
        (configureSession_encryptionSettings config
           (answer_NewPe_settings example_answers));
      Start_dht; Start_lsd; Start_upnp; Start_natpmp;
      Add_torrent {| ti := Some "/example.torrent"; url := "";
                     save_path := "."; storage_mode := None |};
      Set_sequential_download true;
      NewTorrentFS;
      Go Program.handleSignals;
      Go Program.watchParent;
      ListenAndServe ":5001" handler ]
    (main example_url_Parse example_args example_answers)
  /\ exists pre,
       main example_url_Parse example_args example_answers
       = pre ++ [ ListenAndServe ":5001" handler ]
       /\ forallb (fun e => match e with
                            | ListenAndServe _ _ => false
                            | _ => true
                            end) pre = true.
Proof.
  apply (main_serves_after_the_torrent_is_added example_url_Parse
           example_args example_answers
           {| Scheme := "file"; Path := "/example.torrent" |}).
  - discriminate.
  - reflexivity.
Defined.

(** X12.  The tasks that [main] and [startHTTP] start on a command line
    that is accepted are the signal handler and the parent watcher, in
    that order, and after them the idle monitor exactly when the idle
    timeout is positive.  A command line without a [-max-idle] flag
    leaves the timeout at its default of -1: no idle monitor is started,
    and the server is given the multiplexer itself, without the counting
    wrapper. *)
Theorem main_starts_the_idle_monitor_on_request url_Parse args eng fileUri :
  uri (flag_Parse args) <> "" ->
  url_Parse (uri (flag_Parse args)) = inl fileUri ->
  started_by (main url_Parse args eng)
  = [ Program.handleSignals; Program.watchParent ]
    ++ (if idleTimeout (flag_Parse args) >? 0
        then [ Program.inactiveAutoShutdown ]
        else [])
  /\ ((forall v, ~ In (flag_max_idle v) args) ->
      idleTimeout (flag_Parse args) = -1
      /\ started_by (main url_Parse args eng)
         = [ Program.handleSignals; Program.watchParent ]
      /\ In (ListenAndServe (bindAddress (flag_Parse args)) startHTTP_mux)
            (main url_Parse args eng)).
Proof.
  intros Hgiven Hurl.
  rewrite (main_started url_Parse args eng fileUri Hgiven Hurl).
  cbv zeta.
  assert (Htasks :
            forall config,
              started_by
                (GOMAXPROCS_NumCPU :: NewAdd_torrent_params
                 :: (if String.eqb (Scheme fileUri) "file"
                     then [ Eff (Println (String.append "Opening local file "
                                            (Path fileUri)));
                            NewTorrent_info (Path fileUri) ]
                     else [ Eff (Println "Fetching link") ])
                 ++ [ Eff (Println "Setting save path") ]
                 ++ (if noSparseFile config
                     then [ Eff (Println "Disabling sparse file support...") ]
                     else [])
                 ++ [ Eff (Println "Starting BT engine...");
                      NewSession;
                      Listen_on (portLower config) (portUpper config) ]
                 ++ configureSession config (answer_Settings eng)
                      (answer_NewPe_settings eng)
                 ++ startServices
                 ++ [ Eff (Println "Adding torrent");
                      Add_torrent
                        (main_torrentParams config fileUri
                           (answer_NewAdd_torrent_params eng));
                      Eff (Println "Enabling sequential download");
                      Set_sequential_download true;
                      Torrent_Name;
                      Eff (Println (String.append "Downloading: "
                                      (answer_Name eng)));
                      NewTorrentFS;
                      Go Program.handleSignals;
                      Go Program.watchParent ]
                 ++ startHTTP config)
              = [ Program.handleSignals; Program.watchParent ]
                ++ (if idleTimeout config >? 0
                    then [ Program.inactiveAutoShutdown ]
                    else [])).
  { intros config. unfold startHTTP.
    destruct (String.eqb (Scheme fileUri) "file");
      destruct (noSparseFile config);
      destruct (idleTimeout config >? 0); reflexivity. }
  split; [apply Htasks |].
  intros Hnone.
  assert (Hidle : idleTimeout (flag_Parse args) = -1)
    by (unfold flag_Parse; rewrite flag_Set_idleTimeout_kept;
        [reflexivity | exact Hnone]).
  split; [exact Hidle |].
  rewrite Htasks. rewrite Hidle. split; [reflexivity |].
  rewrite !app_comm_cons. rewrite !app_assoc.
  apply in_or_app. right.
  unfold startHTTP. rewrite Hidle. cbn. right. right. left. reflexivity.
Qed.

Lemma main_starts_the_idle_monitor_on_request_witness :
  started_by (main example_url_Parse example_args example_answers)
  = [ Program.handleSignals; Program.watchParent;
      Program.inactiveAutoShutdown ].
Proof.
  apply (main_starts_the_idle_monitor_on_request example_url_Parse
           example_args example_answers
           {| Scheme := "file"; Path := "/example.torrent" |}).
  - discriminate.
  - reflexivity.
Defined.

(** ** The session settings *)

(** X13.  [configureSession] hands a rate limit to the session only for
    a positive [-dlrate] or [-ulrate]: otherwise the limit that
    [Settings()] answered goes back unchanged.  A positive rate below
    [2 ^ 53] is handed over multiplied by 1024; from [2 ^ 53] on the
    product no longer fits the 64-bit [int] and, up to [2 ^ 54], is handed
    over as a negative number.  The two limits do not depend on one
    another, and both encryption policies are the [-encryption] value. *)
Theorem configureSession_rate_limits cfg settings encryptionSettings :
  let final := configureSession_settings cfg settings in
  let pe := configureSession_encryptionSettings cfg encryptionSettings in
  In (Set_settings final) (configureSession cfg settings encryptionSettings)
  /\ (maxDownloadRate cfg <= 0 ->
      download_rate_limit final = download_rate_limit settings)
  /\ (0 < maxDownloadRate cfg < 2 ^ 53 ->
      download_rate_limit final = maxDownloadRate cfg * 1024)
  /\ (2 ^ 53 <= maxDownloadRate cfg < 2 ^ 54 ->
      download_rate_limit final = maxDownloadRate cfg * 1024 - 2 ^ 64
      /\ download_rate_limit final < 0)
  /\ (maxUploadRate cfg <= 0 ->
      upload_rate_limit final = upload_rate_limit settings)
  /\ (0 < maxUploadRate cfg < 2 ^ 53 ->
      upload_rate_limit final = maxUploadRate cfg * 1024)
  /\ (2 ^ 53 <= maxUploadRate cfg < 2 ^ 54 ->
      upload_rate_limit final = maxUploadRate cfg * 1024 - 2 ^ 64
      /\ upload_rate_limit final < 0)
  /\ In (Set_pe_settings pe)
        (configureSession cfg settings encryptionSettings)
  /\ out_enc_policy pe = encryption cfg
  /\ in_enc_policy pe = encryption cfg.
Proof.
  intros final pe.
  assert (Hwrap : forall r, 2 ^ 53 <= r < 2 ^ 54 ->
                            wrap64 (r * 1024) = r * 1024 - 2 ^ 64).
  { intros r Hr. unfold wrap64.
    replace (r * 1024 + 2 ^ 63)
      with ((r * 1024 - 2 ^ 63) + 1 * 2 ^ 64) by lia.
    rewrite Z.mod_add by lia. rewrite Z.mod_small by lia. lia. }
  assert (Hdl : download_rate_limit final
                = if maxDownloadRate cfg >? 0
                  then wrap64 (maxDownloadRate cfg * 1024)
                  else download_rate_limit settings).
  { subst final. unfold configureSession_settings.
    destruct (maxDownloadRate cfg >? 0); destruct (maxUploadRate cfg >? 0);
      reflexivity. }
  assert (Hul : upload_rate_limit final
                = if maxUploadRate cfg >? 0
                  then wrap64 (maxUploadRate cfg * 1024)
                  else upload_rate_limit settings).
  { subst final. unfold configureSession_settings.
    destruct (maxDownloadRate cfg >? 0); destruct (maxUploadRate cfg >? 0);
      reflexivity. }
  split; [right; right; left; reflexivity |].
  split; [intros Hr; rewrite Hdl;
          destruct (Z.gtb_spec (maxDownloadRate cfg) 0); [lia | reflexivity] |].
  split; [intros Hr; rewrite Hdl;
          destruct (Z.gtb_spec (maxDownloadRate cfg) 0);
          [apply wrap64_small; lia | lia] |].
  split; [intros Hr; rewrite Hdl;
          destruct (Z.gtb_spec (maxDownloadRate cfg) 0); [| lia];
          rewrite (Hwrap _ Hr); split; [reflexivity | lia] |].
  split; [intros Hr; rewrite Hul;
          destruct (Z.gtb_spec (maxUploadRate cfg) 0); [lia | reflexivity] |].
  split; [intros Hr; rewrite Hul;
          destruct (Z.gtb_spec (maxUploadRate cfg) 0);
          [apply wrap64_small; lia | lia] |].
  split; [intros Hr; rewrite Hul;
          destruct (Z.gtb_spec (maxUploadRate cfg) 0); [| lia];
          rewrite (Hwrap _ Hr); split; [reflexivity | lia] |].
  split; [do 5 right; left; reflexivity |].
  split; reflexivity.
Qed.

(** ** The listing's answer *)

Lemma in_range_is_finite prec emax x N :
  in_range prec emax x N -> is_finite x = true.
Proof.
  unfold in_range, below.
  destruct x as [s | s | | s m e]; intros H; solve [reflexivity | tauto].
Qed.

Lemma Marshal_FileStatusInfo_finite fi :
  is_finite (FileStatusInfo.Buffer fi) = true ->
  FileStatusInfo.Marshal fi = Some (FileStatusInfo_json fi).
Proof.
  intros Hfin. unfold FileStatusInfo.Marshal, json_object, json_float.
  rewrite Hfin. reflexivity.
Qed.

Lemma json_all_map_Some {A : Type} (f : A -> option json) (g : A -> json) l :
  (forall a, In a l -> f a = Some (g a)) ->
  json_all (map f l) = Some (map g l).
Proof.
  induction l as [|a l IH]; intros Hall; [reflexivity |].
  cbn [map json_all]. rewrite (Hall a (or_introl eq_refl)).
  rewrite IH by (intros b Hb; apply Hall; right; exact Hb).
  reflexivity.
Qed.

(** X14.  When every piece progress the engine reports is a [float32]
    within [0, 1], [lsHandler] always answers with a JSON document,
    never with an empty body: status 200, content type
    [application/json], and an object whose [files] member is [null] for
    an empty directory and otherwise the array of one object per file, in
    the order of the directory, each with its name, size, offset, piece
    count and buffer readiness. *)
Theorem lsHandler_answers_json unrepresentable Get_piece_progress cfg files :
  (forall piece,
      unit_interval Float32.prec Float32.emax (Get_piece_progress piece)) ->
  lsHandler unrepresentable Get_piece_progress cfg files
  = {| Header := [ ("Content-Type", "application/json") ];
       StatusCode := 200;
       Body :=
         Some (JObject
                 [ ("files",
                    match files with
                    | [] => JNull
                    | _ =>
                        JArray
                          (map (fun file =>
                                  FileStatusInfo_json
                                    (fileStatusInfo unrepresentable
                                       Get_piece_progress cfg file))
                               files)
                    end) ]) |}.
Proof.
  intros Hprogress. unfold lsHandler. f_equal.
  unfold LsInfo.Marshal. rewrite lsHandler_retFiles_map.
  destruct files as [|file files]; [reflexivity |].
  set (fs := file :: files).
  assert (Hall : json_all
                   (map FileStatusInfo.Marshal
                      (map (fileStatusInfo unrepresentable Get_piece_progress
                              cfg) fs))
                 = Some (map FileStatusInfo_json
                           (map (fileStatusInfo unrepresentable
                                   Get_piece_progress cfg) fs))).
  { apply json_all_map_Some. intros fi Hin.
    apply in_map_iff in Hin. destruct Hin as (f & <- & _).
    apply Marshal_FileStatusInfo_finite.
    apply (in_range_is_finite Float64.prec Float64.emax _ 1).
    apply (unit_interval_in_range _ _ Float64_prec Float64_emax).
    apply fileStatusInfo_unit_interval. exact Hprogress. }
  subst fs. unfold json_object. cbn [map snd fst] in Hall |- *.
  rewrite Hall. rewrite map_map. reflexivity.
Qed.

Lemma lsHandler_answers_json_witness :
  lsHandler example_unrepresentable example_progress
    (example_config false (-1) buffer_0_01) example_files
  = {| Header := [ ("Content-Type", "application/json") ];
       StatusCode := 200;
       Body :=
         Some (JObject
                 [ ("files",
                    JArray
                      [ JObject
                          [ ("name", JString "a.mkv"); ("size", JInt 1000);
                            ("offset", JInt 0); ("total_pieces", JInt 100);
                            ("buffer", JFloat Float64.one) ];
                        JObject
                          [ ("name", JString "b.mkv"); ("size", JInt 1000);
                            ("offset", JInt 1000); ("total_pieces", JInt 100);
                            ("buffer", JFloat Float64.one) ] ]) ]) |}.
Proof.
  refine (eq_trans
            (lsHandler_answers_json example_unrepresentable example_progress
               (example_config false (-1) buffer_0_01) example_files
               example_progress_unit_interval) _).
  vm_compute. reflexivity.
Defined.

(** ** The call gateway on other values *)

(** X15.  [runInMainThread] accepts any value, and its closure has no
    case for a value that is neither a [func()] nor a
    [func() interface{}]: nothing is sent on [done].  So whatever the
    number of tasks that receive from [mainFuncChan], a call with such a
    value never returns and leaves the world as it was; and when there is
    a receiver, the closure is taken and run to its end, after which the
    caller waits at [<-done] and no step is left to anyone. *)
Theorem runInMainThread_blocks_on_other_types {World any : Type}
  (any_true : any) (receivers : nat) (w : World) :
  (forall g,
      gateway_steps any_true receivers not_a_func (runInMainThread_start w) g ->
      (forall v, caller g <> returned v)
      /\ world g = w
      /\ queue (done g) = [])
  /\ ((0 < receivers)%nat ->
      exists g,
        gateway_steps any_true receivers not_a_func (runInMainThread_start w) g
        /\ caller g = at_receive
        /\ handed_over g = false
        /\ forall g', ~ gateway_step any_true receivers not_a_func g g').
Proof.
  split.
  - intros g Hsteps.
    pose proof (gateway_inv_steps any_true receivers not_a_func w g Hsteps)
      as (_ & _ & _ & Hcases).
    destruct Hcases as [(Hc & _ & Hq & Hw) | [(Hc & _ & Hq & Hw & _)
                       | [(_ & _ & w' & v & Hres & _)
                       | [(Hc & _ & _ & Hq & Hw)
                       | (w' & v & _ & _ & Hres & _)]]]];
      try discriminate Hres;
      (split; [intros v; rewrite Hc; discriminate | split; assumption]).
  - intros Hrecv.
    set (g1 := {| world := w; caller := @at_receive any;
                  mainFuncChan := make_chan mainFuncChan_cap;
                  done := make_chan 1; handed_over := true |}).
    set (g2 := {| world := w; caller := @at_receive any;
                  mainFuncChan := make_chan mainFuncChan_cap;
                  done := make_chan 1; handed_over := false |}).
    exists g2. split; [| split; [reflexivity | split; [reflexivity |]]].
    + apply gateway_steps_step with (g2 := g1).
      * apply gateway_steps_step with (g2 := runInMainThread_start w);
          [apply gateway_steps_refl |].
        apply (step_hand_over World any any_true receivers not_a_func
                 (runInMainThread_start w)); [reflexivity | exact Hrecv].
      * apply step_run with (g := g1) (w' := w) (done' := make_chan 1);
          reflexivity.
    + intros g' Hstep.
      inversion Hstep as [g c Hc Hsend | g Hc _ | g c _ Htake
                         | g w' done' Hh _ | g v done' _ Hret]; subst;
        try discriminate.
Qed.

(** ** What a teardown deletes *)

Lemma removeFiles_loop_only path_Join eng todo :
  forall i p,
    In (RemoveAll p) (removeFiles_loop path_Join eng todo i) ->
    exists j,
      0 <= j < Z.of_nat todo
      /\ p = path_Join (Torrent_handle.Save_path (torrentHandle eng))
               (File_at_GetPath
                  (Torrent_handle.Get_torrent_info (torrentHandle eng))
                  (i + j)).
Proof.
  induction todo as [|todo IH]; intros i p Hin; [destruct Hin |].
  cbn [removeFiles_loop In] in Hin. destruct Hin as [Heq | Hin].
  - exists 0. split; [lia |]. rewrite Z.add_0_r. congruence.
  - destruct (IH _ _ Hin) as (j & Hj & ->).
    exists (j + 1). split; [lia |]. f_equal. f_equal. lia.
Qed.

Lemma forallb_not_In {A : Type} (f : A -> bool) l a :
  forallb (fun x => negb (f x)) l = true -> f a = true -> ~ In a l.
Proof.
  intros Hall Ha Hin. rewrite forallb_forall in Hall.
  specialize (Hall a Hin). rewrite Ha in Hall. discriminate.
Qed.

(** X16.  Whatever the engine answers, every path that a run of
    [shutdown] hands to [os.RemoveAll] is the save path of the torrent
    joined with the path of one of its files, at an index from 0 up to
    the number of files; and a path is deleted only with keep-files off
    and with the torrent's metadata at hand. *)
Theorem shutdown_deletes_only_the_torrent_files path_Join fuel cfg eng p :
  In (RemoveAll p) (trace_of (shutdown path_Join fuel cfg eng)) ->
  keepFiles cfg = false
  /\ GetHas_metadata (Torrent_handle.Status (torrentHandle eng)) = true
  /\ exists i,
       0 <= i < Num_files (Torrent_handle.Get_torrent_info (torrentHandle eng))
       /\ p = path_Join (Torrent_handle.Save_path (torrentHandle eng))
                (File_at_GetPath
                   (Torrent_handle.Get_torrent_info (torrentHandle eng)) i).
Proof.
  unfold shutdown. rewrite trace_of_and_then.
  intros Hin. apply in_app_or in Hin. destruct Hin as [Hin | Hin].
  { exfalso. cbn in Hin. intuition discriminate. }
  destruct (keepFiles cfg).
  { exfalso. cbn in Hin. intuition discriminate. }
  split; [reflexivity |].
  cbn [Bool.eqb] in Hin. rewrite trace_of_and_then in Hin.
  apply in_app_or in Hin. destruct Hin as [Hin | Hin].
  { exfalso. cbn in Hin. intuition discriminate. }
  pose proof (wait_loop_no_RemoveAll fuel eng 0) as Hwait.
  destruct (wait_loop fuel eng 0) as [tr | tr]; cbn [trace_of] in Hin, Hwait.
  - apply in_app_or in Hin. destruct Hin as [Hin | Hin].
    { exfalso. exact (forallb_not_In is_RemoveAll tr (RemoveAll p) Hwait eq_refl Hin). }
    apply in_app_or in Hin. destruct Hin as [Hin | Hin].
    + unfold removeFiles in Hin.
      destruct (GetHas_metadata (Torrent_handle.Status (torrentHandle eng))).
      * split; [reflexivity |]. cbn [Bool.eqb] in Hin.
        destruct Hin as [Hin | [Hin | Hin]]; try discriminate.
        destruct (removeFiles_loop_only _ _ _ _ _ Hin) as (j & Hj & ->).
        exists j. split; [lia | reflexivity].
      * exfalso. cbn in Hin. intuition discriminate.
    + exfalso. cbn in Hin. intuition discriminate.
  - exfalso. exact (forallb_not_In is_RemoveAll tr (RemoveAll p) Hwait eq_refl Hin).
Qed.

Lemma shutdown_deletes_only_the_torrent_files_witness :
  keepFiles (example_config false 5 (S754_zero false)) = false
  /\ GetHas_metadata
       (Torrent_handle.Status (torrentHandle (example_engine true))) = true
  /\ exists i,
       0 <= i < Num_files
                  (Torrent_handle.Get_torrent_info
                     (torrentHandle (example_engine true)))
       /\ "dl/b.srt"
          = join_slash
              (Torrent_handle.Save_path (torrentHandle (example_engine true)))
              (File_at_GetPath
                 (Torrent_handle.Get_torrent_info
                    (torrentHandle (example_engine true))) i).
Proof.
  apply (shutdown_deletes_only_the_torrent_files join_slash 2
           (example_config false 5 (S754_zero false)) (example_engine true)
           "dl/b.srt").
  vm_compute. repeat (first [ left; reflexivity | right ]).
Defined.

(** ** The default is to delete *)

Lemma flag_Set_keepFiles_kept args :
  forall config,
    (forall v, ~ In (flag_keep v) args) ->
    keepFiles (fold_left flag_Set args config) = keepFiles config.
Proof.
  induction args as [|s args IH]; intros config Hnone; [reflexivity |].
  cbn [fold_left]. rewrite IH.
  - destruct s; cbn [flag_Set keepFiles]; try reflexivity.
    exfalso. apply (Hnone v). left. reflexivity.
  - intros v Hin. apply (Hnone v). right. exact Hin.
Qed.

(** X17.  A command line without a [-keep] flag leaves keep-files off,
    so every [shutdown] of such a process asks the engine to remove the
    torrent together with its files (option 1), right after having set
    the alert mask to the storage notifications, whatever the engine
    answers afterwards; by then it has stopped DHT, LSD, UPNP and NATPMP,
    each of the four stops being among the events before the request,
    none of which is a removal step. *)
Theorem shutdown_removes_the_torrent_by_default path_Join args fuel eng :
  (forall v, ~ In (flag_keep v) args) ->
  keepFiles (flag_Parse args) = false
  /\ exists pre rest,
       trace_of (shutdown path_Join fuel (flag_Parse args) eng)
       = pre ++ Set_alert_mask AlertStorage_notification
             :: Remove_torrent 1 :: rest
       /\ forallb (fun e => negb (is_removal e)) pre = true
       /\ In Stop_dht pre /\ In Stop_lsd pre
       /\ In Stop_upnp pre /\ In Stop_natpmp pre
       /\ services_stopped_before_removal
            (trace_of (shutdown path_Join fuel (flag_Parse args) eng)).
Proof.
  intros Hnone.
  assert (Hkeep : keepFiles (flag_Parse args) = false)
    by (unfold flag_Parse; rewrite flag_Set_keepFiles_kept;
        [reflexivity | exact Hnone]).
  split; [exact Hkeep |].
  exists [ Println "Stopping torrent2http...";
           Println "Stopping DHT..."; Stop_dht;
           Println "Stopping LSD..."; Stop_lsd;
           Println "Stopping UPNP..."; Stop_upnp;
           Println "Stopping NATPMP..."; Stop_natpmp;
           Println "Removing torrent..." ].
  unfold shutdown. rewrite Hkeep. cbn [Bool.eqb].
  rewrite !trace_of_and_then.
  eexists. split; [reflexivity |]. split; [reflexivity |].
  split; [cbn [In]; tauto |]. split; [cbn [In]; tauto |].
  split; [cbn [In]; tauto |]. split; [cbn [In]; tauto |].
  pose proof (shutdown_services_stopped path_Join fuel (flag_Parse args) eng)
    as Hstopped.
  unfold shutdown in Hstopped. rewrite Hkeep in Hstopped.
  cbn [Bool.eqb] in Hstopped. rewrite !trace_of_and_then in Hstopped.
  exact Hstopped.
Qed.

Lemma shutdown_removes_the_torrent_by_default_witness :
  keepFiles (flag_Parse example_args) = false
  /\ exists pre rest,
       trace_of (shutdown join_slash 2 (flag_Parse example_args)
                   (example_engine true))
       = pre ++ Set_alert_mask AlertStorage_notification
             :: Remove_torrent 1 :: rest
       /\ forallb (fun e => negb (is_removal e)) pre = true
       /\ In Stop_dht pre /\ In Stop_lsd pre
       /\ In Stop_upnp pre /\ In Stop_natpmp pre
       /\ services_stopped_before_removal
            (trace_of (shutdown join_slash 2 (flag_Parse example_args)
                         (example_engine true))).
Proof.
  apply (shutdown_removes_the_torrent_by_default join_slash example_args 2
           (example_engine true)).
  intros v [H | [H | []]]; discriminate H.
Defined.

(** ** [statusHandler]: the rates are finite *)

Section Magnitude.

Variables prec emax : Z.
Hypothesis Hprec : 0 < prec.
Hypothesis Hemax : prec < emax.

Local Abbreviation emin := (emin prec emax).
Local Abbreviation fexp := (fexp prec emax).

Lemma magnitude_below_is_finite x k :
  magnitude_below x k -> is_finite x = true.
Proof.
  destruct x as [s | s | | s m e]; intros H;
    solve [reflexivity | destruct H].
Qed.

Lemma finish_magnitude sx m e k :
  0 <= m <= 2 ^ prec -> prec + e <= k -> k + 1 < emax ->
  magnitude_below (finish prec emax sx m e) (k + 1).
Proof.
  intros Hm He Hk. unfold finish.
  destruct (Z.eqb_spec m 0) as [-> | Hm0]; [exact I |].
  destruct (Z.eqb_spec m (2 ^ prec)) as [-> | Hm1].
  - destruct (Z.leb_spec (e + 1) (emax - prec)) as [_ | Hbad]; [| lia].
    cbn [magnitude_below].
    pose proof (pow2_pos (prec - 1) ltac:(lia)) as Hp.
    rewrite Z2Pos.id by lia.
    rewrite (Zdigits2_unique (2 ^ (prec - 1)) prec Hp).
    + lia.
    + rewrite (pow2_pred prec Hprec). lia.
  - destruct (Z.leb_spec e (emax - prec)) as [_ | Hbad]; [| lia].
    cbn [magnitude_below]. rewrite Z2Pos.id by lia.
    pose proof (Zdigits2_le_prec prec Hprec m ltac:(lia)). lia.
Qed.

Lemma binary_round_aux_magnitude sx mx ex lx k :
  0 <= mx ->
  0 <= fexp (Zdigits2 mx + ex) - ex ->
  Zdigits2 mx + ex <= k -> emin + prec <= k -> k + 1 < emax ->
  magnitude_below (binary_round_aux prec emax sx mx ex lx) (k + 1).
Proof.
  intros Hmx Hn Hd Hlow Hk.
  destruct (binary_round_aux_spec prec emax Hprec sx mx ex lx Hmx Hn)
    as (r1 & s1 & _ & _ & ->).
  destruct (first_shift_digits prec emax Hprec mx ex Hmx Hn) as (_ & Hlt & _).
  set (n := fexp (Zdigits2 mx + ex) - ex) in *.
  assert (Hq : 0 <= mx / 2 ^ n)
    by (apply Z.div_pos; [exact Hmx | apply pow2_pos; exact Hn]).
  apply finish_magnitude; [| | exact Hk].
  - destruct (rounds_up r1 s1 (mx / 2 ^ n)); lia.
  - unfold n, SpecFloat.fexp, SpecFloat.emin in *. lia.
Qed.

Lemma digits_below m k : 0 < m < 2 ^ k -> Zdigits2 m <= k.
Proof.
  intros [Hpos Hlt].
  destruct (Zdigits2_bounds m Hpos) as [Hlo _].
  destruct (Z_le_gt_dec (Zdigits2 m) k) as [H | H]; [exact H | exfalso].
  assert (Hk : 0 <= k).
  { destruct (Z_le_gt_dec 0 k) as [H0 | H0]; [exact H0 |].
    rewrite Z.pow_neg_r in Hlt by lia. lia. }
  pose proof (Z.pow_le_mono_r 2 k (Zdigits2 m - 1) ltac:(lia) ltac:(lia)).
  lia.
Qed.

Lemma binary_round_magnitude sx m k :
  Z.pos m < 2 ^ k -> emin + prec <= k -> k + 1 < emax ->
  magnitude_below (binary_round prec emax sx m 0) (k + 1).
Proof.
  intros Hm Hlow Hk. unfold binary_round.
  destruct (shl_align_spec prec emax m 0) as (mz & ez & -> & Hez & Hmz & Hn).
  apply binary_round_aux_magnitude; try assumption; [lia |].
  pose proof (digits2_pos_shift m (0 - ez) ltac:(lia) mz Hmz) as Hd.
  change (Zdigits2 (Z.pos mz)) with (Z.pos (digits2_pos mz)).
  rewrite Hd.
  pose proof (digits_below (Z.pos m) k ltac:(lia)) as Hdm.
  change (Zdigits2 (Z.pos m)) with (Z.pos (digits2_pos m)) in Hdm. lia.
Qed.

Lemma binary_normalize_magnitude n k :
  - 2 ^ k < n < 2 ^ k -> emin + prec <= k -> k + 1 < emax ->
  magnitude_below (binary_normalize prec emax n 0 false) (k + 1).
Proof.
  intros Hn Hlow Hk. destruct n as [| p | p]; cbn [binary_normalize].
  - exact I.
  - apply binary_round_magnitude; [lia | assumption | assumption].
  - apply binary_round_magnitude; [| assumption | assumption].
    change (Z.neg p) with (- Z.pos p) in Hn. lia.
Qed.

Lemma SFdiv_magnitude sa ma ea sb mb eb k :
  Zdigits2 (Z.pos ma) + ea - (Zdigits2 (Z.pos mb) + eb) + 1 <= k ->
  emin + prec <= k -> k + 1 < emax ->
  magnitude_below
    (SFdiv prec emax (S754_finite sa ma ea) (S754_finite sb mb eb)) (k + 1).
Proof.
  intros HD Hlow Hk. unfold SFdiv, SFdiv_core_binary.
  set (d1 := Zdigits2 (Z.pos ma)) in *. set (d2 := Zdigits2 (Z.pos mb)) in *.
  set (e' := Z.min (fexp (d1 + ea - (d2 + eb))) (ea - eb)).
  set (s := ea - eb - e').
  assert (Hs : 0 <= s) by (unfold s, e'; lia).
  pose proof (pow2_pos s Hs) as Hps.
  rewrite (shifted_dividend (Z.pos ma) s Hs).
  pose proof (Z_div_mod (Z.pos ma * 2 ^ s) (Z.pos mb) ltac:(lia)) as Hdm.
  destruct (Z.div_eucl (Z.pos ma * 2 ^ s) (Z.pos mb)) as [q r].
  destruct Hdm as [Hdm Hr].
  assert (Hq : 0 <= q) by nia.
  pose proof (Zdigits2_bounds (Z.pos ma) ltac:(lia)) as [Hma_lo Hma_hi].
  pose proof (Zdigits2_bounds (Z.pos mb) ltac:(lia)) as [Hmb_lo Hmb_hi].
  fold d1 in Hma_lo, Hma_hi. fold d2 in Hmb_lo, Hmb_hi.
  assert (Hd1 : 0 < d1) by (unfold d1; simpl; lia).
  assert (Hd2 : 0 < d2) by (unfold d2; simpl; lia).
  pose proof (pow2_pos (d1 - 1) ltac:(lia)) as Hp1.
  pose proof (pow2_pos (d2 - 1) ltac:(lia)) as Hp2.
  apply binary_round_aux_magnitude; try assumption.
  - (* the quotient has digits to spare *)
    destruct (Z_le_gt_dec e' emin) as [Hlow' | Hhigh].
    + pose proof (emin_le_fexp prec emax (Zdigits2 q + e')). lia.
    + assert (Hx : e' <= d1 + ea - (d2 + eb) - prec)
        by (unfold e', SpecFloat.fexp in *; lia).
      set (t := d1 - 1 + s - d2).
      assert (Ht : prec - 1 <= t) by (unfold t, s; lia).
      pose proof (pow2_pos t ltac:(lia)) as Hpt.
      pose proof (pow2_pos d2 ltac:(lia)) as Hpd2.
      assert (Hsplit : 2 ^ (d1 - 1) * 2 ^ s = 2 ^ t * 2 ^ d2).
      { rewrite <- !pow2_split by lia. f_equal. unfold t. lia. }
      assert (Hqt : 2 ^ t <= q).
      { destruct (Z_le_gt_dec (2 ^ t) q) as [H | H]; [exact H | exfalso].
        assert (Z.pos mb * q + r < Z.pos mb * 2 ^ t) by nia.
        assert (2 ^ t * 2 ^ d2 <= Z.pos ma * 2 ^ s) by (rewrite <- Hsplit; nia).
        nia. }
      pose proof (Zdigits2_bounds q ltac:(lia)) as [_ Hq_hi].
      assert (Hdq : t < Zdigits2 q).
      { apply (Z.pow_lt_mono_r_iff 2); try lia.
        destruct q as [| p | p]; try lia. simpl. lia. }
      unfold SpecFloat.fexp. unfold t, s in *. lia.
  - (* and is below [2 ^ k] *)
    destruct (Z.eq_dec q 0) as [-> | Hq0].
    + cbn [Zdigits2]. unfold e', SpecFloat.fexp, SpecFloat.emin in *. lia.
    + set (t := d1 + s - d2 + 1).
      assert (Hlt : 2 ^ (d2 - 1) < 2 ^ (d1 + s)).
      { rewrite (pow2_split d1 s) by lia. nia. }
      assert (Ht : 0 < t).
      { apply Z.pow_lt_mono_r_iff in Hlt; unfold t; lia. }
      assert (Hsplit : 2 ^ (d1 + s) = 2 ^ t * 2 ^ (d2 - 1)).
      { rewrite <- pow2_split by lia. f_equal. unfold t. lia. }
      pose proof (pow2_pos t ltac:(lia)) as Hpt.
      assert (Hqt : q < 2 ^ t).
      { rewrite (pow2_split d1 s) in Hsplit by lia. nia. }
      pose proof (digits_below q t ltac:(lia)).
      unfold t, s in *. lia.
Qed.

End Magnitude.

Lemma Float32_prec : 0 < Float32.prec.
Proof. reflexivity. Qed.

Lemma Float32_emax : Float32.prec < Float32.emax.
Proof. reflexivity. Qed.

(** A rate of the engine, an [int], is finite once converted to
    [float32] and divided by 1000. *)
Lemma rate_is_finite n :
  - 2 ^ 63 <= n < 2 ^ 63 ->
  is_finite (Float32.div (Float32.of_int n) (Float32.of_int 1000)) = true.
Proof.
  intros Hn.
  pose proof (binary_normalize_magnitude Float32.prec Float32.emax
                Float32_prec n 64) as Hmag.
  unfold Float32.div, Float32.of_int.
  change (binary_normalize Float32.prec Float32.emax 1000 0 false)
    with (S754_finite false 16384000 (-14)).
  destruct (binary_normalize Float32.prec Float32.emax n 0 false)
    as [s | s | | s m e].
  - reflexivity.
  - exfalso. apply Hmag; [lia | vm_compute; discriminate | reflexivity].
  - exfalso. apply Hmag; [lia | vm_compute; discriminate | reflexivity].
  - apply (magnitude_below_is_finite _ (56 + 1)).
    apply SFdiv_magnitude;
      [reflexivity | reflexivity | | vm_compute; discriminate | reflexivity].
    assert (Hm : magnitude_below (S754_finite s m e) (64 + 1))
      by (apply Hmag; [lia | vm_compute; discriminate | reflexivity]).
    cbn [magnitude_below] in Hm.
    change (Zdigits2 16384000) with 24. lia.
Qed.

(** X18.  With a torrent handle, the two rates that [statusHandler]
    reports are finite floats whatever [int] the engine gives: the
    answer has an empty body exactly when the progress the engine reports
    is NaN or infinite, and is otherwise the JSON object of all nine
    members, the rates being the engine's divided by 1000 in
    [float32]. *)
Theorem statusHandler_answers_json h :
  - 2 ^ 63 <= GetDownload_rate (Torrent_handle.Status h) < 2 ^ 63 ->
  - 2 ^ 63 <= GetUpload_rate (Torrent_handle.Status h) < 2 ^ 63 ->
  let tstatus := Torrent_handle.Status h in
  statusHandler (Some h)
  = {| Header := [ ("Content-Type", "application/json") ];
       StatusCode := 200;
       Body :=
         if is_finite (GetProgress tstatus)
         then
           Some (JObject
                   [ ("name", JString (Torrent_handle.Name h));
                     ("state", JInt (GetState tstatus));
                     ("progress", JFloat (GetProgress tstatus));
                     ("download_rate",
                      JFloat (Float32.div
                                (Float32.of_int (GetDownload_rate tstatus))
                                (Float32.of_int 1000)));
                     ("upload_rate",
                      JFloat (Float32.div
                                (Float32.of_int (GetUpload_rate tstatus))
                                (Float32.of_int 1000)));
                     ("num_peers", JInt (GetNum_peers tstatus));
                     ("num_seeds", JInt (GetNum_seeds tstatus));
                     ("total_seeds", JInt (GetNum_complete tstatus));
                     ("total_peers", JInt (GetNum_incomplete tstatus)) ])
         else None |}.
Proof.
  intros Hdl Hul tstatus. unfold statusHandler. f_equal.
  destruct (is_finite (GetProgress tstatus)) eqn:Hprogress.
  - apply (Marshal_SessionStatus_finite (statusHandler_status (Some h))).
    + exact Hprogress.
    + apply rate_is_finite. exact Hdl.
    + apply rate_is_finite. exact Hul.
  - unfold SessionStatus.Marshal, json_object, json_float.
    cbn [statusHandler_status SessionStatus.Progress map snd json_all].
    fold tstatus. rewrite Hprogress. reflexivity.
Qed.

Lemma statusHandler_answers_json_witness :
  statusHandler (Some (example_handle true))
  = {| Header := [ ("Content-Type", "application/json") ];
       StatusCode := 200;
       Body :=
         Some (JObject
                 [ ("name", JString "example");
                   ("state", JInt 3);
                   ("progress", JFloat (S754_zero false));
                   ("download_rate", JFloat (S754_finite false 8388608 (-12)));
                   ("upload_rate", JFloat (S754_finite false 8388608 (-23)));
                   ("num_peers", JInt 7);
                   ("num_seeds", JInt 2);
                   ("total_seeds", JInt 11);
                   ("total_peers", JInt 40) ]) |}.
Proof.
  refine (eq_trans (statusHandler_answers_json (example_handle true) _ _) _).
  - split; [discriminate | reflexivity].
  - split; [discriminate | reflexivity].
  - vm_compute. reflexivity.
Defined.
